(** * PyDMD tutorial 12: helper functions of the compressed-DMD notebook

    A shallow embedding of the helper functions defined in
    [tutorials/tutorial12/tutorial-12-cdmd.ipynb] (frame loaders, IoU / F1
    metrics, background subtraction, playback) and of the cells that use
    them, followed by the properties the specification states about them
    and by further properties of the code.

    Conventions of the embedding.
    - A finite floating-point number is the rational it denotes.  An
      arithmetic operation of numpy is the exact operation on rationals
      followed by [round_float], round-to-nearest-even at the precision of
      the result type (24 bits for float32, 53 bits for float64).  The
      exponent range is unbounded and NaN / infinities are absent: no
      operation below overflows or underflows on pixel intensities and
      pixel counts.
    - A scalar that meets an array in a comparison is converted as numpy 2
      does it: a Python float takes the element type of the array (a
      float32 array compares with the threshold rounded to IEEE binary32,
      gradual underflow and overflow to infinity included), a numpy
      float64 scalar promotes a float32 array to float64, where the
      comparison is exact.  Under the rules before numpy 2 every float
      scalar is converted like the Python float here.
    - Fixed-width integers are [Z] with the wrap-around written out.
    - numpy arrays that the caller can observe live in a [store]: a memory
      of element cells plus an allocation pointer.  An [ndarray] is a view:
      a shape and the list of cells it addresses in row-major order, so two
      arrays alias when they share cells.  Arrays that a function creates
      and never shares are plain values ([tensor]).
    - A Python exception is a [Raise] result. *)

From Stdlib Require Import ZArith QArith Qround Qpower Qabs Qreduction Lqa Lia SpecFloat.
From stdpp Require Import gmap strings list sorting.

(* ================================================================= *)
(** * Part I: the embedding *)
(* ================================================================= *)

(** ** Floating point *)

Section FloatDefs.
#[local] Open Scope Q_scope.

Definition pow2 (e : Z) : Q := 2 ^ e.

(** Round to the nearest integer, ties to even. *)
Definition rne (y : Q) : Z :=
  let f := Qfloor y in
  match Qcompare (y - inject_Z f) (1 # 2) with
  | Lt => f
  | Gt => (f + 1)%Z
  | Eq => if Z.even f then f else (f + 1)%Z
  end.

(** For [0 < x], the exponent [k] with [2^k <= x < 2^(k+1)]. *)
Definition ilog2 (x : Q) : Z :=
  let k := (Z.log2 (Qnum x) - Z.log2 (Zpos (Qden x)))%Z in
  if Qle_bool (pow2 k) x then k else (k - 1)%Z.

(** Rounding of a positive rational to [prec] significant bits. *)
Definition round_pos (prec : Z) (x : Q) : Q :=
  let e := (ilog2 x - (prec - 1))%Z in
  inject_Z (rne (x / pow2 e)) * pow2 e.

(** Round-to-nearest-even at precision [prec]; the result is a reduced
    fraction, so equal floats are equal terms. *)
Definition round_float (prec : Z) (x : Q) : Q :=
  let x := Qred x in
  match Qnum x with
  | Z0 => 0
  | Zpos _ => Qred (round_pos prec x)
  | Zneg _ => Qred (- round_pos prec (- x))
  end.

Definition fl32 : Q -> Q := round_float 24.
Definition fl64 : Q -> Q := round_float 53.

(** float64 arithmetic. *)
Definition fadd64 (a b : Q) : Q := fl64 (a + b).
Definition fmul64 (a b : Q) : Q := fl64 (a * b).
Definition fdiv64 (a b : Q) : Q := fl64 (a / b).
(** Conversion of an integer to float64. *)
Definition of_int64 (z : Z) : Q := fl64 (inject_Z z).

(** Comparisons of floats are exact. *)
Definition Qltb (x y : Q) : bool := negb (Qle_bool y x).
Definition Qgeb (x y : Q) : bool := Qle_bool y x.
Definition Qgtb (x y : Q) : bool := negb (Qle_bool x y).
Definition Qleb (x y : Q) : bool := Qle_bool x y.

(** Truth value of a number, as [np.logical_and] / [np.logical_or] take it. *)
Definition truthy (x : Q) : bool := negb (Qeq_bool x 0).

(** [ndarray.clip(lo, hi)] on one element. *)
Definition clip (lo hi x : Q) : Q :=
  if Qltb x lo then lo else if Qgtb x hi then hi else x.

End FloatDefs.

(** ** Thresholds

    The metrics compare an array with a scalar threshold.  What the
    comparison uses depends on the element type of the array and on the
    kind of the scalar. *)

(** Element types of the arrays the metrics are called on. *)
Inductive dtype : Type := float32 | float64.

(** A finite threshold: a Python float, such as the default [0.1] or a
    literal, or a numpy float64 scalar, such as an element of
    [np.linspace(0, 1, 10)]. *)
Inductive scalar : Type := PyFloat (x : Q) | NpFloat64 (x : Q).

Definition value (t : scalar) : Q :=
  match t with PyFloat x | NpFloat64 x => x end.

(** The threshold as a comparison uses it: a float32 can be infinite
    where the float64 it comes from is finite. *)
Inductive bound : Type := NegInf | Finite (t : Q) | PosInf.

(** Rounding to IEEE binary32 with an unbounded range above: below the
    smallest normal number [2^-126] the grid of the subnormal numbers,
    multiples of [2^-149], is used. *)
Definition round32 (x : Q) : Q :=
  if Qltb (Qabs x) (pow2 (-126))
  then Qred (inject_Z (rne (x / pow2 (-149))) * pow2 (-149))
  else fl32 x.

(** Conversion of a float64 to float32, round to nearest even: a result
    of magnitude [2^128] or more is an infinity. *)
Definition to_float32 (x : Q) : bound :=
  let y := round32 x in
  if Qleb (pow2 128) y then PosInf
  else if Qleb y (- pow2 128) then NegInf
  else Finite y.

(** The threshold that [a < thresh] and [a >= thresh] use for an array
    [a] of element type [dt]. *)
Definition compared (dt : dtype) (thresh : scalar) : bound :=
  match dt, thresh with
  | float32, PyFloat x => to_float32 x
  | float32, NpFloat64 x => Finite x
  | float64, PyFloat x => Finite x
  | float64, NpFloat64 x => Finite x
  end.

(** [x < thresh] and [x >= thresh] on one element. *)
Definition lt_bound (x : Q) (thresh : bound) : bool :=
  match thresh with
  | NegInf => false
  | Finite t => Qltb x t
  | PosInf => true
  end.

Definition ge_bound (x : Q) (thresh : bound) : bool :=
  match thresh with
  | NegInf => true
  | Finite t => Qgeb x t
  | PosInf => false
  end.

(** *** The standard library's IEEE 754 operations, for comparison

    [SpecFloat] specifies the binary formats bit by bit.  The functions
    below run its operations on inputs of the helpers, so that
    [round_float] can be checked against them. *)

Definition SF2Q (f : spec_float) : option Q :=
  match f with
  | S754_zero _ => Some 0%Q
  | S754_finite s m e => Some (Qred (inject_Z (if s then Zneg m else Zpos m) * pow2 e))
  | S754_infinity _ => None
  | S754_nan => None
  end.

(** [q] is the value of the IEEE number [f]. *)
Definition agrees (q : Q) (f : spec_float) : bool :=
  match SF2Q f with
  | Some q' => Qeq_bool q q'
  | None => false
  end.

Definition binary32_of_Z (z : Z) : spec_float := binary_normalize 24 128 z 0 false.
Definition binary64_of_Z (z : Z) : spec_float := binary_normalize 53 1024 z 0 false.

(** [epsilon = 1e-7] and the perfect-prediction value of [f1_score] with
    [P] positive entries, in binary64. *)
Definition ieee_epsilon : spec_float :=
  SFdiv 53 1024 (binary64_of_Z 1) (binary64_of_Z 10000000).

Definition ieee_f1_perfect (P : Z) : spec_float :=
  let tp := binary64_of_Z P in
  let precision := SFdiv 53 1024 tp (SFadd 53 1024 tp ieee_epsilon) in
  let recall := SFdiv 53 1024 tp (SFadd 53 1024 tp ieee_epsilon) in
  let f1 := SFmul 53 1024 (binary64_of_Z 2) (SFmul 53 1024 precision recall) in
  SFdiv 53 1024 f1
    (SFadd 53 1024
       (SFadd 53 1024 (SFmul 53 1024 (binary64_of_Z 1) precision) recall)
       ieee_epsilon).

(** The binary32 nearest to the float64 [m * 2^e], and its value. *)
Definition ieee_to_float32 (m e : Z) : spec_float := binary_normalize 24 128 m e false.

Definition SF2bound (f : spec_float) : option bound :=
  match f with
  | S754_zero _ => Some (Finite 0%Q)
  | S754_finite s m e => Some (Finite (Qred (inject_Z (if s then Zneg m else Zpos m) * pow2 e)))
  | S754_infinity s => Some (if s then NegInf else PosInf)
  | S754_nan => None
  end.

Definition agrees_bound (b : bound) (f : spec_float) : bool :=
  match b, SF2bound f with
  | NegInf, Some NegInf => true
  | PosInf, Some PosInf => true
  | Finite x, Some (Finite y) => Qeq_bool x y
  | _, _ => false
  end.

(** Float64 numbers [(m, e)], of value [m * 2^e], around the places where
    the conversion to float32 changes its rule: 0.7 and 0.1, halfway
    cases, the subnormal range and its ends, the overflow threshold. *)
Definition float32_samples : list (Z * Z) :=
  [(0, 0); (1, 0); (-1, 0); (6305039478318694, -53); (7205759403792794, -56);
   (1, -150); (3, -150); (1, -149); (3, -151); (5, -151); (-3, -150); (-1, -150);
   (2 ^ 24 - 1, -150); (2 ^ 25 - 1, -151); (2 ^ 24 + 1, -150); (1, -126);
   (2 ^ 53 - 1, -179); (2 ^ 53 - 1, 75); (2 ^ 53 - 1, 76); (2 ^ 24 - 1, 104);
   (2 ^ 25 - 1, 103); (2 ^ 25 - 1, 104); (- (2 ^ 25 - 1), 103); (- (2 ^ 53 - 1), 75);
   (2 ^ 53 - 1, 900); (1, -1074); (4503599627370497, -1000);
   (5780031496826639, -219); (16777215, -173); (33554431, -175); (33554433, -175)]%Z.

(** ** Fixed-width unsigned integers *)

Definition u8 (z : Z) : Z := z mod 2 ^ 8.
Definition u64 (z : Z) : Z := z mod 2 ^ 64.

(** [ndarray.astype(np.uint8)] on a float: truncation towards zero, then
    the low 8 bits. *)
Definition to_uint8 (x : Q) : Z := u8 (Qnum x ÷ Zpos (Qden x)).

(** ** Exceptions *)

Inductive exn : Type :=
| AssertionError (msg : string)
| IndexError
| ZeroDivisionError
| ValueError
| FileNotFoundError
| AttributeError
| Unmodelled.

Inductive result (A : Type) : Type :=
| Ok (a : A)
| Raise (e : exn).
Arguments Ok {A} a.
Arguments Raise {A} e.

#[global] Instance result_ret : MRet result := fun A a => Ok a.
#[global] Instance result_bind : MBind result := fun A B k r =>
  match r with
  | Ok a => k a
  | Raise e => Raise e
  end.
#[global] Instance result_fmap : FMap result := fun A B f r =>
  match r with
  | Ok a => Ok (f a)
  | Raise e => Raise e
  end.

(** ** Arrays *)

(** Number of elements of a shape. *)
Definition size (sh : list nat) : nat := foldr Nat.mul 1%nat sh.

(** An array value: shape and row-major data. *)
Record tensor : Type := Tensor { t_shape : list nat; t_data : list Q }.

(** Memory of array elements. *)
Definition addr : Type := nat.

Record store : Type := Store { mem : addr -> Q; next : addr }.

(** An array object: its shape and the cells it addresses, in row-major
    order.  A view shares cells with its base. *)
Record ndarray : Type := NdArray { shape : list nat; cells : list addr }.

(** Invariant of numpy: as many cells as the shape says. *)
Definition wf (a : ndarray) : Prop := length (cells a) = size (shape a).

(** The array lies in allocated memory. *)
Definition allocated (s : store) (a : ndarray) : Prop :=
  Forall (fun c => (c < next s)%nat) (cells a).

Definition read (s : store) (a : ndarray) : list Q := mem s <$> cells a.

Definition upd (m : addr -> Q) (c : addr) (v : Q) : addr -> Q :=
  fun c' => if Nat.eqb c' c then v else m c'.

(** [a[i] = v] for every position [i] of [a], [vals] in row-major order. *)
Fixpoint write_cells (m : addr -> Q) (cs : list addr) (vals : list Q) : addr -> Q :=
  match cs, vals with
  | c :: cs', v :: vals' => write_cells (upd m c v) cs' vals'
  | _, _ => m
  end.

Definition write (a : ndarray) (vals : list Q) (s : store) : store :=
  {| mem := write_cells (mem s) (cells a) vals; next := next s |}.

(** [a[cond(a)] = v]: the boolean mask is computed from the contents of
    [a] before anything is assigned. *)
Definition assign_where (cond : Q -> bool) (v : Q) (a : ndarray) (s : store) : store :=
  {| mem := fold_left (fun m c => if cond (mem s c) then upd m c v else m)
                      (cells a) (mem s);
     next := next s |}.

(** A fresh array holding [vals]. *)
Definition alloc (sh : list nat) (vals : list Q) (s : store) : store * ndarray :=
  let cs := seq (next s) (length vals) in
  ({| mem := write_cells (mem s) cs vals; next := (next s + length vals)%nat |},
   {| shape := sh; cells := cs |}).

(** [a.copy()] *)
Definition copy (a : ndarray) (s : store) : store * ndarray :=
  alloc (shape a) (read s a) s.

(** [a[i, :, :]]: the view on sub-array [i] along the first axis.  Two
    slices after the index need at least three dimensions. *)
Definition frame (a : ndarray) (i : nat) : result ndarray :=
  match shape a with
  | n :: ((_ :: _ :: _) as sh) =>
      if (i <? n)%nat
      then Ok {| shape := sh;
                 cells := take (size sh) (drop (i * size sh) (cells a)) |}
      else Raise IndexError
  | _ => Raise IndexError
  end.

(** Elementwise combination of two arrays of one shape.  numpy would
    broadcast operands of different shapes or raise [ValueError]; that
    case is left out of the model and reported as [Unmodelled]. *)
Definition zip_same {A B C} (f : A -> B -> C) (sh1 sh2 : list nat) (l1 : list A) (l2 : list B)
  : result (list C) :=
  if decide (sh1 = sh2) then Ok (zip_with f l1 l2) else Raise Unmodelled.

(** ** Metric helpers *)

(** The two masked assignments that open [calc_iou] and [calc_f1]:
<<
    pred[pred < thresh] = 0
    pred[pred >= thresh] = 1
>>
    on an array [pred] of element type [dt].  The second mask is computed
    after the first assignment; both comparisons use the threshold as
    numpy converts it for an array of this type. *)
Definition binarize (dt : dtype) (pred : ndarray) (thresh : scalar) (s : store) : store :=
  let t := compared dt thresh in
  let s := assign_where (fun x => lt_bound x t) 0%Q pred s in
  assign_where (fun x => ge_bound x t) 1%Q pred s.

(** [.sum()] of a boolean array: the number of [True] entries. *)
Definition count_true (l : list bool) : Z := Z.of_nat (length (filter Is_true l)).

(** [calc_iou(pred, truth, thresh)] for [pred] of element type [dt]:
    returns the store it leaves and its value.  [truth] is read after
    [pred] has been overwritten. *)
Definition calc_iou (dt : dtype) (pred truth : ndarray) (thresh : scalar) (s : store)
  : store * result Q :=
  let s := binarize dt pred thresh s in
  (s,
   land ← zip_same (fun p t => truthy p && truthy t)
                   (shape pred) (shape truth) (read s pred) (read s truth);
   lor ← zip_same (fun p t => truthy p || truthy t)
                  (shape pred) (shape truth) (read s pred) (read s truth);
   let intersection := count_true land in
   let union := count_true lor in
   mret (if (0 <? union)%Z
         then fdiv64 (of_int64 intersection) (of_int64 union)
         else 0%Q)).

(** The loop of [calc_miou] over the frame indices [idx]; [miou] is the
    running sum. *)
Fixpoint miou_loop (dt : dtype) (pred truth : ndarray) (thresh : scalar) (idx : list nat)
    (miou : Q) (s : store) : store * result Q :=
  match idx with
  | [] => (s, Ok miou)
  | i :: idx' =>
      match frame pred i, frame truth i with
      | Ok p, Ok t =>
          let (s', r) := calc_iou dt p t thresh s in
          match r with
          | Ok iou => miou_loop dt pred truth thresh idx' (fadd64 miou iou) s'
          | Raise e => (s', Raise e)
          end
      | Raise e, _ => (s, Raise e)
      | Ok _, Raise e => (s, Raise e)
      end
  end.

(** [calc_miou(pred, truth, thresh)] for [pred] of element type [dt]; the
    copy and its frames have the element type of [pred]. *)
Definition calc_miou (dt : dtype) (pred truth : ndarray) (thresh : scalar) (s : store)
  : store * result Q :=
  if decide (shape pred = shape truth) then
    let (s, pred) := copy pred s in
    match shape pred with
    | [] => (s, Raise IndexError)
    | n :: _ =>
        let (s, r) := miou_loop dt pred truth thresh (seq 0 n) 0%Q s in
        (s,
         miou ← r;
         if (n =? 0)%nat then Raise ZeroDivisionError
         else mret (fdiv64 miou (of_int64 (Z.of_nat n))))
    end
  else (s, Raise (AssertionError "Pred and truth must be same shape")).

(** [epsilon = 1e-7]: the float64 nearest to the decimal literal. *)
Definition epsilon : Q := fl64 (1 # 10000000).

(** [.sum()] of a uint8 array: accumulated in uint64. *)
Definition sum_u8 (l : list Z) : Z := u64 (foldr Z.add 0%Z l).

(** [f1_score(y_true, y_pred, beta)] on flat uint8 arrays, as [calc_f1]
    calls it.  [1 - y] and the products stay in uint8; the sums are
    uint64; adding [epsilon] moves to float64. *)
Definition f1_score (y_true y_pred : list Z) (beta : Z) : result Q :=
  let sh1 := [length y_true] in
  let sh2 := [length y_pred] in
  let not8 := fun y => u8 (1 - y) in
  let mul8 := fun a b => u8 (a * b) in
  tps ← zip_same mul8 sh1 sh2 y_true y_pred;
  tns ← zip_same mul8 sh1 sh2 (not8 <$> y_true) (not8 <$> y_pred);
  fps ← zip_same mul8 sh1 sh2 (not8 <$> y_true) y_pred;
  fns ← zip_same mul8 sh1 sh2 y_true (not8 <$> y_pred);
  let tp := sum_u8 tps in
  let tn := sum_u8 tns in
  let fp := sum_u8 fps in
  let fn := sum_u8 fns in
  let precision := fdiv64 (of_int64 tp) (fadd64 (of_int64 (u64 (tp + fp))) epsilon) in
  let recall := fdiv64 (of_int64 tp) (fadd64 (of_int64 (u64 (tp + fn))) epsilon) in
  let f1 := fmul64 (of_int64 (1 + beta ^ 2)) (fmul64 precision recall) in
  mret (fdiv64 f1 (fadd64 (fadd64 (fmul64 (of_int64 (beta ^ 2)) precision) recall) epsilon)).

(** [calc_f1(pred, truth, thresh)] for [pred] of element type [dt] *)
Definition calc_f1 (dt : dtype) (pred truth : ndarray) (thresh : scalar) (s : store)
  : store * result Q :=
  if decide (shape pred = shape truth) then
    let (s, pred) := copy pred s in
    let (s, truth) := copy truth s in
    let s := binarize dt pred thresh s in
    let pred8 := to_uint8 <$> read s pred in
    let truth8 := to_uint8 <$> read s truth in
    (s, f1_score truth8 pred8 1)
  else (s, Raise (AssertionError "Pred and truth must be same shape")).

(** ** Background subtraction *)

(** The loop of [get_video_removed]: [video[i, :, :] -= bg] for each [i]
    of [idx].  [video] is float32 and [bg] float64, as the notebook passes
    them: the difference is formed in float64 and stored as float32. *)
Fixpoint removed_loop (video bg : ndarray) (idx : list nat) (s : store) : store * result unit :=
  match idx with
  | [] => (s, Ok tt)
  | i :: idx' =>
      match frame video i with
      | Ok f =>
          match zip_same (fun v b => fl32 (fl64 (v - b))%Q)
                         (shape f) (shape bg) (read s f) (read s bg) with
          | Ok vals => removed_loop video bg idx' (write f vals s)
          | Raise e => (s, Raise e)
          end
      | Raise e => (s, Raise e)
      end
  end.

(** [get_video_removed(video, bg)]: returns its argument [video]. *)
Definition get_video_removed (video bg : ndarray) (s : store) : store * result ndarray :=
  match shape video with
  | [] => (s, Raise IndexError)
  | n :: _ =>
      let (s, r) := removed_loop video bg (seq 0 n) s in
      (s, _ ← r; mret video)
  end.

(** The per-frame transform of [play_video_removed] on the fresh array
    [subbed = video[i, :, :] - bg]:
<<
    if mask:
        subbed[subbed > thresh] = 1
        subbed[subbed <= thresh] = 0
    else:
        subbed = subbed.clip(0, 1)
>> *)
Definition mask_frame (thresh : Q) (subbed : list Q) : list Q :=
  let subbed := (fun x => if Qgtb x thresh then 1%Q else x) <$> subbed in
  (fun x => if Qleb x thresh then 0%Q else x) <$> subbed.

Definition show_frame (mask : bool) (thresh : Q) (subbed : list Q) : list Q :=
  if mask then mask_frame thresh subbed else clip 0 1 <$> subbed.

(** ** Files *)

(** What [cv2.imread(path, cv2.IMREAD_GRAYSCALE)] decodes: a uint8 array
    of shape (height, width), row-major. *)
Record image : Type := Image { im_shape : nat * nat; im_px : list Z }.

Definition wf_image (im : image) : Prop :=
  length (im_px im) = (fst (im_shape im) * snd (im_shape im))%nat ∧
  Forall (fun p => (0 <= p < 256)%Z) (im_px im).

(** The part of the file system the loaders look at: directory listings
    and decodable image files, by path. *)
Record filesystem : Type := FileSystem {
  dirs : gmap string (list string);
  images : gmap string image
}.

(** [os.listdir(path)] *)
Definition listdir (fs : filesystem) (path : string) : result (list string) :=
  match dirs fs !! path with
  | Some names => Ok names
  | None => Raise FileNotFoundError
  end.

(** [cv2.imread]: [None] when the file cannot be read. *)
Definition imread (fs : filesystem) (path : string) : option image :=
  images fs !! path.

(** [sorted(...)] on file names: lexicographic order of the characters. *)
Definition str_le (a b : string) : Prop := String.leb a b.
Definition sorted (names : list string) : list string := merge_sort str_le names.

(** [tmp.astype(np.float32) / 255] on one pixel. *)
Definition normalize (px : Z) : Q := fl32 (inject_Z px / 255)%Q.

(** [np.vstack(rows)] of 1-D arrays. *)
Definition vstack (rows : list (list Q)) : result tensor :=
  match rows with
  | [] => Raise ValueError
  | r :: _ =>
      if forallb (fun r' => length r' =? length r)%nat rows
      then Ok (Tensor [length rows; length r] (concat rows))
      else Raise ValueError
  end.

(** [.T] of the 2-D array [np.vstack] returns. *)
Definition transpose (t : tensor) : tensor :=
  match t_shape t with
  | [n; m] =>
      Tensor [m; n]
        (concat ((fun c => (fun r => nth (r * m + c)%nat (t_data t) 0%Q) <$> seq 0 n)
                 <$> seq 0 m))
  | _ => t
  end.

(** [np.asarray(imgs)] of 2-D arrays. *)
Definition asarray (imgs : list (list Q * (nat * nat))) : result tensor :=
  match imgs with
  | [] => Ok (Tensor [0%nat] [])
  | (_, (h, w)) :: _ =>
      if forallb (fun im => bool_decide (snd im = (h, w))) imgs
      then Ok (Tensor [length imgs; h; w] (concat (fst <$> imgs)))
      else Raise ValueError
  end.

(** One pass of the loading loops: read the file, normalize. *)
Definition load (fs : filesystem) (path : string) : result (list Q * (nat * nat)) :=
  match imread fs path with
  | None => Raise AttributeError
  | Some im => Ok (normalize <$> im_px im, im_shape im)
  end.

(** The two noise statements of [get_video_dmd]:
<<
    vid += np.random.normal(0, noise_amt, vid.shape)
    vid = vid.clip(0, 1)
>>
    [draws k] is the [k]-th standard normal deviate that the generator
    yields during the call; the sample is [0 + noise_amt * draws k] in
    float64, the sum is stored as float32. *)
Definition add_noise (noise_amt : Q) (draws : nat -> Q) (vid : tensor) : result tensor :=
  if Qltb noise_amt 0 then Raise ValueError
  else
    let sample := fun k => fadd64 0 (fmul64 noise_amt (draws k)) in
    let noisy := imap (fun k v => fl32 (fl64 (v + sample k))%Q) (t_data vid) in
    Ok (Tensor (t_shape vid) (clip 0 1 <$> noisy)).

(** [get_video_dmd(object, noise, noise_amt)] *)
Definition get_video_dmd (fs : filesystem) (object : string) (noise : bool)
    (noise_amt : Q) (draws : nat -> Q) : result (tensor * option (nat * nat)) :=
  let jpeg_dir := "SegTrackv2/JPEGImages/" in
  names ← listdir fs (jpeg_dir +:+ object);
  loaded ← mapM (fun i => load fs (jpeg_dir +:+ object +:+ "/" +:+ i)) (sorted names);
  let imgs := fst <$> loaded in
  let shape := last (snd <$> loaded) in
  vid ← vstack imgs;
  let vid := transpose vid in
  vid ← (if noise then add_noise noise_amt draws vid else mret vid);
  again ← vstack imgs;
  mret (transpose again, shape).

(** [get_video(object)] *)
Definition get_video (fs : filesystem) (object : string) : result tensor :=
  let jpeg_dir := "SegTrackv2/JPEGImages/" in
  names ← listdir fs (jpeg_dir +:+ object);
  imgs ← mapM (fun i => load fs (jpeg_dir +:+ object +:+ "/" +:+ i)) (sorted names);
  asarray imgs.

(** [get_gt_video(object)].  The local names are those of the source:
    [jpeg_dir] holds the ground-truth path and [gt_dir] the raw-frame
    path; the string first bound to [tmp] is overwritten by the image
    read from [jpeg_dir]. *)
Definition get_gt_video (fs : filesystem) (object : string) : result tensor :=
  let jpeg_dir := "SegTrackv2/GroundTruth/" in
  let gt_dir := "SegTrackv2/JPEGImages/" in
  jpeg_list ← sorted <$> listdir fs (jpeg_dir +:+ object);
  gt_list ← sorted <$> listdir fs (gt_dir +:+ object);
  let valid := elements ((list_to_set jpeg_list : gset string) ∩ list_to_set gt_list) in
  imgs ← mapM (fun i =>
                 let tmp := gt_dir +:+ "/" +:+ i in
                 load fs (jpeg_dir +:+ object +:+ "/" +:+ i))
              (sorted valid);
  asarray imgs.

(** [video[i, :, :]] of an array value. *)
Definition tensor_frame (t : tensor) (i : nat) : result tensor :=
  match t_shape t with
  | n :: ((_ :: _ :: _) as sh) =>
      if (i <? n)%nat
      then Ok (Tensor sh (take (size sh) (drop (i * size sh) (t_data t))))
      else Raise IndexError
  | _ => Raise IndexError
  end.

(** The frame [play_video_removed] hands to the display for index [i]:
    [video[i, :, :] - bg] in float64, then the mask or the clip. *)
Definition shown (video bg : tensor) (mask : bool) (thresh : Q) (i : nat) : result tensor :=
  f ← tensor_frame video i;
  subbed ← zip_same (fun v b => fl64 (v - b)%Q) (t_shape f) (t_shape bg) (t_data f) (t_data bg);
  mret (Tensor (t_shape f) (show_frame mask thresh subbed)).

(** [play_video_removed(bg, object, mask, interval, thresh)]: the frames
    of the animation, in order.  Frame 0 is computed first for the initial
    image; [interval] only sets the delay between frames. *)
Definition play_video_removed (fs : filesystem) (bg : tensor) (object : string)
    (mask : bool) (thresh : Q) : result (list tensor) :=
  video ← get_video fs object;
  _ ← shown video bg mask thresh 0;
  mapM (shown video bg mask thresh) (seq 0 (default 0%nat (head (t_shape video)))).

(** ** Playback of the loaded videos *)

(** [play_video(object, interval)]: the frames handed to the display, in
    order.  [video[0, :, :]] is taken first, for the initial image; then
    the animation shows [video[i, :, :]] for [i] below [video.shape[0]].
    [interval] only sets the delay between frames. *)
Definition play_video (fs : filesystem) (object : string) : result (list tensor) :=
  video ← get_video fs object;
  _ ← tensor_frame video 0;
  mapM (tensor_frame video) (seq 0 (default 0%nat (head (t_shape video)))).

(** [play_gt_video(object, interval)]: the same on the ground truth. *)
Definition play_gt_video (fs : filesystem) (object : string) : result (list tensor) :=
  video ← get_gt_video fs object;
  _ ← tensor_frame video 0;
  mapM (tensor_frame video) (seq 0 (default 0%nat (head (t_shape video)))).

(** ** The cells of the notebook that use the helpers *)

(** [d[k] = v] on a Python dict: a new key goes last, an existing key
    keeps its place. *)
Fixpoint dict_set {V} (k : string) (v : V) (d : list (string * V)) : list (string * V) :=
  match d with
  | [] => [(k, v)]
  | (k', v') :: d' =>
      if String.eqb k' k then (k', v) :: d' else (k', v') :: dict_set k v d'
  end.

(** The loop that fills [vid_metadata]:
<<
    for i in videos:
        vid_metadata[i] = len(os.listdir(f"SegTrackv2/JPEGImages/{i}"))
>> *)
Fixpoint metadata_loop (fs : filesystem) (videos : list string)
    (vid_metadata : list (string * nat)) : result (list (string * nat)) :=
  match videos with
  | [] => Ok vid_metadata
  | i :: videos' =>
      names ← listdir fs ("SegTrackv2/JPEGImages/" +:+ i);
      metadata_loop fs videos' (dict_set i (length names) vid_metadata)
  end.

Definition valid : list string :=
  ["birds_of_paradise"; "birdfall"; "frog"; "monkey"; "parachute"; "soldier"; "worm"].

(** The table [df] of the data-set cell: one row (name, number of frames)
    per entry of [videos = sorted(os.listdir("SegTrackv2/JPEGImages"))[1:]]
    whose name is in [valid].  A [DataFrame] built from [dict.items()] has
    the rows in the order of the dict; the selection [df[df.Name.isin(valid)]]
    keeps that order. *)
Definition dataset_table (fs : filesystem) : result (list (string * nat)) :=
  names ← listdir fs "SegTrackv2/JPEGImages";
  let videos := drop 1 (sorted names) in
  vid_metadata ← metadata_loop fs videos [];
  mret (filter (fun row => row.1 ∈ valid) vid_metadata).

(** [assert OBJ in df["Name"].to_list(), "Object not found in dataset"] *)
Definition check_object (df : list (string * nat)) (OBJ : string) : result unit :=
  if bool_decide (OBJ ∈ df.*1) then Ok tt
  else Raise (AssertionError "Object not found in dataset").



(** [a.reshape(sh)] of an array value. *)
Definition reshape (t : tensor) (sh : list nat) : result tensor :=
  if (size sh =? length (t_data t))%nat then Ok (Tensor sh (t_data t))
  else Raise ValueError.

(** [X.T.reshape(video.shape[1], shape[0], shape[1])]: how the notebook
    turns a matrix [X] with one frame per column (there the reconstruction
    of [video] by the DMD, of the shape of [video]) into a frame tensor. *)
Definition frames_of_matrix (X video : tensor) (shape : nat * nat) : result tensor :=
  match t_shape video with
  | _ :: n :: _ => reshape (transpose X) [n; shape.1; shape.2]
  | _ => Raise IndexError
  end.

(** One panel of the figure of background models: the axis it is drawn
    on, the [k] of its title [K = k] and the image. *)
Record panel : Type := Panel { axis : nat; title : nat; picture : list Q }.

(** The loop that accumulates the background over the modes [ks]:
<<
    for k in range(K):
        bg += modes[k, :, :]
        if k % 4 == 0:
            if idx >= len(axes):
                continue
            axes[idx].imshow(bg / (k + 1))
            axes[idx].set_title(f"K = {k}")
            idx += 1
>>
    [modes] and [bg] are float64. *)
Fixpoint background_loop (modes : tensor) (axes : nat) (ks : list nat)
    (bg : tensor) (idx : nat) (panels : list panel) : result (tensor * nat * list panel) :=
  match ks with
  | [] => Ok (bg, idx, panels)
  | k :: ks' =>
      f ← tensor_frame modes k;
      vals ← zip_same fadd64 (t_shape bg) (t_shape f) (t_data bg) (t_data f);
      let bg := Tensor (t_shape bg) vals in
      if (k mod 4 =? 0)%nat then
        if (axes <=? idx)%nat then background_loop modes axes ks' bg idx panels
        else
          let img := (fun x => fdiv64 x (of_int64 (Z.of_nat k + 1))) <$> t_data bg in
          background_loop modes axes ks' bg (idx + 1) (panels ++ [Panel idx k img])
      else background_loop modes axes ks' bg idx panels
  end.

(** The background model of the notebook, from [modes] as it is after
    [modes = np.abs(modes)]:
<<
    K = min(100, modes.shape[0])
    bg = np.zeros_like(modes[0, :, :])
    fig, axes = plt.subplots(5, 5, figsize=(16, 16))
    idx = 0
    for k in range(K): ...
    bg /= K
>>
    [modes[0, :, :]] raises for an array without frames, so [K] is at
    least 1 where [bg] is divided. *)
Definition background_model (modes : tensor) : result (tensor * list panel) :=
  let K := (100 `min` default 0 (head (t_shape modes)))%nat in
  f0 ← tensor_frame modes 0;
  let bg := Tensor (t_shape f0) ((fun _ => 0%Q) <$> t_data f0) in
  r ← background_loop modes 25 (seq 0 K) bg 0 [];
  let bg := r.1.1 in
  mret (Tensor (t_shape bg) ((fun x => fdiv64 x (of_int64 (Z.of_nat K))) <$> t_data bg),
        r.2).


(** The threshold sweep:
<<
    for thresh in thresholds:
        mious.append(calc_miou(video_removed, gt, thresh=thresh))
        f1s.append(calc_f1(video_removed, gt, thresh=thresh))
>>
    for [video_removed] of element type [dt]. *)
Fixpoint sweep (dt : dtype) (video_removed gt : ndarray) (thresholds : list scalar)
    (mious f1s : list Q) (s : store) : store * result (list Q * list Q) :=
  match thresholds with
  | [] => (s, Ok (mious, f1s))
  | thresh :: thresholds' =>
      let (s, r) := calc_miou dt video_removed gt thresh s in
      match r with
      | Ok miou =>
          let (s, r) := calc_f1 dt video_removed gt thresh s in
          match r with
          | Ok f1 => sweep dt video_removed gt thresholds' (mious ++ [miou]) (f1s ++ [f1]) s
          | Raise e => (s, Raise e)
          end
      | Raise e => (s, Raise e)
      end
  end.

(** ** Notions used in the statements *)

(** What the two assignments of [binarize] do to one element, for the
    threshold [thresh] as the comparisons use it. *)
Definition binarized (thresh : bound) (x : Q) : Q :=
  let x := if lt_bound x thresh then 0%Q else x in
  if ge_bound x thresh then 1%Q else x.



(** [x] is a value of the element type [dt]. *)
Definition representable (dt : dtype) (x : Q) : Prop :=
  match dt with
  | float32 => match to_float32 x with Finite y => (y == x)%Q | _ => False end
  | float64 => (fl64 x == x)%Q
  end.


(** The Python floats [0.1], the default threshold, and [0.7]. *)
Definition default_thresh : scalar := PyFloat (fl64 (1 # 10)).
Definition seven_tenths : Q := fl64 (7 # 10).



(** The value [calc_iou] computes from the contents of [pred] and of a
    [truth] that shares no memory with it, for the threshold as the
    comparisons use it. *)
Definition iou_value (thresh : bound) (pv tv : list Q) : Q :=
  let bp := binarized thresh <$> pv in
  let intersection := count_true (zip_with (fun p t => truthy p && truthy t) bp tv) in
  let union := count_true (zip_with (fun p t => truthy p || truthy t) bp tv) in
  if (0 <? union)%Z then fdiv64 (of_int64 intersection) (of_int64 union) else 0%Q.

(** The arithmetic mean of a list of float64 values, summed left to
    right. *)
Definition arithmetic_mean (l : list Q) : Q :=
  fdiv64 (foldl fadd64 0%Q l) (of_int64 (Z.of_nat (length l))).


(** Column [i] of a 2-D array; reshaping it to (height, width) keeps this
    row-major data. *)
Definition column (t : tensor) (i : nat) : list Q :=
  match t_shape t with
  | [n; m] => (fun r => nth (r * m + i)%nat (t_data t) 0%Q) <$> seq 0 n
  | _ => []
  end.

(** A store whose allocated cells hold [l]. *)
Definition store_of (l : list Q) : store :=
  {| mem := fun c => nth c l 0%Q; next := length l |}.

(** The unit roundoff of float32 and float64, and the decimal 1e-7. *)
Definition u32 : Q := pow2 (-24).
Definition u64r : Q := pow2 (-53).
Definition eps_dec : Q := (1 # 10000000)%Q.

(** A small data set: two raw frames of 1 x 2 pixels and one ground-truth
    mask for the video [frog]; and the same data set with another raw
    frame [a.png]. *)
Definition example_fs : filesystem :=
  {| dirs := {[ "SegTrackv2/JPEGImages/frog" := ["b.png"; "a.png"];
                "SegTrackv2/GroundTruth/frog" := ["a.png"; "c.png"] ]};
     images := {[ "SegTrackv2/JPEGImages/frog/a.png" := Image (1, 2) [0; 255]%Z;
                  "SegTrackv2/JPEGImages/frog/b.png" := Image (1, 2) [51; 1]%Z;
                  "SegTrackv2/GroundTruth/frog/a.png" := Image (1, 2) [255; 0]%Z ]} |}.

Definition example_fs_other_raw : filesystem :=
  {| dirs := dirs example_fs;
     images := <[ "SegTrackv2/JPEGImages/frog/a.png" := Image (1, 2) [7; 7]%Z ]>
                 (images example_fs) |}.

(** The ground-truth loader as the specification describes it: the pixel
    data of the intersected file names is taken from the raw-frame
    directory. *)
Definition get_gt_video_from_raw (fs : filesystem) (object : string) : result tensor :=
  let gt_names := "SegTrackv2/GroundTruth/" in
  let raw := "SegTrackv2/JPEGImages/" in
  jpeg_list ← sorted <$> listdir fs (gt_names +:+ object);
  gt_list ← sorted <$> listdir fs (raw +:+ object);
  let valid := elements ((list_to_set jpeg_list : gset string) ∩ list_to_set gt_list) in
  imgs ← mapM (fun i => load fs (raw +:+ object +:+ "/" +:+ i)) (sorted valid);
  asarray imgs.

(** Two file systems with the same directory listings and the same files
    below the ground-truth directory. *)
Definition same_ground_truth (fs fs' : filesystem) : Prop :=
  dirs fs = dirs fs' ∧
  ∀ rest : string,
    images fs !! ("SegTrackv2/GroundTruth/" +:+ rest) =
    images fs' !! ("SegTrackv2/GroundTruth/" +:+ rest).

(** ** Further notions used in the statements *)

(** The path of the file [name] of the video [object] below [dir]. *)
Definition file_path (dir object name : string) : string :=
  dir +:+ object +:+ "/" +:+ name.

(** The normalized pixels of the image file at [path]; empty when there is
    no such image. *)
Definition pixels_of (fs : filesystem) (path : string) : list Q :=
  normalize <$> im_px (default (Image (0, 0) []) (images fs !! path)).

(** A data set in which the video [frog] has a mask for each of its two
    raw frames and a further mask, which names no image; the video [worm]
    has no frames and [soldier] a frame that is no image. *)
Definition example_fs_masks : filesystem :=
  {| dirs := {[ "SegTrackv2/JPEGImages/frog" := ["b.png"; "a.png"];
                "SegTrackv2/GroundTruth/frog" := ["c.png"; "a.png"; "b.png"];
                "SegTrackv2/JPEGImages/worm" := [];
                "SegTrackv2/JPEGImages/soldier" := ["a.png"] ]};
     images := {[ "SegTrackv2/JPEGImages/frog/a.png" := Image (1, 2) [0; 255]%Z;
                  "SegTrackv2/JPEGImages/frog/b.png" := Image (1, 2) [51; 1]%Z;
                  "SegTrackv2/GroundTruth/frog/a.png" := Image (1, 2) [255; 0]%Z;
                  "SegTrackv2/GroundTruth/frog/b.png" := Image (1, 2) [0; 255]%Z ]} |}.

(** The value [calc_miou] computes from the contents [pv] of a video of
    [n] frames of shape [sh] and the contents [tv] of the ground truth. *)
Definition miou_value (thresh : bound) (n : nat) (sh : list nat) (pv tv : list Q) : Q :=
  arithmetic_mean
    ((fun i => iou_value thresh (take (size sh) (drop (i * size sh) pv))
                 (take (size sh) (drop (i * size sh) tv)))
     <$> seq 0 n).

(** The value [calc_f1] computes from the contents of its arguments. *)
Definition f1_value (thresh : bound) (pv tv : list Q) : result Q :=
  f1_score (to_uint8 <$> tv) (to_uint8 <$> (binarized thresh <$> pv)) 1.

(** Pixel [j] of frame [k] of a video whose frames have [sz] pixels. *)
Definition pixel (t : tensor) (sz k j : nat) : Q := nth (k * sz + j) (t_data t) 0%Q.

(** The float64 sum of pixel [j] over the first [k] frames, added in the
    order of the frames. *)
Definition running_sum (t : tensor) (sz k j : nat) : Q :=
  foldl fadd64 0%Q ((fun i => pixel t sz i j) <$> seq 0 k).

(** The panel number [i] of the figure: the mean of the first [4 i + 1]
    modes, under the title [K = 4 i]. *)
Definition mean_panel (modes : tensor) (sz i : nat) : panel :=
  Panel i (4 * i)
    ((fun j => fdiv64 (running_sum modes sz (4 * i + 1) j) (of_int64 (Z.of_nat (4 * i) + 1)))
     <$> seq 0 sz).

(** A data set with three entries, of which [birdfall] comes first in
    the sorted listing. *)
Definition example_fs_dataset : filesystem :=
  {| dirs := {[ "SegTrackv2/JPEGImages" := ["worm"; "frog"; "birdfall"];
                "SegTrackv2/JPEGImages/birdfall" := ["a.png"; "b.png"; "c.png"];
                "SegTrackv2/JPEGImages/frog" := ["b.png"; "a.png"];
                "SegTrackv2/JPEGImages/worm" := ["a.png"] ]};
     images := ∅ |}.

(* ================================================================= *)
(** * Part II: properties *)
(* ================================================================= *)

(** ** Rounding *)

Section FloatFacts.
#[local] Open Scope Q_scope.

Lemma pow2_pos e : 0 < pow2 e.
Proof. apply Qpower_0_lt. reflexivity. Qed.

Lemma pow2_Z e : (0 <= e)%Z -> pow2 e == inject_Z (2 ^ e).
Proof. intros H. unfold pow2. now rewrite Zpower_Qpower. Qed.

Lemma pow2_sub a b : pow2 (a - b) == pow2 a / pow2 b.
Proof. unfold pow2. apply Qpower_minus. discriminate. Qed.

Lemma pow2_add a b : pow2 (a + b) == pow2 a * pow2 b.
Proof. unfold pow2. apply Qpower_plus. discriminate. Qed.

Lemma pow2_le a b : (a <= b)%Z -> pow2 a <= pow2 b.
Proof. intros H. apply Qpower_le_compat_l; [exact H | discriminate]. Qed.

Lemma pow2_lt_inv a b : pow2 a < pow2 b -> (a < b)%Z.
Proof. intros H. apply (Qpower_lt_compat_l_inv 2); [exact H | reflexivity]. Qed.

Lemma pow2_succ a : pow2 (a + 1) == 2 * pow2 a.
Proof. rewrite pow2_add. unfold pow2 at 2. simpl. ring. Qed.

Lemma Q_num_den (x : Q) : x * inject_Z (Zpos (Qden x)) == inject_Z (Qnum x).
Proof.
  destruct x as [n d]. simpl. rewrite Qmake_Qdiv. field.
  intros H. discriminate H.
Qed.

Lemma ilog2_spec x : 0 < x -> pow2 (ilog2 x) <= x /\ x < pow2 (ilog2 x + 1).
Proof.
  intros Hx.
  assert (Hn : (0 < Qnum x)%Z).
  { destruct x as [n d]. unfold Qlt in Hx. simpl in *. lia. }
  pose proof (Z.log2_spec _ Hn) as [Ha1 Ha2].
  pose proof (Z.log2_spec (Zpos (Qden x)) eq_refl) as [Hb1 Hb2].
  pose proof (Z.log2_nonneg (Qnum x)) as Ha0.
  pose proof (Z.log2_nonneg (Zpos (Qden x))) as Hb0.
  pose proof (Q_num_den x) as Hnd.
  set (a := Z.log2 (Qnum x)) in *. set (b := Z.log2 (Zpos (Qden x))) in *.
  rewrite Zle_Qle in Ha1, Hb1. rewrite Zlt_Qlt in Ha2, Hb2.
  rewrite <- pow2_Z in Ha1, Hb1 by lia.
  unfold Z.succ in *. rewrite <- pow2_Z in Ha2, Hb2 by lia.
  rewrite pow2_succ in Ha2, Hb2.
  pose proof (pow2_pos a) as Hpa. pose proof (pow2_pos b) as Hpb.
  assert (Hab : pow2 (a - b) * pow2 b == pow2 a).
  { rewrite pow2_sub. field. lra. }
  pose proof (pow2_pos (a - b)) as Hpab.
  set (N := inject_Z (Qnum x)) in *. set (D := inject_Z (Zpos (Qden x))) in *.
  unfold ilog2. fold a b.
  destruct (Qle_bool (pow2 (a - b)) x) eqn:E.
  - apply Qle_bool_iff in E. split; [exact E |].
    rewrite pow2_succ. nra.
  - assert (E' : x < pow2 (a - b)).
    { apply Qnot_le_lt. intros H. apply Qle_bool_iff in H. congruence. }
    replace (a - b - 1 + 1)%Z with (a - b)%Z by lia.
    split; [| exact E'].
    assert (H2 : pow2 (a - b) == 2 * pow2 (a - b - 1)).
    { rewrite <- pow2_succ. now replace (a - b - 1 + 1)%Z with (a - b)%Z by lia. }
    pose proof (pow2_pos (a - b - 1)). nra.
Qed.

Lemma ilog2_unique x k : 0 < x -> pow2 k <= x -> x < pow2 (k + 1) -> ilog2 x = k.
Proof.
  intros Hx H1 H2. destruct (ilog2_spec x Hx) as [H3 H4].
  assert (k < ilog2 x + 1)%Z by (apply pow2_lt_inv; lra).
  assert (ilog2 x < k + 1)%Z by (apply pow2_lt_inv; lra).
  lia.
Qed.

Lemma Qfloor_lt' y : y < inject_Z (Qfloor y) + 1.
Proof.
  pose proof (Qlt_floor y) as H. rewrite inject_Z_plus in H. exact H.
Qed.

Lemma rne_near y : inject_Z (rne y) - (1#2) <= y /\ y <= inject_Z (rne y) + (1#2).
Proof.
  unfold rne. pose proof (Qfloor_le y) as H1. pose proof (Qfloor_lt' y) as H2.
  destruct (Qcompare_spec (y - inject_Z (Qfloor y)) (1#2)) as [E|E|E];
    [destruct (Z.even (Qfloor y)) |..];
    rewrite ?inject_Z_plus; change (inject_Z 1) with 1; lra.
Qed.

Lemma rne_le y (n : Z) : y <= inject_Z n -> (rne y <= n)%Z.
Proof.
  intros H. unfold rne.
  pose proof (Qfloor_le y) as H1. pose proof (Qfloor_lt' y) as H2.
  assert (Hf : (Qfloor y <= n)%Z) by (rewrite Zle_Qle; lra).
  destruct (Z.eq_dec (Qfloor y) n) as [E0|Hne].
  - assert (E : y == inject_Z (Qfloor y)) by (rewrite E0 in *; lra).
    destruct (Qcompare_spec (y - inject_Z (Qfloor y)) (1#2)) as [E'|E'|E']; try lra; lia.
  - destruct (Qcompare (y - inject_Z (Qfloor y)) (1#2)); [destruct (Z.even _)|..]; lia.
Qed.

Lemma rne_ge y (n : Z) : inject_Z n <= y -> (n <= rne y)%Z.
Proof.
  intros H. unfold rne.
  assert (Hf : (n <= Qfloor y)%Z).
  { rewrite <- (Qfloor_Z n). now apply Qfloor_resp_le. }
  destruct (Qcompare (y - inject_Z (Qfloor y)) (1#2)); [destruct (Z.even _)|..]; lia.
Qed.

Lemma rne_mono x y : x <= y -> (rne x <= rne y)%Z.
Proof.
  intros H. pose proof (Qfloor_resp_le _ _ H) as Hf.
  destruct (Z.eq_dec (Qfloor x) (Qfloor y)) as [E|E].
  - unfold rne. rewrite E.
    destruct (Qcompare_spec (x - inject_Z (Qfloor y)) (1#2)) as [E1|E1|E1];
    destruct (Qcompare_spec (y - inject_Z (Qfloor y)) (1#2)) as [E2|E2|E2];
      try destruct (Z.even (Qfloor y)); try lia; lra.
  - apply Z.le_trans with (Qfloor x + 1)%Z.
    + apply rne_le. pose proof (Qfloor_lt' x). rewrite inject_Z_plus. change (inject_Z 1) with 1. lra.
    + apply rne_ge.
      assert (H0 : (Qfloor x + 1 <= Qfloor y)%Z) by lia.
      pose proof (Qfloor_le y). rewrite Zle_Qle in H0.
      eapply Qle_trans; eassumption.
Qed.

#[local] Instance rne_proper : Proper (Qeq ==> eq) rne.
Proof.
  intros x y E. apply Z.le_antisymm; apply rne_mono; lra.
Qed.

Lemma pow2_le_inv a b : pow2 a <= pow2 b -> (a <= b)%Z.
Proof. intros H. apply (Qpower_le_compat_l_inv 2); [exact H | reflexivity]. Qed.

Lemma pow2_split j e : (e <= j)%Z -> pow2 j == inject_Z (2 ^ (j - e)) * pow2 e.
Proof.
  intros H. rewrite <- pow2_Z by lia. rewrite <- pow2_add. now replace (j - e + e)%Z with j by lia.
Qed.

Lemma Qdiv_le_l x y c : 0 < c -> x <= y * c -> x / c <= y.
Proof. intros Hc H. apply Qle_shift_div_r; assumption. Qed.

Lemma Qdiv_ge_l x y c : 0 < c -> y * c <= x -> y <= x / c.
Proof. intros Hc H. apply Qle_shift_div_l; assumption. Qed.

Lemma round_pos_upper prec x j :
  (1 <= prec)%Z -> 0 < x -> x <= pow2 j -> round_pos prec x <= pow2 j.
Proof.
  intros Hp Hx Hj. destruct (ilog2_spec x Hx) as [Hk _].
  assert (Hkj : (ilog2 x <= j)%Z) by (apply pow2_le_inv; lra).
  unfold round_pos. set (e := (ilog2 x - (prec - 1))%Z).
  assert (He : (e <= j)%Z) by (unfold e; lia).
  pose proof (pow2_pos e) as Hpe.
  rewrite (pow2_split j e He).
  apply Qmult_le_compat_r; [| lra].
  rewrite <- Zle_Qle. apply rne_le. apply Qdiv_le_l; [exact Hpe |].
  now rewrite <- pow2_split.
Qed.

Lemma round_pos_lower prec x :
  (1 <= prec)%Z -> 0 < x -> pow2 (ilog2 x) <= round_pos prec x.
Proof.
  intros Hp Hx. destruct (ilog2_spec x Hx) as [Hk _].
  unfold round_pos. set (e := (ilog2 x - (prec - 1))%Z).
  assert (He : (e <= ilog2 x)%Z) by (unfold e; lia).
  pose proof (pow2_pos e) as Hpe.
  rewrite (pow2_split (ilog2 x) e He) at 1.
  apply Qmult_le_compat_r; [| lra].
  rewrite <- Zle_Qle. apply rne_ge. apply Qdiv_ge_l; [exact Hpe |].
  now rewrite <- pow2_split.
Qed.

Lemma round_pos_err prec x :
  0 < x -> Qabs (round_pos prec x - x) <= x * pow2 (- prec).
Proof.
  intros Hx. destruct (ilog2_spec x Hx) as [Hk _].
  unfold round_pos. set (e := (ilog2 x - (prec - 1))%Z).
  pose proof (pow2_pos e) as Hpe. pose proof (pow2_pos (- prec)) as Hpp.
  destruct (rne_near (x / pow2 e)) as [H1 H2].
  set (m := inject_Z (rne (x / pow2 e))) in *.
  assert (Hy : x / pow2 e * pow2 e == x) by (field; lra).
  set (y := x / pow2 e) in *.
  assert (Hh : pow2 (ilog2 x) * pow2 (- prec) == (1#2) * pow2 e).
  { rewrite <- pow2_add. replace (ilog2 x + - prec)%Z with (e - 1)%Z by (unfold e; lia).
    rewrite pow2_sub. unfold pow2 at 2. simpl. field. }
  apply Qabs_Qle_condition. split; nra.
Qed.

Lemma round_pos_mono prec x y :
  (1 <= prec)%Z -> 0 < x -> x <= y -> round_pos prec x <= round_pos prec y.
Proof.
  intros Hp Hx Hxy. assert (Hy : 0 < y) by lra.
  destruct (ilog2_spec x Hx) as [Hx1 Hx2]. destruct (ilog2_spec y Hy) as [Hy1 Hy2].
  assert (Hk : (ilog2 x <= ilog2 y)%Z).
  { assert (ilog2 x < ilog2 y + 1)%Z by (apply pow2_lt_inv; lra). lia. }
  destruct (Z.eq_dec (ilog2 x) (ilog2 y)) as [E|E].
  - unfold round_pos. rewrite E. set (e := (ilog2 y - (prec - 1))%Z).
    pose proof (pow2_pos e) as Hpe.
    apply Qmult_le_compat_r; [| lra].
    rewrite <- Zle_Qle. apply rne_mono.
    apply Qdiv_le_l; [exact Hpe |].
    assert (Hq : y / pow2 e * pow2 e == y) by (field; lra). lra.
  - apply Qle_trans with (pow2 (ilog2 x + 1)).
    + apply round_pos_upper; [exact Hp | exact Hx | lra].
    + apply Qle_trans with (pow2 (ilog2 y)).
      * apply pow2_le. lia.
      * now apply round_pos_lower.
Qed.

Lemma round_float_proper prec x y : x == y -> round_float prec x = round_float prec y.
Proof. intros E. unfold round_float. now rewrite (Qred_complete x y E). Qed.

Lemma round_float_cases prec x :
  (x == 0 /\ round_float prec x = 0) \/
  (0 < x /\ 0 < Qred x /\ round_float prec x == round_pos prec (Qred x)) \/
  (x < 0 /\ 0 < - Qred x /\ round_float prec x == - round_pos prec (- Qred x)).
Proof.
  unfold round_float. pose proof (Qred_correct x) as E.
  destruct (Qred x) as [n d] eqn:R. simpl Qnum.
  destruct n as [|n|n].
  - left. split; [| reflexivity]. rewrite <- E. reflexivity.
  - right; left. assert (0 < x) by (rewrite <- E; reflexivity).
    repeat split; try assumption. apply Qred_correct.
  - right; right. assert (x < 0) by (rewrite <- E; reflexivity).
    repeat split; try assumption. apply Qred_correct.
Qed.

Lemma round_float_0 prec : round_float prec 0 = 0.
Proof. reflexivity. Qed.

Lemma round_float_err prec x :
  Qabs (round_float prec x - x) <= Qabs x * pow2 (- prec).
Proof.
  pose proof (pow2_pos (- prec)) as Hp. pose proof (Qred_correct x) as E.
  destruct (round_float_cases prec x) as [[H0 ->]|[(Hx & Hr & ->)|(Hx & Hr & ->)]].
  - rewrite H0. change (Qabs (0 - 0)) with 0. change (Qabs 0) with 0. lra.
  - pose proof (round_pos_err prec _ Hr) as H. rewrite E in H at 2 3.
    rewrite (Qabs_pos x) by lra. exact H.
  - pose proof (round_pos_err prec _ Hr) as H. rewrite E in H at 2 3.
    assert (Hx' : x <= 0) by lra. rewrite (Qabs_neg x Hx').
    apply Qabs_Qle_condition in H. destruct H as [H1 H2].
    apply Qabs_Qle_condition. split; lra.
Qed.

Lemma round_float_mono prec x y :
  (1 <= prec)%Z -> x <= y -> round_float prec x <= round_float prec y.
Proof.
  intros Hp Hxy.
  pose proof (Qred_correct x) as Ex. pose proof (Qred_correct y) as Ey.
  destruct (round_float_cases prec x) as [[Hx ->]|[(Hx & Hrx & ->)|(Hx & Hrx & ->)]];
  destruct (round_float_cases prec y) as [[Hy ->]|[(Hy & Hry & ->)|(Hy & Hry & ->)]];
    try lra.
  - pose proof (round_pos_lower prec _ Hp Hry). pose proof (pow2_pos (ilog2 (Qred y))). lra.
  - apply round_pos_mono; [exact Hp | exact Hrx | lra].
  - pose proof (round_pos_lower prec _ Hp Hrx). pose proof (pow2_pos (ilog2 (- Qred x))). lra.
  - pose proof (round_pos_lower prec _ Hp Hrx). pose proof (pow2_pos (ilog2 (- Qred x))).
    pose proof (round_pos_lower prec _ Hp Hry). pose proof (pow2_pos (ilog2 (Qred y))). lra.
  - assert (H : round_pos prec (- Qred y) <= round_pos prec (- Qred x)).
    { apply round_pos_mono; [exact Hp | exact Hry | lra]. }
    lra.
Qed.

Lemma round_float_pos prec x : (1 <= prec)%Z -> 0 < x -> 0 < round_float prec x.
Proof.
  intros Hp Hx.
  destruct (round_float_cases prec x) as [[H0 _]|[(_ & Hr & ->)|(Hn & _ & _)]]; try lra.
  pose proof (round_pos_lower prec _ Hp Hr). pose proof (pow2_pos (ilog2 (Qred x))). lra.
Qed.

Lemma round_float_nonneg prec x : (1 <= prec)%Z -> 0 <= x -> 0 <= round_float prec x.
Proof.
  intros Hp Hx. rewrite <- (round_float_0 prec). now apply round_float_mono.
Qed.

Lemma round_float_canon prec x : Qred (round_float prec x) = round_float prec x.
Proof.
  unfold round_float. destruct (Qnum (Qred x)); [reflexivity | |];
    apply Qred_complete, Qred_correct.
Qed.

Lemma round_float_1 prec : (1 <= prec)%Z -> round_float prec 1 = 1.
Proof.
  intros Hp. rewrite <- round_float_canon. change 1 with (Qred 1) at 2.
  apply Qred_complete.
  destruct (round_float_cases prec 1) as [[H0 _]|[(_ & Hr & ->)|(Hn & _ & _)]];
    [discriminate H0 | | discriminate Hn].
  change (Qred 1) with 1 in *.
  apply Qle_antisym.
  - apply (round_pos_upper prec 1 0 Hp); [reflexivity | unfold pow2; simpl; lra].
  - assert (E : ilog2 1 = 0%Z) by reflexivity.
    pose proof (round_pos_lower prec 1 Hp eq_refl) as H. rewrite E in H. exact H.
Qed.

(** A float is its own rounding: adding the integer 0 or multiplying by
    the integer 1 in float arithmetic changes nothing. *)
Lemma rne_Z (m : Z) : rne (inject_Z m) = m.
Proof.
  apply Z.le_antisymm; [apply rne_le | apply rne_ge]; apply Qle_refl.
Qed.

Lemma round_pos_fixed prec (m e : Z) :
  (1 <= prec)%Z -> (2 ^ (prec - 1) <= m < 2 ^ prec)%Z ->
  round_pos prec (inject_Z m * pow2 e) == inject_Z m * pow2 e.
Proof.
  intros Hp [Hm1 Hm2].
  pose proof (pow2_pos e) as He.
  assert (Hm0 : (0 < m)%Z) by (pose proof (Z.pow_pos_nonneg 2 (prec - 1)); lia).
  assert (Hq1 : pow2 (prec - 1) <= inject_Z m) by (rewrite pow2_Z by lia; now rewrite <- Zle_Qle).
  assert (Hq2 : inject_Z m < pow2 prec) by (rewrite pow2_Z by lia; now rewrite <- Zlt_Qlt).
  assert (Hk : ilog2 (inject_Z m * pow2 e) = (prec - 1 + e)%Z).
  { apply ilog2_unique.
    - apply Qmult_lt_0_compat; [| exact He]. change 0 with (inject_Z 0). now rewrite <- Zlt_Qlt.
    - rewrite pow2_add. apply Qmult_le_compat_r; lra.
    - replace (prec - 1 + e + 1)%Z with (prec + e)%Z by lia. rewrite pow2_add.
      apply Qmult_lt_compat_r; lra. }
  unfold round_pos. rewrite Hk.
  replace (prec - 1 + e - (prec - 1))%Z with e by lia.
  assert (E : inject_Z m * pow2 e / pow2 e == inject_Z m) by (field; lra).
  rewrite (rne_proper _ _ E), rne_Z. reflexivity.
Qed.

Lemma round_pos_proper prec x y :
  0 < x -> x == y -> round_pos prec x == round_pos prec y.
Proof.
  intros Hx E. destruct (ilog2_spec x Hx) as [H1 H2].
  assert (Hk : ilog2 y = ilog2 x) by (apply ilog2_unique; lra).
  unfold round_pos. rewrite Hk.
  assert (E' : x / pow2 (ilog2 x - (prec - 1)) == y / pow2 (ilog2 x - (prec - 1))).
  { unfold Qdiv. apply Qmult_comp; [exact E | reflexivity]. }
  now rewrite (rne_proper _ _ E').
Qed.

Lemma round_pos_idem prec x :
  (1 <= prec)%Z -> 0 < x -> round_pos prec (round_pos prec x) == round_pos prec x.
Proof.
  intros Hp Hx.
  pose proof (round_pos_lower prec x Hp Hx) as Hlo.
  destruct (ilog2_spec x Hx) as [Hk1 Hk2].
  pose proof (round_pos_upper prec x (ilog2 x + 1) Hp Hx (Qlt_le_weak _ _ Hk2)) as Hhi.
  unfold round_pos in Hlo, Hhi |- * at 2 3.
  set (e := (ilog2 x - (prec - 1))%Z) in *.
  set (m := rne (x / pow2 e)) in *.
  pose proof (pow2_pos e) as He.
  assert (Hke : pow2 (ilog2 x) == inject_Z (2 ^ (prec - 1)) * pow2 e).
  { rewrite <- pow2_Z by lia. rewrite <- pow2_add. unfold e.
    now replace (prec - 1 + (ilog2 x - (prec - 1)))%Z with (ilog2 x) by lia. }
  assert (Hke' : pow2 (ilog2 x + 1) == inject_Z (2 ^ prec) * pow2 e).
  { rewrite <- pow2_Z by lia. rewrite <- pow2_add. unfold e.
    now replace (prec + (ilog2 x - (prec - 1)))%Z with (ilog2 x + 1)%Z by lia. }
  assert (Hm1 : (2 ^ (prec - 1) <= m)%Z).
  { rewrite Zle_Qle. apply (Qmult_le_r _ _ (pow2 e) He). lra. }
  assert (Hm2 : (m <= 2 ^ prec)%Z).
  { rewrite Zle_Qle. apply (Qmult_le_r _ _ (pow2 e) He). lra. }
  destruct (Z.eq_dec m (2 ^ prec)%Z) as [E|E].
  - assert (Er : inject_Z m * pow2 e == inject_Z (2 ^ (prec - 1)) * pow2 (e + 1)).
    { rewrite E. rewrite pow2_add. change (pow2 1) with 2.
      replace prec with (prec - 1 + 1)%Z at 1 by lia.
      rewrite Z.pow_add_r by lia. rewrite inject_Z_mult. change (inject_Z (2 ^ 1)) with 2. ring. }
    assert (Hf := round_pos_fixed prec (2 ^ (prec - 1)) (e + 1) Hp).
    assert (Hrange : (2 ^ (prec - 1) <= 2 ^ (prec - 1) < 2 ^ prec)%Z).
    { split; [lia |]. apply Z.pow_lt_mono_r; lia. }
    specialize (Hf Hrange).
    assert (Hpos : 0 < inject_Z m * pow2 e).
    { apply Qmult_lt_0_compat; [| exact He]. change 0 with (inject_Z 0).
      rewrite <- Zlt_Qlt. pose proof (Z.pow_pos_nonneg 2 (prec - 1)). lia. }
    rewrite (round_pos_proper prec _ _ Hpos Er). rewrite Hf. symmetry. exact Er.
  - apply round_pos_fixed; [exact Hp | lia].
Qed.

Lemma round_float_idem prec x :
  (1 <= prec)%Z -> round_float prec (round_float prec x) = round_float prec x.
Proof.
  intros Hp. rewrite <- (round_float_canon prec x) at 2.
  rewrite <- (round_float_canon prec (round_float prec x)).
  apply Qred_complete.
  destruct (round_float_cases prec x) as [[H0 E]|[(Hx & Hr & E)|(Hx & Hr & E)]].
  - rewrite E. reflexivity.
  - pose proof (round_float_pos prec x Hp Hx) as Hfx.
    destruct (round_float_cases prec (round_float prec x))
      as [[H0' _]|[(_ & Hr' & E')|(Hx' & _ & _)]]; try lra.
    rewrite E'. rewrite (round_pos_proper prec (Qred (round_float prec x)) (round_pos prec (Qred x))).
    + rewrite E. now apply round_pos_idem.
    + exact Hr'.
    + rewrite Qred_correct. exact E.
  - assert (Hfx : round_float prec x < 0).
    { pose proof (round_pos_lower prec _ Hp Hr). pose proof (pow2_pos (ilog2 (- Qred x))). lra. }
    destruct (round_float_cases prec (round_float prec x))
      as [[H0' _]|[(Hx' & _ & _)|(_ & Hr' & E')]]; try lra.
    rewrite E'.
    rewrite (round_pos_proper prec (- Qred (round_float prec x)) (round_pos prec (- Qred x))).
    + rewrite E. rewrite round_pos_idem; [reflexivity | exact Hp | exact Hr].
    + exact Hr'.
    + rewrite Qred_correct. rewrite E. ring.
Qed.

End FloatFacts.

(** ** Agreement with the IEEE 754 specification

    On the inputs below [round_float] yields the numbers that the
    standard library's binary32 and binary64 operations yield. *)

Lemma normalize_is_binary32_division :
  forallb (fun px => agrees (normalize px)
                       (SFdiv 24 128 (binary32_of_Z px) (binary32_of_Z 255)))
          (seqZ 0 256) = true.
Proof. vm_compute. reflexivity. Qed.

Lemma epsilon_is_binary64 : agrees epsilon ieee_epsilon = true.
Proof. vm_compute. reflexivity. Qed.

Lemma fdiv64_is_binary64_division :
  forallb (fun u =>
             forallb (fun i => agrees (fdiv64 (of_int64 i) (of_int64 u))
                                 (SFdiv 53 1024 (binary64_of_Z i) (binary64_of_Z u)))
                     (seqZ 0 (u + 1)))
          (seqZ 1 48) = true.
Proof. vm_compute. reflexivity. Qed.

Lemma f1_score_is_binary64 :
  forallb (fun P => match f1_score (replicate P 1%Z) (replicate P 1%Z) 1 with
                    | Ok r => agrees r (ieee_f1_perfect (Z.of_nat P))
                    | Raise _ => false
                    end)
          (seq 1 40) = true.
Proof. vm_compute. reflexivity. Qed.

Lemma to_float32_is_binary32 :
  forallb (fun me : Z * Z =>
             agrees_bound (to_float32 (inject_Z me.1 * pow2 me.2))
                          (ieee_to_float32 me.1 me.2))
          float32_samples = true.
Proof. vm_compute. reflexivity. Qed.

(** ** Comparisons *)

Lemma Qltb_spec x y : Qltb x y = true <-> (x < y)%Q.
Proof.
  unfold Qltb. rewrite negb_true_iff. split.
  - intros H. apply Qnot_le_lt. intros Hle. apply Qle_bool_iff in Hle. congruence.
  - intros H. destruct (Qle_bool y x) eqn:E; [| reflexivity].
    apply Qle_bool_iff in E. exfalso. apply (Qlt_not_le _ _ H E).
Qed.

Lemma Qgeb_spec x y : Qgeb x y = true <-> (y <= x)%Q.
Proof. apply Qle_bool_iff. Qed.

Lemma Qltb_geb x y : Qltb x y = negb (Qgeb x y).
Proof. reflexivity. Qed.

Lemma Qgtb_leb x y : Qgtb x y = negb (Qleb x y).
Proof. reflexivity. Qed.

Lemma Qleb_spec x y : Qleb x y = true <-> (x <= y)%Q.
Proof. apply Qle_bool_iff. Qed.

(** ** Conversion of a threshold to float32 *)

Section Cast.
#[local] Open Scope Q_scope.









Lemma round32_proper x y : x == y -> round32 x = round32 y.
Proof.
  intros E. unfold round32.
  assert (Ea : Qltb (Qabs x) (pow2 (-126)) = Qltb (Qabs y) (pow2 (-126))).
  { unfold Qltb. f_equal.
    destruct (Qle_bool (pow2 (-126)) (Qabs x)) eqn:E1;
      destruct (Qle_bool (pow2 (-126)) (Qabs y)) eqn:E2; try reflexivity.
    - apply Qle_bool_iff in E1. rewrite E in E1. apply Qle_bool_iff in E1. congruence.
    - apply Qle_bool_iff in E2. rewrite <- E in E2. apply Qle_bool_iff in E2. congruence. }
  rewrite Ea. destruct (Qltb (Qabs y) (pow2 (-126))).
  - apply Qred_complete.
    assert (Er : rne (x / pow2 (-149)) = rne (y / pow2 (-149))).
    { apply Z.le_antisymm; apply rne_mono; rewrite E; apply Qle_refl. }
    now rewrite Er.
  - now apply round_float_proper.
Qed.

Lemma to_float32_proper x y : x == y -> to_float32 x = to_float32 y.
Proof. intros E. unfold to_float32. now rewrite (round32_proper x y E). Qed.

End Cast.

(** ** Comparison with a threshold *)

Lemma ge_lt_bound x b : ge_bound x b = negb (lt_bound x b).
Proof. destruct b; try reflexivity. simpl. unfold Qltb, Qgeb. now rewrite negb_involutive. Qed.




(** The result of the two assignments, by cases. *)
Lemma binarized_ge thresh x : lt_bound x thresh = false → binarized thresh x = 1%Q.
Proof.
  intros H. unfold binarized. rewrite H. now rewrite ge_lt_bound, H.
Qed.




(** ** The store *)

Lemma fold_assign (cond : Q -> bool) (v : Q) (m0 : addr -> Q) (cs : list addr) :
  ∀ (m : addr -> Q) (c : addr),
    fold_left (fun m c => if cond (m0 c) then upd m c v else m) cs m c =
    if bool_decide (c ∈ cs) && cond (m0 c) then v else m c.
Proof.
  induction cs as [|a cs IH]; intros m c; simpl.
  - reflexivity.
  - rewrite IH. destruct (decide (c = a)) as [->|Hne].
    + rewrite (bool_decide_eq_true_2 (a ∈ a :: cs)) by apply list_elem_of_here.
      simpl. destruct (cond (m0 a)) eqn:E.
      * rewrite andb_true_r. unfold upd. rewrite Nat.eqb_refl.
        now destruct (bool_decide (a ∈ cs)).
      * now rewrite andb_false_r.
    + assert (E : bool_decide (c ∈ a :: cs) = bool_decide (c ∈ cs)).
      { apply bool_decide_ext. rewrite elem_of_cons.
        split; [intros [?|?]; [contradiction | assumption] | intros ?; now right].  }
      rewrite E. destruct (bool_decide (c ∈ cs) && cond (m0 c)); [reflexivity |].
      destruct (cond (m0 a)); [| reflexivity].
      unfold upd. now rewrite (proj2 (Nat.eqb_neq c a) Hne).
Qed.

Lemma mem_assign_where cond v a s c :
  mem (assign_where cond v a s) c =
  if bool_decide (c ∈ cells a) && cond (mem s c) then v else mem s c.
Proof. unfold assign_where. simpl. apply fold_assign. Qed.

Lemma mem_binarize dt pred thresh s c :
  mem (binarize dt pred thresh s) c =
  if bool_decide (c ∈ cells pred) then binarized (compared dt thresh) (mem s c) else mem s c.
Proof.
  unfold binarize. cbv zeta. rewrite !mem_assign_where. unfold binarized.
  destruct (bool_decide (c ∈ cells pred)); reflexivity.
Qed.

Lemma next_binarize dt pred thresh s : next (binarize dt pred thresh s) = next s.
Proof. reflexivity. Qed.

Lemma read_binarize dt pred thresh s :
  read (binarize dt pred thresh s) pred = binarized (compared dt thresh) <$> read s pred.
Proof.
  unfold read. rewrite <- list_fmap_compose. apply list_fmap_ext.
  intros i c Hc. unfold compose. rewrite mem_binarize.
  rewrite bool_decide_eq_true_2; [reflexivity |].
  eapply list_elem_of_lookup_2; eassumption.
Qed.

Lemma read_ext s s' a :
  (∀ c, c ∈ cells a → mem s' c = mem s c) → read s' a = read s a.
Proof.
  intros H. unfold read. apply list_fmap_ext. intros i c Hc.
  apply H. eapply list_elem_of_lookup_2; eassumption.
Qed.

Lemma fst_calc_iou dt pred truth thresh s :
  fst (calc_iou dt pred truth thresh s) = binarize dt pred thresh s.
Proof. reflexivity. Qed.

(** ** Threshold monotonicity (C6) *)







(** ** The binarizations at the threshold (C10) *)

Lemma mask_frame_lookup thresh subbed j x :
  subbed !! j = Some x → (x <= thresh)%Q → mask_frame thresh subbed !! j = Some 0%Q.
Proof.
  intros Hj Hx. unfold mask_frame. rewrite !list_lookup_fmap, Hj. simpl.
  assert (E : Qleb x thresh = true) by now apply Qleb_spec.
  rewrite Qgtb_leb, E. simpl. now rewrite E.
Qed.

Lemma at_threshold_not_below dt thresh x :
  (x == value thresh)%Q → (dt = float32 → representable float32 x) →
  lt_bound x (compared dt thresh) = false.
Proof.
  intros Hx Hr.
  assert (Hf : lt_bound x (Finite (value thresh)) = false).
  { simpl. destruct (Qltb x (value thresh)) eqn:E; [| reflexivity].
    apply Qltb_spec in E. lra. }
  destruct dt, thresh as [t|t]; try exact Hf.
  specialize (Hr eq_refl). simpl in Hr, Hx. simpl.
  rewrite <- (to_float32_proper x t Hx).
  destruct (to_float32 x) as [|y|]; try contradiction. simpl.
  destruct (Qltb x y) eqn:E; [| reflexivity].
  apply Qltb_spec in E. lra.
Qed.

(** C10. A pixel exactly at the threshold is mapped to 1 by the
    binarization of [calc_iou] (and [calc_f1], through [binarize]) and to
    0 by the mask transform of [play_video_removed].  The pixel is an
    element of [pred], so for a float32 [pred] it is a float32 number. *)
Theorem at_threshold_disagree (dt : dtype) (s : store) (pred truth : ndarray)
    (subbed : list Q) (thresh : scalar) (x : Q) (j : nat) :
  (x == value thresh)%Q →
  (dt = float32 → representable float32 x) →
  (read s pred !! j = Some x →
     read (binarize dt pred thresh s) pred !! j = Some 1%Q ∧
     read (fst (calc_iou dt pred truth thresh s)) pred !! j = Some 1%Q) ∧
  (subbed !! j = Some x → show_frame true (value thresh) subbed !! j = Some 0%Q).
Proof.
  intros Hx Hr. split.
  - intros Hj. rewrite fst_calc_iou, read_binarize, list_lookup_fmap, Hj. simpl.
    rewrite binarized_ge by (now apply at_threshold_not_below). split; reflexivity.
  - intros Hj. simpl. apply (mask_frame_lookup (value thresh) subbed j x Hj). lra.
Qed.

Lemma at_threshold_disagree_witness :
  read (fst (calc_iou float32 (NdArray [1; 2] [0; 1]) (NdArray [1; 2] [2; 3]) (PyFloat (1 # 2))
               (store_of [1 # 2; 0; 1; 0]%Q)))
       (NdArray [1; 2] [0; 1]) !! 0 = Some 1%Q ∧
  show_frame true (1 # 2) [1 # 2; 0]%Q !! 0 = Some 0%Q.
Proof.
  pose proof (at_threshold_disagree float32 (store_of [1 # 2; 0; 1; 0]%Q) (NdArray [1; 2] [0; 1])
                (NdArray [1; 2] [2; 3]) [1 # 2; 0]%Q (PyFloat (1 # 2)) (1 # 2) 0
                (Qeq_refl (1 # 2))) as [H1 H2].
  - intros _. vm_compute. reflexivity.
  - split.
    + apply H1. reflexivity.
    + apply H2. reflexivity.
Defined.

(** ** Frame effects of the metric helpers (C8) *)

Lemma write_cells_notin cs : ∀ m vals c, c ∉ cs → write_cells m cs vals c = m c.
Proof.
  induction cs as [|a cs IH]; intros m vals c Hc; [reflexivity |].
  destruct vals as [|v vals]; [reflexivity |]. simpl.
  apply not_elem_of_cons in Hc as [Hne Hc].
  rewrite IH by exact Hc. unfold upd. now rewrite (proj2 (Nat.eqb_neq c a) Hne).
Qed.

Lemma frame_cells a i p c : frame a i = Ok p → c ∈ cells p → c ∈ cells a.
Proof.
  unfold frame. destruct (shape a) as [|n [|d1 [|d2 sh]]]; try discriminate.
  destruct (i <? n); [| discriminate].
  intros [= <-]. simpl. intros Hc.
  apply elem_of_take in Hc as (k & Hk & _).
  rewrite lookup_drop in Hk. eapply list_elem_of_lookup_2; eassumption.
Qed.

Lemma mem_copy a s c : c < next s → mem (fst (copy a s)) c = mem s c.
Proof.
  intros Hc. unfold copy, alloc. simpl. apply write_cells_notin.
  rewrite elem_of_seq. lia.
Qed.

Lemma cells_copy a s : cells (snd (copy a s)) = seq (next s) (length (cells a)).
Proof. unfold copy, alloc, read. simpl. now rewrite length_fmap. Qed.

Lemma miou_loop_cons dt pred truth thresh i idx miou s :
  miou_loop dt pred truth thresh (i :: idx) miou s =
  match frame pred i, frame truth i with
  | Ok p, Ok t =>
      let (s', r) := calc_iou dt p t thresh s in
      match r with
      | Ok iou => miou_loop dt pred truth thresh idx (fadd64 miou iou) s'
      | Raise e => (s', Raise e)
      end
  | Raise e, _ => (s, Raise e)
  | Ok _, Raise e => (s, Raise e)
  end.
Proof. reflexivity. Qed.

Lemma miou_loop_frame dt pred truth thresh idx :
  ∀ miou s c, c ∉ cells pred →
    mem (fst (miou_loop dt pred truth thresh idx miou s)) c = mem s c.
Proof.
  induction idx as [|i idx IH]; intros miou s c Hc; [reflexivity |].
  rewrite miou_loop_cons.
  destruct (frame pred i) as [p|e] eqn:Ep; [| reflexivity].
  destruct (frame truth i) as [t|e] eqn:Et; [| reflexivity].
  destruct (calc_iou dt p t thresh s) as [s' r] eqn:Ec.
  assert (Es : s' = binarize dt p thresh s)
    by (rewrite <- (fst_calc_iou dt p t thresh s), Ec; reflexivity).
  assert (Hs' : mem s' c = mem s c).
  { rewrite Es, mem_binarize. rewrite bool_decide_eq_false_2; [reflexivity |].
    intros Hp. apply Hc. eapply frame_cells; eassumption. }
  destruct r as [iou|e]; [| exact Hs'].
  rewrite IH by exact Hc. exact Hs'.
Qed.

Lemma mem_calc_miou dt pred truth thresh s c :
  c < next s → mem (fst (calc_miou dt pred truth thresh s)) c = mem s c.
Proof.
  intros Hc. unfold calc_miou.
  destruct (decide (shape pred = shape truth)); [| reflexivity].
  pose proof (mem_copy pred s c Hc) as Hm. pose proof (cells_copy pred s) as Hcs.
  destruct (copy pred s) as [s1 pred1]. simpl in Hm, Hcs.
  destruct (shape pred1) as [|n sh]; [exact Hm |].
  pose proof (miou_loop_frame dt pred1 truth thresh (seq 0 n) 0%Q s1 c) as Hl.
  destruct (miou_loop dt pred1 truth thresh (seq 0 n) 0%Q s1) as [s2 r]. simpl in *.
  rewrite Hl; [exact Hm |]. rewrite Hcs, elem_of_seq. lia.
Qed.


(** The pixel of a float32 array nearest to 0.7 lies below the float64
    0.7.  Against the Python float 0.7 it is compared in float32, where
    the two are equal, and becomes 1; against the numpy float64 scalar
    0.7 it is compared exactly and becomes 0. *)
Lemma float32_threshold_example :
  (fl32 (7 # 10) < seven_tenths)%Q ∧
  binarized (compared float32 (PyFloat seven_tenths)) (fl32 (7 # 10)) = 1%Q ∧
  binarized (compared float32 (NpFloat64 seven_tenths)) (fl32 (7 # 10)) = 0%Q.
Proof.
  split; [apply Qltb_spec; vm_compute; reflexivity |].
  split; vm_compute; reflexivity.
Qed.




(** ** Intersection over union (C3) *)

Section Ratio.
#[local] Open Scope Q_scope.

Lemma fl64_0 : fl64 0 = 0.
Proof. reflexivity. Qed.

Lemma fl64_1 : fl64 1 = 1.
Proof. apply round_float_1. lia. Qed.

Lemma fl64_mono x y : x <= y -> fl64 x <= fl64 y.
Proof. apply round_float_mono. lia. Qed.

Lemma fl64_proper x y : x == y -> fl64 x = fl64 y.
Proof. apply round_float_proper. Qed.

Lemma of_int64_pos z : (0 < z)%Z -> 1 <= of_int64 z.
Proof.
  intros H. unfold of_int64. rewrite <- fl64_1. apply fl64_mono.
  change 1 with (inject_Z 1). rewrite <- Zle_Qle. lia.
Qed.

Lemma of_int64_mono a b : (a <= b)%Z -> of_int64 a <= of_int64 b.
Proof. intros H. apply fl64_mono. now rewrite <- Zle_Qle. Qed.



Lemma fdiv64_zero (b : Q) : fdiv64 (of_int64 0) b = 0.
Proof.
  unfold fdiv64. change (of_int64 0) with 0. rewrite <- fl64_0 at 2.
  apply fl64_proper. unfold Qdiv. ring.
Qed.

(** Every float64 operation has relative error at most [2^-53]. *)
Lemma fl64_rel x : 0 <= x -> x * (1 - u64r) <= fl64 x <= x * (1 + u64r).
Proof.
  intros Hx. pose proof (round_float_err 53 x) as H.
  rewrite (Qabs_pos x Hx) in H. apply Qabs_Qle_condition in H.
  change (pow2 (Z.opp 53)) with u64r in H. change (round_float 53 x) with (fl64 x) in H.
  destruct H as [H1 H2]. split; lra.
Qed.

End Ratio.











(** The value of [calc_iou] on arrays of one shape. *)
Lemma snd_calc_iou dt pred truth thresh s :
  shape pred = shape truth →
  snd (calc_iou dt pred truth thresh s) =
  let s' := binarize dt pred thresh s in
  let intersection :=
    count_true (zip_with (fun p t => truthy p && truthy t) (read s' pred) (read s' truth)) in
  let union :=
    count_true (zip_with (fun p t => truthy p || truthy t) (read s' pred) (read s' truth)) in
  Ok (if (0 <? union)%Z then fdiv64 (of_int64 intersection) (of_int64 union) else 0%Q).
Proof.
  intros Hs. unfold calc_iou, zip_same. cbv zeta. cbn [snd].
  destruct (decide (shape pred = shape truth)); [reflexivity | contradiction].
Qed.












(** ** The float64 mean and the exact mean *)

Section MeanError.
#[local] Open Scope Q_scope.




End MeanError.

(** ** Mean IoU (C4) *)

Lemma calc_iou_value dt p t thresh s :
  shape p = shape t → (∀ c, c ∈ cells t → c ∉ cells p) →
  snd (calc_iou dt p t thresh s) =
  Ok (iou_value (compared dt thresh) (read s p) (read s t)).
Proof.
  intros Hs Hd. rewrite (snd_calc_iou dt p t thresh s Hs). cbv zeta. unfold iou_value.
  rewrite read_binarize.
  rewrite (read_ext s (binarize dt p thresh s) t); [reflexivity |].
  intros c Hc. rewrite mem_binarize. rewrite bool_decide_eq_false_2; [reflexivity |].
  now apply Hd.
Qed.

Lemma frame_ok a n sh i :
  shape a = n :: sh → 2 ≤ length sh → i < n →
  frame a i = Ok {| shape := sh; cells := take (size sh) (drop (i * size sh) (cells a)) |}.
Proof.
  intros Hs Hl Hi. unfold frame. rewrite Hs.
  destruct sh as [|d1 [|d2 sh]]; simpl in Hl; try lia.
  now rewrite (proj2 (Nat.ltb_lt i n) Hi).
Qed.

Lemma write_cells_seq vals : ∀ m b,
  write_cells m (seq b (length vals)) vals <$> seq b (length vals) = vals.
Proof.
  induction vals as [|v vals IH]; intros m b; [reflexivity |].
  simpl length. cbn [seq write_cells]. rewrite fmap_cons. f_equal.
  - rewrite write_cells_notin.
    + unfold upd. now rewrite Nat.eqb_refl.
    + rewrite elem_of_seq. lia.
  - apply IH.
Qed.

Lemma read_copy a s : read (fst (copy a s)) (snd (copy a s)) = read s a.
Proof. unfold copy, alloc, read. simpl. apply write_cells_seq. Qed.

Lemma shape_copy a s : shape (snd (copy a s)) = shape a.
Proof. reflexivity. Qed.

Lemma next_copy a s : next (fst (copy a s)) = next s + length (cells a).
Proof. unfold copy, alloc, read. simpl. now rewrite length_fmap. Qed.

Lemma read_frame s a sh i :
  read s {| shape := sh; cells := take (size sh) (drop (i * size sh) (cells a)) |} =
  take (size sh) (drop (i * size sh) (read s a)).
Proof. unfold read. simpl. now rewrite fmap_take, fmap_drop. Qed.

(** The loop of [calc_miou] on the copy [pred1], started at frame [k] in
    a store [sk] that still holds the caller's cells and the frames of
    the copy from [k] on. *)
Lemma miou_loop_spec dt s s1 pred1 truth thresh n sh (pvals : list Q) :
  shape pred1 = n :: sh → shape truth = n :: sh → 2 ≤ length sh →
  cells pred1 = seq (next s) (n * size sh) →
  allocated s truth →
  read s1 pred1 = pvals →
  (∀ c, c < next s → mem s1 c = mem s c) →
  ∀ m k acc sk,
    k + m = n →
    (∀ c, c < next s → mem sk c = mem s c) →
    (∀ c, next s + k * size sh ≤ c → mem sk c = mem s1 c) →
    snd (miou_loop dt pred1 truth thresh (seq k m) acc sk) =
    Ok (foldl fadd64 acc
          ((fun i => iou_value (compared dt thresh) (take (size sh) (drop (i * size sh) pvals))
                       (take (size sh) (drop (i * size sh) (read s truth))))
           <$> seq k m)).
Proof.
  intros Hsp Hst Hl Hcp Hat Hpv Hs1.
  induction m as [|m IH]; intros k acc sk Hk Hlow Hhigh; [reflexivity |].
  cbn [seq]. rewrite miou_loop_cons.
  rewrite (frame_ok pred1 n sh k Hsp Hl) by lia.
  rewrite (frame_ok truth n sh k Hst Hl) by lia.
  set (p := {| shape := sh; cells := take (size sh) (drop (k * (size sh)) (cells pred1)) |}).
  set (t := {| shape := sh; cells := take (size sh) (drop (k * (size sh)) (cells truth)) |}).
  assert (Hpc : cells p = seq (next s + k * (size sh)) (size sh)).
  { unfold p. simpl. rewrite Hcp, drop_seq, take_seq. f_equal. nia. }
  assert (Htc : ∀ c, c ∈ cells t → c < next s).
  { intros c Hc. unfold t in Hc. simpl in Hc.
    apply elem_of_take in Hc as (j & Hj & _). rewrite lookup_drop in Hj.
    unfold allocated in Hat. rewrite Forall_forall in Hat. apply Hat.
    eapply list_elem_of_lookup_2; eassumption. }
  assert (Hdisj : ∀ c, c ∈ cells t → c ∉ cells p).
  { intros c Hc Hp. apply Htc in Hc. rewrite Hpc, elem_of_seq in Hp. lia. }
  pose proof (calc_iou_value dt p t thresh sk eq_refl Hdisj) as Hv.
  pose proof (fst_calc_iou dt p t thresh sk) as Hf.
  destruct (calc_iou dt p t thresh sk) as [s' r]. simpl in Hv, Hf. subst s' r.
  rewrite fmap_cons. cbn [foldl].
  assert (Hrp : read sk p = take (size sh) (drop (k * (size sh)) pvals)).
  { rewrite <- Hpv. unfold p. rewrite <- (read_frame s1 pred1 sh k).
    apply read_ext. intros c Hc. apply Hhigh.
    change (c ∈ cells p) in Hc. rewrite Hpc, elem_of_seq in Hc. lia. }
  assert (Hrt : read sk t = take (size sh) (drop (k * (size sh)) (read s truth))).
  { unfold t. rewrite <- (read_frame s truth sh k).
    apply read_ext. intros c Hc. apply Hlow. now apply Htc. }
  rewrite Hrp, Hrt. apply IH.
  - lia.
  - intros c Hc. rewrite mem_binarize. rewrite bool_decide_eq_false_2; [now apply Hlow |].
    rewrite Hpc, elem_of_seq. lia.
  - intros c Hc. rewrite mem_binarize. rewrite bool_decide_eq_false_2; [apply Hhigh; lia |].
    rewrite Hpc, elem_of_seq. simpl in Hc. lia.
Qed.

Lemma size_cons n sh : size (n :: sh) = n * size sh.
Proof. reflexivity. Qed.





(** ** Background subtraction writes into its argument (C9) *)

Lemma write_cells_lookup cs :
  ∀ m vals j c v,
    NoDup cs → cs !! j = Some c → vals !! j = Some v →
    write_cells m cs vals c = v.
Proof.
  induction cs as [|a cs IH]; intros m vals j c v Hnd Hc Hv; [discriminate Hc |].
  destruct vals as [|v0 vals]; [discriminate Hv |].
  apply NoDup_cons in Hnd as [Ha Hnd]. cbn [write_cells].
  destruct j as [|j]; simpl in Hc, Hv.
  - injection Hc as ->. injection Hv as ->.
    rewrite write_cells_notin by exact Ha. unfold upd. now rewrite Nat.eqb_refl.
  - eapply IH; eassumption.
Qed.

Lemma removed_loop_cons video bg i idx s :
  removed_loop video bg (i :: idx) s =
  match frame video i with
  | Ok f =>
      match zip_same (fun v b => fl32 (fl64 (v - b))%Q)
                     (shape f) (shape bg) (read s f) (read s bg) with
      | Ok vals => removed_loop video bg idx (write f vals s)
      | Raise e => (s, Raise e)
      end
  | Raise e => (s, Raise e)
  end.
Proof. reflexivity. Qed.

Lemma removed_loop_spec s video bg n sh :
  shape video = n :: sh → shape bg = sh → 2 ≤ length sh →
  length (cells video) = n * size sh → length (cells bg) = size sh →
  NoDup (cells video) → (∀ c, c ∈ cells bg → c ∉ cells video) →
  ∀ m k sk,
    k + m = n →
    (∀ c, c ∉ cells video → mem sk c = mem s c) →
    (∀ j c, cells video !! j = Some c →
       mem sk c = if j <? k * size sh
                  then fl32 (fl64 (mem s c - nth (j mod size sh) (read s bg) 0))%Q
                  else mem s c) →
    ∃ s', removed_loop video bg (seq k m) sk = (s', Ok tt) ∧
          (∀ c, c ∉ cells video → mem s' c = mem s c) ∧
          (∀ j c, cells video !! j = Some c →
             mem s' c = fl32 (fl64 (mem s c - nth (j mod size sh) (read s bg) 0))%Q).
Proof.
  intros Hsv Hsb Hl Hlv Hlb Hnd Hdisj.
  induction m as [|m IH]; intros k sk Hk Hout Hin.
  - exists sk. split; [reflexivity |]. split; [exact Hout |].
    intros j c Hj. rewrite (Hin j c Hj).
    apply lookup_lt_Some in Hj.
    assert (E : (j <? k * size sh) = true) by (apply Nat.ltb_lt; nia).
    now rewrite E.
  - cbn [seq]. rewrite removed_loop_cons.
    rewrite (frame_ok video n sh k Hsv Hl) by lia.
    set (f := {| shape := sh; cells := take (size sh) (drop (k * size sh) (cells video)) |}).
    unfold zip_same. rewrite decide_True by (simpl; congruence).
    set (vals := zip_with (fun v b => fl32 (fl64 (v - b))%Q) (read sk f) (read sk bg)).
    assert (Hfin : ∀ j c, cells video !! j = Some c →
                     k * size sh ≤ j < (k + 1) * size sh →
                     cells f !! (j - k * size sh) = Some c).
    { intros j c Hj Hr. simpl. rewrite lookup_take_lt by lia.
      rewrite lookup_drop. rewrite <- Hj. f_equal. lia. }
    assert (Hfout : ∀ j c, cells video !! j = Some c →
                      ¬ (k * size sh ≤ j < (k + 1) * size sh) → c ∉ cells f).
    { intros j c Hj Hr Hc. simpl in Hc.
      apply elem_of_take in Hc as (j' & Hj' & Hlt). rewrite lookup_drop in Hj'.
      pose proof (NoDup_lookup _ _ _ _ Hnd Hj Hj'). lia. }
    apply (IH (S k) (write f vals sk)).
    + lia.
    + intros c Hc. simpl. rewrite write_cells_notin; [now apply Hout |].
      intros Hf. apply Hc. simpl in Hf.
      apply elem_of_take in Hf as (j' & Hj' & _). rewrite lookup_drop in Hj'.
      eapply list_elem_of_lookup_2; eassumption.
    + intros j c Hj.
      destruct (decide (k * size sh ≤ j < (k + 1) * size sh)) as [Hr|Hr].
      * assert (E : (j <? S k * size sh) = true) by (apply Nat.ltb_lt; lia).
        rewrite E.
        assert (Hb : is_Some (cells bg !! (j - k * size sh))).
        { apply lookup_lt_is_Some_2. lia. }
        destruct Hb as [b Hb].
        assert (Hmod : j mod size sh = j - k * size sh).
        { symmetry. apply (Nat.mod_unique j (size sh) k); lia. }
        simpl. apply (write_cells_lookup _ _ _ (j - k * size sh)).
        -- simpl. apply (sublist_NoDup _ (cells video)); [exact Hnd |].
           etrans; [apply sublist_take | apply sublist_drop].
        -- apply (Hfin j c Hj Hr).
        -- unfold vals, read. rewrite lookup_zip_with.
           rewrite !list_lookup_fmap, (Hfin j c Hj Hr), Hb. simpl.
           rewrite (Hin j c Hj).
           assert (E' : (j <? k * size sh) = false) by (apply Nat.ltb_ge; lia).
           rewrite E'. rewrite Hmod.
           rewrite (nth_lookup_Some (mem s <$> cells bg) (j - k * size sh) 0%Q (mem s b)).
           ++ rewrite (Hout b); [reflexivity |]. apply Hdisj.
              eapply list_elem_of_lookup_2; eassumption.
           ++ now rewrite list_lookup_fmap, Hb.
      * cbn [write mem]. rewrite write_cells_notin by (apply (Hfout j c Hj Hr)).
        rewrite (Hin j c Hj).
        assert (E : (j <? S k * size sh) = (j <? k * size sh)).
        { destruct (j <? k * size sh) eqn:E1.
          - apply Nat.ltb_lt in E1. apply Nat.ltb_lt. lia.
          - apply Nat.ltb_ge in E1. apply Nat.ltb_ge. lia. }
        now rewrite E.
Qed.

(** C9 (as amended). [get_video_removed] subtracts [bg] from every frame
    of the caller's [video] in place and returns that same array: after
    the call element [k] of [video] holds its old value minus the element
    of [bg] at the same position within the frame, and no cell outside
    [video] has changed.  [video] has three or more dimensions, [bg] the
    shape of one frame, and the two share no memory. *)
Theorem get_video_removed_in_place (s : store) (video bg : ndarray) (n : nat) (sh : list nat) :
  shape video = n :: sh → shape bg = sh → 2 ≤ length sh →
  wf video → wf bg → NoDup (cells video) →
  (∀ c, c ∈ cells bg → c ∉ cells video) →
  snd (get_video_removed video bg s) = Ok video ∧
  read (fst (get_video_removed video bg s)) video =
    imap (fun k v => fl32 (fl64 (v - nth (k mod size sh) (read s bg) 0))%Q) (read s video) ∧
  (∀ c, c ∉ cells video → mem (fst (get_video_removed video bg s)) c = mem s c).
Proof.
  intros Hsv Hsb Hl Hwv Hwb Hnd Hdisj.
  unfold wf in Hwv, Hwb. rewrite Hsv, size_cons in Hwv. rewrite Hsb in Hwb.
  destruct (removed_loop_spec s video bg n sh Hsv Hsb Hl Hwv Hwb Hnd Hdisj n 0 s eq_refl
              (fun c _ => eq_refl) (fun j c _ => eq_refl)) as (s' & Hloop & Hout & Hin).
  unfold get_video_removed. rewrite Hsv, Hloop. simpl.
  split; [reflexivity |]. split; [| exact Hout].
  apply list_eq. intros j. unfold read.
  rewrite list_lookup_imap, !list_lookup_fmap.
  destruct (cells video !! j) as [c|] eqn:Hj; [| reflexivity].
  simpl. f_equal. apply (Hin j c Hj).
Qed.

Lemma get_video_removed_in_place_witness :
  read (fst (get_video_removed (NdArray [1; 1; 1] [0]) (NdArray [1; 1] [1])
               (store_of [1; 1 # 2]%Q)))
       (NdArray [1; 1; 1] [0]) = [(1 # 2)%Q].
Proof.
  destruct (get_video_removed_in_place (store_of [1; 1 # 2]%Q) (NdArray [1; 1; 1] [0])
              (NdArray [1; 1] [1]) 1 [1; 1]) as (_ & H & _).
  - reflexivity.
  - reflexivity.
  - simpl. lia.
  - reflexivity.
  - reflexivity.
  - apply NoDup_singleton.
  - simpl. intros c Hc Hv.
    apply list_elem_of_singleton in Hc. apply list_elem_of_singleton in Hv. congruence.
  - rewrite H. reflexivity.
Defined.

Lemma get_video_removed_input_unchanged_counterexample :
  ¬ (∀ (s : store) (video bg : ndarray),
       read (fst (get_video_removed video bg s)) video = read s video).
Proof.
  intros H.
  specialize (H (store_of [1; 1 # 2]%Q) (NdArray [1; 1; 1] [0]) (NdArray [1; 1] [1])).
  vm_compute in H. discriminate H.
Qed.

(** ** The loaders *)

Lemma mapM_ext {A B} (f g : A -> result B) (l : list A) :
  (∀ x, x ∈ l → f x = g x) → mapM f l = mapM g l.
Proof.
  induction l as [|a l IH]; intros H; [reflexivity |].
  cbn [mapM]. rewrite (H a) by apply list_elem_of_here.
  rewrite IH; [reflexivity |]. intros x Hx. apply H. now apply list_elem_of_further.
Qed.

Lemma mapM_ok {A B} (f : A -> result B) (g : A -> B) (l : list A) :
  (∀ x, x ∈ l → f x = Ok (g x)) → mapM f l = Ok (g <$> l).
Proof.
  induction l as [|a l IH]; intros H; [reflexivity |].
  cbn [mapM]. rewrite (H a) by apply list_elem_of_here.
  rewrite IH; [reflexivity |]. intros x Hx. apply H. now apply list_elem_of_further.
Qed.

Lemma mapM_inv {A B} (f : A -> result B) (l : list A) :
  ∀ k, mapM f l = Ok k → Forall2 (fun x y => f x = Ok y) l k.
Proof.
  induction l as [|a l IH]; intros k H.
  - injection H as <-. constructor.
  - cbn [mapM] in H. destruct (f a) as [b|e] eqn:Ea; [| discriminate H].
    simpl in H. destruct (mapM f l) as [k'|e]; [| discriminate H].
    simpl in H. injection H as <-. constructor; [exact Ea | now apply IH].
Qed.

#[local] Instance str_le_total : Total str_le.
Proof.
  intros a b. unfold str_le. destruct (String.leb_total a b) as [H|H]; rewrite H; auto.
Qed.

Lemma sorted_sorted names : Sorted str_le (sorted names) ∧ sorted names ≡ₚ names.
Proof.
  split; [apply Sorted_merge_sort; apply _ | apply merge_sort_Permutation].
Qed.

(** *** The ground-truth loader (C2) *)

Lemma load_same fs fs' path :
  images fs !! path = images fs' !! path → load fs path = load fs' path.
Proof. unfold load, imread. now intros ->. Qed.

Lemma asarray_data imgs t :
  asarray imgs = Ok t → t_data t = concat (fst <$> imgs).
Proof.
  unfold asarray. destruct imgs as [|[row [h w]] imgs].
  - now intros [= <-].
  - destruct (forallb _ _); [| discriminate]. now intros [= <-].
Qed.

(** C2 (as amended). [get_gt_video] reads the pixel data of every file
    name in the intersection of the two listings from the ground-truth
    directory [SegTrackv2/GroundTruth/<object>/]: the frames it returns
    are the normalized images found there, and its result is the same on
    any two file systems that agree on the directory listings and on the
    files below [SegTrackv2/GroundTruth/], whatever the raw frames are. *)
Theorem get_gt_video_reads_ground_truth (fs : filesystem) (object : string) :
  (∀ fs', same_ground_truth fs fs' → get_gt_video fs object = get_gt_video fs' object) ∧
  (∀ (t : tensor) (jpeg_list gt_list : list string),
     dirs fs !! ("SegTrackv2/GroundTruth/" +:+ object) = Some jpeg_list →
     dirs fs !! ("SegTrackv2/JPEGImages/" +:+ object) = Some gt_list →
     get_gt_video fs object = Ok t →
     ∃ ims : list image,
       Forall2 (fun name im =>
                  images fs !! ("SegTrackv2/GroundTruth/" +:+ object +:+ "/" +:+ name) = Some im)
         (sorted (elements ((list_to_set (sorted jpeg_list) : gset string)
                            ∩ list_to_set (sorted gt_list))))
         ims ∧
       t_data t = concat ((fun im => normalize <$> im_px im) <$> ims)).
Proof.
  split.
  - intros fs' [Hd Hi]. unfold get_gt_video, listdir. rewrite Hd.
    destruct (dirs fs' !! _) as [jl|]; [| reflexivity]. simpl.
    destruct (dirs fs' !! _) as [gl|]; [| reflexivity]. simpl.
    erewrite mapM_ext; [reflexivity |].
    intros name _. apply load_same. apply (Hi (object +:+ "/" +:+ name)).
  - intros t jl gl Hj Hg. unfold get_gt_video, listdir. rewrite Hj, Hg. simpl.
    set (valid := sorted (elements _)).
    destruct (mapM _ valid) as [imgs|e] eqn:Em; [| discriminate]. simpl.
    intros Ht. apply asarray_data in Ht. apply mapM_inv in Em.
    clearbody valid. revert t Ht. induction Em as [|name img valid imgs Hl _ IH]; intros t Ht.
    + exists []. split; [constructor | exact Ht].
    + destruct (IH (Tensor [] (concat (fst <$> imgs))) eq_refl) as (ims & Hf & Hd).
      unfold load, imread in Hl.
      destruct (images fs !! _) as [im|] eqn:Ei; [| discriminate Hl].
      injection Hl as <-. exists (im :: ims). split.
      * constructor; assumption.
      * rewrite Ht, !fmap_cons. cbn [t_data concat fst] in Hd |- *. now rewrite Hd.
Qed.

Lemma get_gt_video_reads_ground_truth_witness :
  same_ground_truth example_fs example_fs_other_raw ∧
  get_gt_video example_fs "frog" = get_gt_video example_fs_other_raw "frog".
Proof.
  assert (H : same_ground_truth example_fs example_fs_other_raw).
  { split; [reflexivity |]. intros rest.
    unfold example_fs_other_raw. cbn [images].
    rewrite lookup_insert_ne; [reflexivity |]. simpl. discriminate. }
  split; [exact H |].
  apply (get_gt_video_reads_ground_truth example_fs "frog"). exact H.
Defined.

Lemma get_gt_video_raw_counterexample :
  ¬ (∀ (fs : filesystem) (object : string),
       get_gt_video fs object = get_gt_video_from_raw fs object).
Proof.
  intros H. specialize (H example_fs "frog"). vm_compute in H. discriminate H.
Qed.

(** *** Matrix layout of [get_video_dmd] (C7) *)

Lemma lookup_concat_uniform {A} (N : nat) (ls : list (list A)) :
  Forall (fun l => length l = N) ls →
  ∀ r i, i < N → concat ls !! (r * N + i) = ls !! r ≫= (fun l => l !! i).
Proof.
  induction 1 as [|l ls Hl _ IH]; intros r i Hi.
  - now rewrite lookup_nil.
  - cbn [concat]. destruct r as [|r].
    + simpl. apply lookup_app_l. lia.
    + rewrite lookup_app_r by (simpl; lia).
      replace (S r * N + i - length l) with (r * N + i) by (simpl; lia).
      now apply IH.
Qed.

Lemma fmap_nth_seq {A} (l : list A) (d : A) :
  (fun r => nth r l d) <$> seq 0 (length l) = l.
Proof.
  apply list_eq. intros i. rewrite list_lookup_fmap.
  destruct (decide (i < length l)) as [Hi|Hi].
  - rewrite lookup_seq_lt by exact Hi. simpl.
    destruct (lookup_lt_is_Some_2 l i Hi) as [x Hx].
    now rewrite Hx, (nth_lookup_Some l i d x Hx).
  - rewrite lookup_seq_ge by lia. simpl. symmetry. apply lookup_ge_None. lia.
Qed.

Lemma transpose_column (rows : list (list Q)) (L i : nat) (row : list Q) :
  Forall (fun r => length r = L) rows → rows !! i = Some row →
  column (transpose (Tensor [length rows; L] (concat rows))) i = row.
Proof.
  intros Hrows Hi. unfold transpose, column. cbn [t_shape t_data].
  assert (HL : length row = L).
  { rewrite Forall_lookup in Hrows. apply (Hrows i row Hi). }
  assert (HiN : i < length rows) by (eapply lookup_lt_Some; eassumption).
  rewrite <- (fmap_nth_seq row 0%Q) at 1. rewrite HL.
  apply list_fmap_ext. intros k r Hk.
  apply lookup_seq in Hk as [Hrk Hr]. simpl in Hrk. subst r.
  rewrite nth_lookup.
  rewrite (lookup_concat_uniform (length rows)).
  - rewrite list_lookup_fmap, lookup_seq_lt by exact Hr. simpl.
    rewrite list_lookup_fmap, lookup_seq_lt by exact HiN. simpl.
    rewrite !nth_lookup. rewrite (lookup_concat_uniform L _ Hrows i k Hr).
    now rewrite Hi.
  - apply Forall_fmap. apply Forall_forall. intros c _. unfold compose.
    now rewrite length_fmap, length_seq.
  - exact HiN.
Qed.

Lemma normalize_error (px : Z) :
  (0 <= px)%Z →
  (Qabs (normalize px - inject_Z px / 255) <= u32 * (inject_Z px / 255))%Q.
Proof.
  intros Hpx. unfold normalize, fl32, u32.
  assert (H0 : (0 <= inject_Z px / 255)%Q).
  { apply Qle_shift_div_l; [reflexivity |]. rewrite Qmult_0_l.
    change 0%Q with (inject_Z 0). now rewrite <- Zle_Qle. }
  pose proof (round_float_err 24 (inject_Z px / 255)) as H.
  rewrite (Qabs_pos _ H0) in H. rewrite Qmult_comm. exact H.
Qed.

Lemma vstack_ok (rows : list (list Q)) (L : nat) :
  rows ≠ [] → Forall (fun r => length r = L) rows →
  vstack rows = Ok (Tensor [length rows; L] (concat rows)).
Proof.
  intros Hne Hrows. unfold vstack. destruct rows as [|r rows]; [contradiction |].
  assert (Hr : length r = L) by (now inversion Hrows).
  rewrite Hr.
  assert (E : forallb (fun r' => length r' =? L) (r :: rows) = true).
  { apply forallb_forall. intros r' Hin. apply Nat.eqb_eq.
    rewrite Forall_forall in Hrows. apply Hrows. now apply list_elem_of_In. }
  now rewrite E.
Qed.

Lemma last_fmap_const {A B} (c : B) (l : list A) :
  l ≠ [] → last ((fun _ => c) <$> l) = Some c.
Proof.
  induction l as [|a [|b l] IH]; intros Hne; [contradiction | reflexivity |].
  rewrite fmap_cons. rewrite last_cons. rewrite IH by discriminate. reflexivity.
Qed.

(** C7. For a directory of [N >= 1] readable images of size [H] x [W],
    [get_video_dmd] without noise returns a matrix of shape [(H*W, N)]
    together with [(H, W)].  Column [i], whose row-major data is what
    reshaping to [(H, W)] keeps, holds the pixels of the [i]-th file in
    lexicographic order, each divided by 255 in float32, hence within the
    relative rounding error [2^-24] of the exact quotient. *)
Theorem get_video_dmd_matrix (fs : filesystem) (object : string) (noise_amt : Q)
    (draws : nat -> Q) (names : list string) (H W : nat) :
  dirs fs !! ("SegTrackv2/JPEGImages/" +:+ object) = Some names →
  names ≠ [] →
  (∀ name, name ∈ names →
     ∃ im, images fs !! ("SegTrackv2/JPEGImages/" +:+ object +:+ "/" +:+ name) = Some im ∧
           im_shape im = (H, W) ∧ wf_image im) →
  ∃ M : tensor,
    get_video_dmd fs object false noise_amt draws = Ok (M, Some (H, W)) ∧
    t_shape M = [H * W; length names] ∧
    Sorted str_le (sorted names) ∧ sorted names ≡ₚ names ∧
    ∀ (i : nat) (name : string) (im : image),
      sorted names !! i = Some name →
      images fs !! ("SegTrackv2/JPEGImages/" +:+ object +:+ "/" +:+ name) = Some im →
      column M i = normalize <$> im_px im ∧
      Forall2 (fun v px => Qabs (v - inject_Z px / 255) <= u32 * (inject_Z px / 255))%Q
              (column M i) (im_px im).
Proof.
  intros Hdir Hne Himg.
  destruct (sorted_sorted names) as [Hsorted Hperm].
  pose (path := fun name => "SegTrackv2/JPEGImages/" +:+ object +:+ "/" +:+ name).
  set (img_of := fun name => default (Image (0, 0) []) (images fs !! path name)).
  set (row := fun name => normalize <$> im_px (img_of name)).
  assert (Hin : ∀ name, name ∈ sorted names → name ∈ names).
  { intros name Hn. now rewrite <- Hperm. }
  assert (Hload : ∀ name, name ∈ sorted names → load fs (path name) = Ok (row name, (H, W))).
  { intros name Hn. destruct (Himg name (Hin name Hn)) as (im & Him & Hsh & _).
    unfold load, imread, row, img_of, path. rewrite Him. simpl. now rewrite Hsh. }
  assert (Hlen : length (sorted names) = length names) by now rewrite Hperm.
  assert (Hne' : sorted names ≠ []).
  { intros E. rewrite E in Hlen. destruct names; [contradiction | discriminate]. }
  assert (Hrows : Forall (fun r => length r = H * W) (row <$> sorted names)).
  { apply Forall_fmap. apply Forall_forall. intros name Hn. unfold compose.
    destruct (Himg name (Hin name Hn)) as (im & Him & Hsh & [Hwf _]).
    unfold row, img_of, path. rewrite Him. simpl. rewrite length_fmap, Hwf, Hsh. reflexivity. }
  assert (Hvs : vstack (row <$> sorted names) =
                Ok (Tensor [length names; H * W] (concat (row <$> sorted names)))).
  { rewrite (vstack_ok _ (H * W)); [| | exact Hrows].
    - now rewrite length_fmap, Hlen.
    - intros E. apply fmap_nil_inv in E. contradiction. }
  exists (transpose (Tensor [length names; H * W] (concat (row <$> sorted names)))).
  split; [| split; [reflexivity | split; [exact Hsorted | split; [exact Hperm |]]]].
  - unfold get_video_dmd, listdir. rewrite Hdir. simpl mbind.
    change (mapM _ (sorted names)) with (mapM (fun i => load fs (path i)) (sorted names)).
    rewrite (mapM_ok _ (fun name => (row name, (H, W))) _ Hload).
    cbn [mbind result_bind].
    rewrite <- !list_fmap_compose.
    change (fst ∘ _) with row. change (snd ∘ _) with (fun _ : string => (H, W)).
    rewrite Hvs. cbn [mbind result_bind mret result_ret].
    now rewrite last_fmap_const.
  - intros i name im Hi Him.
    assert (Hrow : row name = normalize <$> im_px im).
    { unfold row, img_of, path. now rewrite Him. }
    assert (Hcol : column (transpose (Tensor [length names; H * W]
                                        (concat (row <$> sorted names)))) i = row name).
    { rewrite <- Hlen, <- (length_fmap row).
      apply (transpose_column _ (H * W) i (row name) Hrows).
      now rewrite list_lookup_fmap, Hi. }
    rewrite Hcol, Hrow. split; [reflexivity |].
    apply Forall2_fmap_l. apply Forall_Forall2_diag.
    assert (Hn : name ∈ names) by (apply Hin; eapply list_elem_of_lookup_2; eassumption).
    destruct (Himg name Hn) as (im' & Him' & _ & [_ Hpx]).
    rewrite Him in Him'. injection Him' as <-.
    eapply Forall_impl; [exact Hpx |]. intros px [Hpos _]. unfold compose.
    now apply normalize_error.
Qed.

Lemma get_video_dmd_matrix_witness :
  ∃ M : tensor,
    get_video_dmd example_fs "frog" false 0 (fun _ => 0%Q) = Ok (M, Some (1, 2)) ∧
    t_shape M = [2; 2].
Proof.
  destruct (get_video_dmd_matrix example_fs "frog" 0 (fun _ => 0%Q) ["b.png"; "a.png"] 1 2)
    as (M & HM & Hsh & _).
  - reflexivity.
  - discriminate.
  - intros name Hn.
    apply elem_of_cons in Hn as [->|Hn]; [| apply elem_of_cons in Hn as [->|Hn]].
    + exists (Image (1, 2) [51; 1]%Z). split; [reflexivity |]. split; [reflexivity |].
      split; [reflexivity |]. repeat (constructor; [lia |]). constructor.
    + exists (Image (1, 2) [0; 255]%Z). split; [reflexivity |]. split; [reflexivity |].
      split; [reflexivity |]. repeat (constructor; [lia |]). constructor.
    + inversion Hn.
  - exists M. split; [exact HM | exact Hsh].
Defined.

(** *** Noise injection (C1) *)

(** C1 (defect of the code). With the noise flag set [get_video_dmd]
    computes the noisy, clipped matrix and then returns a freshly stacked
    noise-free one: the call returns what the call without noise returns
    (or the error of a negative [noise_amt]).  On the example data the
    matrix it returns differs from the noisy, clipped matrix the
    specification promises. *)
Theorem get_video_dmd_drops_noise :
  (∀ (fs : filesystem) (object : string) (noise_amt : Q) (draws : nat -> Q),
     get_video_dmd fs object true noise_amt draws =
     match get_video_dmd fs object false noise_amt draws with
     | Ok r => if Qltb noise_amt 0 then Raise ValueError else Ok r
     | Raise e => Raise e
     end) ∧
  (∃ M vid : tensor,
     get_video_dmd example_fs "frog" true (1 # 2) (fun _ => 1%Q) = Ok (M, Some (1, 2)) ∧
     add_noise (1 # 2) (fun _ => 1%Q) M = Ok vid ∧
     t_data M = [0; 13421773 # 67108864; 1; 8421505 # 2147483648]%Q ∧
     t_data vid = [1 # 2; 11744051 # 16777216; 1; 8454401 # 16777216]%Q).
Proof.
  split.
  - intros fs object noise_amt draws. unfold get_video_dmd.
    destruct (listdir fs _) as [names|e]; [| reflexivity]. cbn [mbind result_bind].
    destruct (mapM _ (sorted names)) as [loaded|e]; [| reflexivity]. cbn [mbind result_bind].
    destruct (vstack (fst <$> loaded)) as [vid|e]; [| reflexivity].
    cbn [mbind result_bind mret result_ret].
    unfold add_noise. destruct (Qltb noise_amt 0); reflexivity.
  - eexists _, _. split; [vm_compute; reflexivity |].
    split; [vm_compute; reflexivity |]. split; reflexivity.
Qed.

(** ** F1 score (C5) *)

(** Error analysis of the perfect-prediction case for an arithmetic whose
    roundings have relative error at most [u]: [a] is the number of
    positive entries, at least [a0], and [k] bounds [E / a0]. *)
Section F1Analysis.
#[local] Open Scope Q_scope.
Variables (u E t a0 k : Q) (rnd : Q -> Q).
Hypothesis Hu : 0 < u < 1.
Hypothesis HE : 0 < E.
Hypothesis Ha0 : 1 <= a0.
Hypothesis Hk : 0 <= k /\ E <= a0 * k.
Hypothesis Ht : 0 <= t <= 1.
Hypothesis Hrnd : forall x, 0 <= x -> x * (1 - u) <= rnd x <= x * (1 + u).
Hypothesis Hlo : forall p,
  1 - u <= p * ((1 + k) * (1 + u)) ->
  (1 - t) * (((p * (1 + u) + p) * (1 + u) + E) * (1 + u)) <=
  2 * (p * p * (1 - u)) * (1 - u) * (1 - u).
Hypothesis Hhi : forall p,
  1 - u <= p * ((1 + k) * (1 + u)) -> p * (1 - u) <= 1 + u ->
  2 * (p * p * (1 + u)) * (1 + u) * (1 + u) <=
  (1 + t) * (((p * (1 - u) + p) * (1 - u) + E) * (1 - u)).

Lemma rnd_between x lo hi :
  0 <= lo -> lo <= x -> x <= hi -> lo * (1 - u) <= rnd x /\ rnd x <= hi * (1 + u).
Proof.
  intros H0 H1 H2. destruct (Hrnd x) as [Ha Hb]; [lra |]. split.
  - apply Qle_trans with (x * (1 - u)); [| exact Ha].
    apply Qmult_le_compat_r; lra.
  - apply Qle_trans with (x * (1 + u)); [exact Hb |].
    apply Qmult_le_compat_r; lra.
Qed.

Lemma f1_precision a :
  a0 <= a ->
  let p := rnd (a / rnd (a + E)) in
  1 - u <= p * ((1 + k) * (1 + u)) /\ p * (1 - u) <= 1 + u /\ 0 < p.
Proof.
  intros Ha. cbv zeta.
  destruct (Hrnd (a + E)) as [Hd1 Hd2]; [lra |].
  set (d := rnd (a + E)) in *.
  assert (Hd0 : 0 < d).
  { assert (0 < (a + E) * (1 - u)) by (apply Qmult_lt_0_compat; lra). lra. }
  assert (Hx : a / d * d == a) by (field; lra).
  assert (Hx0 : 0 < a / d) by (apply Qlt_shift_div_l; lra).
  set (x := a / d) in *.
  destruct (Hrnd x) as [Hp1 Hp2]; [lra |].
  set (p := rnd x) in *.
  assert (HaE : a + E <= a * (1 + k)).
  { assert (a0 * k <= a * k) by (apply Qmult_le_compat_r; lra). lra. }
  assert (Hx1 : 1 <= x * ((1 + k) * (1 + u))).
  { assert (S1 : x * d <= x * ((a + E) * (1 + u))) by (apply Qmult_le_l; lra).
    assert (S2 : (a + E) * (1 + u) <= a * (1 + k) * (1 + u))
      by (apply Qmult_le_compat_r; lra).
    assert (S3 : x * ((a + E) * (1 + u)) <= x * (a * (1 + k) * (1 + u)))
      by (apply Qmult_le_l; lra).
    assert (S4 : a * 1 <= a * (x * ((1 + k) * (1 + u)))) by lra.
    apply Qmult_le_l in S4; lra. }
  assert (Hx2 : x * (1 - u) <= 1).
  { assert (S1 : x * ((a + E) * (1 - u)) <= x * d) by (apply Qmult_le_l; lra).
    assert (S2 : a * (1 - u) <= (a + E) * (1 - u)) by (apply Qmult_le_compat_r; lra).
    assert (S3 : x * (a * (1 - u)) <= x * ((a + E) * (1 - u)))
      by (apply Qmult_le_l; lra).
    assert (S4 : a * (x * (1 - u)) <= a * 1) by lra.
    apply Qmult_le_l in S4; lra. }
  assert (Hpos : 0 < (1 + k) * (1 + u)) by (apply Qmult_lt_0_compat; lra).
  split; [| split].
  - assert (S1 : (1 - u) * 1 <= (1 - u) * (x * ((1 + k) * (1 + u))))
      by (apply Qmult_le_l; lra).
    assert (S2 : x * (1 - u) * ((1 + k) * (1 + u)) <= p * ((1 + k) * (1 + u)))
      by (apply Qmult_le_compat_r; lra).
    lra.
  - assert (S1 : p * (1 - u) <= x * (1 + u) * (1 - u)) by (apply Qmult_le_compat_r; lra).
    assert (S2 : (1 + u) * (x * (1 - u)) <= (1 + u) * 1) by (apply Qmult_le_l; lra).
    lra.
  - assert (0 < x * (1 - u)) by (apply Qmult_lt_0_compat; lra). lra.
Qed.

Lemma f1_chain a :
  a0 <= a ->
  let p := rnd (a / rnd (a + E)) in
  let f1 := rnd (2 * rnd (p * p)) in
  let den := rnd (rnd (rnd (1 * p) + p) + E) in
  1 - t <= rnd (f1 / den) <= 1 + t.
Proof.
  intros Ha. destruct (f1_precision a Ha) as (P1 & P2 & Hp0). cbv zeta in *.
  set (p := rnd (a / rnd (a + E))) in *.
  specialize (Hlo p P1). specialize (Hhi p P1 P2).
  assert (Hpp : 0 < p * p) by (apply Qmult_lt_0_compat; lra).
  assert (Hppl : 0 < p * p * (1 - u)) by (apply Qmult_lt_0_compat; lra).
  destruct (rnd_between (p * p) (p * p) (p * p)) as [Hq1 Hq2]; try lra.
  set (q := rnd (p * p)) in *.
  destruct (rnd_between (2 * q) (2 * (p * p * (1 - u))) (2 * (p * p * (1 + u))))
    as [Hf1 Hf2]; try lra.
  set (f1 := rnd (2 * q)) in *.
  assert (Hpl : 0 < p * (1 - u)) by (apply Qmult_lt_0_compat; lra).
  destruct (rnd_between (1 * p) p p) as [Hs1 Hs2]; try lra.
  set (s1 := rnd (1 * p)) in *.
  destruct (rnd_between (s1 + p) (p * (1 - u) + p) (p * (1 + u) + p)) as [Ht1 Ht2]; try lra.
  set (s2 := rnd (s1 + p)) in *.
  assert (Hs2l : 0 < (p * (1 - u) + p) * (1 - u)) by (apply Qmult_lt_0_compat; lra).
  destruct (rnd_between (s2 + E) ((p * (1 - u) + p) * (1 - u) + E)
              ((p * (1 + u) + p) * (1 + u) + E)) as [He1 He2]; try lra.
  set (den := rnd (s2 + E)) in *.
  assert (Hdl : 0 < ((p * (1 - u) + p) * (1 - u) + E) * (1 - u))
    by (apply Qmult_lt_0_compat; lra).
  assert (Hden0 : 0 < den) by lra.
  assert (Hfl : 0 < 2 * (p * p * (1 - u)) * (1 - u)).
  { apply Qmult_lt_0_compat; lra. }
  assert (Hf0 : 0 < f1) by lra.
  assert (Hy : f1 / den * den == f1) by (field; lra).
  assert (Hy0 : 0 < f1 / den) by (apply Qlt_shift_div_l; lra).
  set (y := f1 / den) in *.
  destruct (Hrnd y) as [HR1 HR2]; [lra |].
  split.
  - apply Qle_trans with (y * (1 - u)); [| exact HR1].
    apply (Qmult_le_r _ _ den Hden0).
    assert (S1 : (1 - t) * den <= (1 - t) * (((p * (1 + u) + p) * (1 + u) + E) * (1 + u))).
    { destruct (Qlt_le_dec 0 (1 - t)) as [H|H].
      - apply Qmult_le_l; lra.
      - assert (1 - t == 0) by lra. nra. }
    assert (S2 : 2 * (p * p * (1 - u)) * (1 - u) * (1 - u) <= f1 * (1 - u))
      by (apply Qmult_le_compat_r; lra).
    assert (S3 : y * (1 - u) * den == f1 * (1 - u)) by (rewrite <- Hy; ring).
    lra.
  - apply Qle_trans with (y * (1 + u)); [exact HR2 |].
    apply (Qmult_le_r _ _ den Hden0).
    assert (S1 : (1 + t) * (((p * (1 - u) + p) * (1 - u) + E) * (1 - u)) <= (1 + t) * den)
      by (apply Qmult_le_l; lra).
    assert (S2 : f1 * (1 + u) <= 2 * (p * p * (1 + u)) * (1 + u) * (1 + u))
      by (apply Qmult_le_compat_r; lra).
    assert (S3 : y * (1 + u) * den == f1 * (1 + u)) by (rewrite <- Hy; ring).
    lra.
Qed.
End F1Analysis.

Section F1Bounds.
#[local] Open Scope Q_scope.

Lemma closed_le (x y : Q) : Qle_bool x y = true -> x <= y.
Proof. apply Qle_bool_iff. Qed.

Lemma closed_lt (x y : Q) : Qle_bool y x = false -> x < y.
Proof.
  intros H. apply Qnot_le_lt. intros Hle. apply Qle_bool_iff in Hle. congruence.
Qed.

Lemma quad_from (c2 c1 c0 pl p : Q) :
  0 <= c2 -> pl <= p -> 0 <= 2 * c2 * pl - c1 -> 0 <= c2 * pl * pl - c1 * pl - c0 ->
  0 <= c2 * p * p - c1 * p - c0.
Proof.
  intros H2 Hp H1 H0.
  assert (Ha : 0 <= c2 * ((p - pl) * (p - pl))).
  { apply Qmult_le_0_compat; [exact H2 |]. nra. }
  assert (Hb : 0 <= (2 * c2 * pl - c1) * (p - pl)) by (apply Qmult_le_0_compat; lra).
  lra.
Qed.

Lemma lin_from (d2 d1 d0 ph p : Q) :
  0 <= d2 -> 0 <= p -> p <= ph -> 0 <= d1 - d2 * ph -> 0 <= d0 ->
  0 <= - d2 * p * p + d1 * p + d0.
Proof.
  intros H2 Hp0 Hp H1 H0.
  assert (Ha : 0 <= d2 * p * (ph - p)).
  { apply Qmult_le_0_compat; [| lra]. apply Qmult_le_0_compat; lra. }
  assert (Hb : 0 <= (d1 - d2 * ph) * p) by (apply Qmult_le_0_compat; lra).
  lra.
Qed.

Lemma f1_lo_bound (k t p : Q) :
  0 < 1 + k ->
  0 <= 2 * (2 * ((1 - u64r) * (1 - u64r) * (1 - u64r))) * ((1 - u64r) / ((1 + k) * (1 + u64r)))
       - (1 - t) * ((2 + u64r) * ((1 + u64r) * (1 + u64r))) ->
  0 <= 2 * ((1 - u64r) * (1 - u64r) * (1 - u64r)) * ((1 - u64r) / ((1 + k) * (1 + u64r)))
         * ((1 - u64r) / ((1 + k) * (1 + u64r)))
       - (1 - t) * ((2 + u64r) * ((1 + u64r) * (1 + u64r))) * ((1 - u64r) / ((1 + k) * (1 + u64r)))
       - (1 - t) * ((1 + u64r) * epsilon) ->
  1 - u64r <= p * ((1 + k) * (1 + u64r)) ->
  (1 - t) * (((p * (1 + u64r) + p) * (1 + u64r) + epsilon) * (1 + u64r)) <=
  2 * (p * p * (1 - u64r)) * (1 - u64r) * (1 - u64r).
Proof.
  intros Hk K1 K0 P1.
  assert (Hu : 0 < u64r < 1) by (split; apply closed_lt; vm_compute; reflexivity).
  assert (Hpos : 0 < (1 + k) * (1 + u64r)) by (apply Qmult_lt_0_compat; lra).
  assert (Hpl : (1 - u64r) / ((1 + k) * (1 + u64r)) <= p) by (apply Qle_shift_div_r; lra).
  assert (H2 : 0 <= 2 * ((1 - u64r) * (1 - u64r) * (1 - u64r))).
  { apply Qmult_le_0_compat; [lra |]. apply Qmult_le_0_compat; [| lra].
    apply Qmult_le_0_compat; lra. }
  pose proof (quad_from _ _ _ _ p H2 Hpl K1 K0) as H.
  generalize dependent ((1 - u64r) / ((1 + k) * (1 + u64r))). intros. lra.
Qed.

Lemma f1_hi_bound (t p : Q) :
  0 <= (1 + t) * ((2 - u64r) * ((1 - u64r) * (1 - u64r)))
       - 2 * ((1 + u64r) * (1 + u64r) * (1 + u64r)) * ((1 + u64r) / (1 - u64r)) ->
  0 <= (1 + t) * ((1 - u64r) * epsilon) ->
  0 <= p -> p * (1 - u64r) <= 1 + u64r ->
  2 * (p * p * (1 + u64r)) * (1 + u64r) * (1 + u64r) <=
  (1 + t) * (((p * (1 - u64r) + p) * (1 - u64r) + epsilon) * (1 - u64r)).
Proof.
  intros K1 K0 Hp0 P2.
  assert (Hu : 0 < u64r < 1) by (split; apply closed_lt; vm_compute; reflexivity).
  assert (Hph : p <= (1 + u64r) / (1 - u64r)) by (apply Qle_shift_div_l; lra).
  assert (H2 : 0 <= 2 * ((1 + u64r) * (1 + u64r) * (1 + u64r))).
  { apply Qmult_le_0_compat; [lra |]. apply Qmult_le_0_compat; [| lra].
    apply Qmult_le_0_compat; lra. }
  pose proof (lin_from _ _ _ _ p H2 Hp0 Hph K1 K0) as H.
  generalize dependent ((1 + u64r) / (1 - u64r)). intros. lra.
Qed.

Lemma f1_perfect_3half (a : Q) :
  1 <= a ->
  let p := fl64 (a / fl64 (a + epsilon)) in
  let f1 := fl64 (2 * fl64 (p * p)) in
  let den := fl64 (fl64 (fl64 (1 * p) + p) + epsilon) in
  1 - (3 # 2) * eps_dec <= fl64 (f1 / den) <= 1 + (3 # 2) * eps_dec.
Proof.
  apply (f1_chain u64r epsilon ((3 # 2) * eps_dec) 1 epsilon fl64).
  - split; apply closed_lt; vm_compute; reflexivity.
  - apply closed_lt; vm_compute; reflexivity.
  - apply closed_le; vm_compute; reflexivity.
  - split; apply closed_le; vm_compute; reflexivity.
  - split; apply closed_le; vm_compute; reflexivity.
  - apply fl64_rel.
  - intros p P1. apply (f1_lo_bound epsilon); [| | | exact P1];
      [apply closed_lt | apply closed_le | apply closed_le]; vm_compute; reflexivity.
  - intros p P1 P2. apply f1_hi_bound; [| | | exact P2];
      try (apply closed_le; vm_compute; reflexivity).
    assert (Hpos : 0 < (1 + epsilon) * (1 + u64r)) by (apply closed_lt; vm_compute; reflexivity).
    assert (Hu : 0 < 1 - u64r) by (apply closed_lt; vm_compute; reflexivity).
    apply Qlt_le_weak. apply (Qmult_lt_r _ _ _ Hpos). lra.
Qed.
Lemma f1_perfect_eps (a : Q) :
  2 <= a ->
  let p := fl64 (a / fl64 (a + epsilon)) in
  let f1 := fl64 (2 * fl64 (p * p)) in
  let den := fl64 (fl64 (fl64 (1 * p) + p) + epsilon) in
  1 - eps_dec <= fl64 (f1 / den) <= 1 + eps_dec.
Proof.
  apply (f1_chain u64r epsilon eps_dec 2 (epsilon / 2) fl64).
  - split; apply closed_lt; vm_compute; reflexivity.
  - apply closed_lt; vm_compute; reflexivity.
  - apply closed_le; vm_compute; reflexivity.
  - split; apply closed_le; vm_compute; reflexivity.
  - split; apply closed_le; vm_compute; reflexivity.
  - apply fl64_rel.
  - intros p P1. apply (f1_lo_bound (epsilon / 2)); [| | | exact P1];
      [apply closed_lt | apply closed_le | apply closed_le]; vm_compute; reflexivity.
  - intros p P1 P2. apply f1_hi_bound; [| | | exact P2];
      try (apply closed_le; vm_compute; reflexivity).
    assert (Hpos : 0 < (1 + epsilon / 2) * (1 + u64r))
      by (apply closed_lt; vm_compute; reflexivity).
    assert (Hu : 0 < 1 - u64r) by (apply closed_lt; vm_compute; reflexivity).
    apply Qlt_le_weak. apply (Qmult_lt_r _ _ _ Hpos). lra.
Qed.
End F1Bounds.

(** *** The counts of [f1_score] *)

Lemma sum_binary_bounds (y : list Z) :
  Forall (fun v => v = 0 ∨ v = 1)%Z y →
  (0 <= foldr Z.add 0 y <= Z.of_nat (length y))%Z.
Proof.
  induction 1 as [|v y Hv _ IH]; simpl; [lia |]. destruct Hv; subst; lia.
Qed.

Lemma sum_binary_pos (y : list Z) :
  Forall (fun v => v = 0 ∨ v = 1)%Z y → Exists (fun v => v = 1%Z) y →
  (1 <= foldr Z.add 0 y)%Z.
Proof.
  intros Hb Hex. induction Hex as [v y Hv | v y _ IH]; simpl;
    apply Forall_cons in Hb as [Hv' Hb]; pose proof (sum_binary_bounds y Hb).
  - lia.
  - specialize (IH Hb). destruct Hv'; subst; lia.
Qed.

Lemma zip_mul8_diag (y : list Z) :
  Forall (fun v => v = 0 ∨ v = 1)%Z y →
  zip_with (fun a b => u8 (a * b)) y y = y.
Proof.
  induction 1 as [|v y Hv _ IH]; [reflexivity |]. cbn [zip_with]. rewrite IH.
  f_equal. destruct Hv; subst; reflexivity.
Qed.

Lemma zip_mul8_not_l (y : list Z) :
  Forall (fun v => v = 0 ∨ v = 1)%Z y →
  zip_with (fun a b => u8 (a * b)) ((fun v => u8 (1 - v)) <$> y) y = (fun _ => 0%Z) <$> y.
Proof.
  induction 1 as [|v y Hv _ IH]; [reflexivity |]. rewrite !fmap_cons. cbn [zip_with].
  rewrite IH. f_equal. destruct Hv; subst; reflexivity.
Qed.

Lemma zip_mul8_not_r (y : list Z) :
  Forall (fun v => v = 0 ∨ v = 1)%Z y →
  zip_with (fun a b => u8 (a * b)) y ((fun v => u8 (1 - v)) <$> y) = (fun _ => 0%Z) <$> y.
Proof.
  induction 1 as [|v y Hv _ IH]; [reflexivity |]. rewrite !fmap_cons. cbn [zip_with].
  rewrite IH. f_equal. destruct Hv; subst; reflexivity.
Qed.

Lemma zip_mul8_zero_r (y : list Z) :
  zip_with (fun a b => u8 (a * b)) y (replicate (length y) 0%Z) = (fun _ => 0%Z) <$> y.
Proof.
  induction y as [|v y IH]; [reflexivity |]. simpl length. cbn [replicate zip_with].
  rewrite IH, fmap_cons. f_equal. rewrite Z.mul_0_r. reflexivity.
Qed.

Lemma sum_u8_zero {A} (y : list A) : sum_u8 ((fun _ => 0%Z) <$> y) = 0%Z.
Proof.
  unfold sum_u8. assert (E : foldr Z.add 0%Z ((fun _ => 0%Z) <$> y) = 0%Z).
  { induction y as [|v y IH]; [reflexivity |]. rewrite fmap_cons. simpl. exact IH. }
  now rewrite E.
Qed.


Lemma f1_score_perfect_value (y : list Z) :
  Forall (fun v => v = 0 ∨ v = 1)%Z y → Exists (fun v => v = 1%Z) y →
  (Z.of_nat (length y) < 2 ^ 64)%Z →
  f1_score y y 1 =
  let a := of_int64 (foldr Z.add 0%Z y) in
  let p := fl64 (a / fl64 (a + epsilon)) in
  let f1 := fl64 (2 * fl64 (p * p)) in
  let den := fl64 (fl64 (fl64 (1 * p) + p) + epsilon) in
  Ok (fl64 (f1 / den)).
Proof.
  intros Hb Hex Hlen.
  pose proof (sum_binary_bounds y Hb) as [_ Hhi].
  pose proof (sum_binary_pos y Hb Hex) as Hlo.
  unfold f1_score, zip_same. rewrite !decide_True by reflexivity.
  cbv zeta. cbn [mbind result_bind mret result_ret].
  rewrite (zip_mul8_diag y Hb), (zip_mul8_not_l y Hb), (zip_mul8_not_r y Hb).
  rewrite !sum_u8_zero.
  assert (Es : sum_u8 y = foldr Z.add 0%Z y).
  { unfold sum_u8, u64. apply Z.mod_small. lia. }
  rewrite Es, Z.add_0_r.
  assert (Eu : u64 (foldr Z.add 0%Z y) = foldr Z.add 0%Z y).
  { unfold u64. apply Z.mod_small. lia. }
  rewrite Eu.
  change (of_int64 (1 + 1 ^ 2)) with (of_int64 2). change (of_int64 (1 ^ 2)) with (of_int64 1).
  assert (E2 : of_int64 2 = 2%Q) by (vm_compute; reflexivity).
  assert (E1 : of_int64 1 = 1%Q) by (vm_compute; reflexivity).
  rewrite E2, E1. reflexivity.
Qed.

(** C5 (as amended). For a binary array [y] with a positive entry
    [f1_score(y, y)] is within [1.5e-7] of 1, and within [1e-7] as soon
    as [y] has two positive entries; against an all-zero prediction
    [f1_score] is exactly 0. *)
Theorem f1_score_tolerance :
  (∀ y : list Z,
     Forall (fun v => v = 0 ∨ v = 1)%Z y → Exists (fun v => v = 1%Z) y →
     (Z.of_nat (length y) < 2 ^ 64)%Z →
     ∃ r : Q,
       f1_score y y 1 = Ok r ∧
       (Qabs (r - 1) <= (3 # 2) * eps_dec)%Q ∧
       ((2 <= foldr Z.add 0 y)%Z → (Qabs (r - 1) <= eps_dec)%Q)) ∧
  (∀ y_true : list Z, f1_score y_true (replicate (length y_true) 0%Z) 1 = Ok 0%Q).
Proof.
  split.
  - intros y Hb Hex Hlen. rewrite (f1_score_perfect_value y Hb Hex Hlen). cbv zeta.
    eexists. split; [reflexivity |].
    pose proof (sum_binary_pos y Hb Hex) as Hpos.
    split.
    + apply Qabs_Qle_condition.
      assert (Hp0 : (0 < foldr Z.add 0 y)%Z) by lia.
      pose proof (f1_perfect_3half _ (of_int64_pos _ Hp0)) as H. cbv zeta in H.
      destruct H as [H1 H2]. split; lra.
    + intros H2p. apply Qabs_Qle_condition.
      assert (Ha : (2 <= of_int64 (foldr Z.add 0%Z y))%Q).
      { assert (E2 : of_int64 2 = 2%Q) by (vm_compute; reflexivity).
        rewrite <- E2. now apply of_int64_mono. }
      pose proof (f1_perfect_eps _ Ha) as H. cbv zeta in H.
      destruct H as [H1 H2]. split; lra.
  - intros y. unfold f1_score, zip_same.
    rewrite !decide_True by (now rewrite length_replicate).
    cbv zeta. cbn [mbind result_bind mret result_ret].
    rewrite zip_mul8_zero_r, sum_u8_zero.
    rewrite !fdiv64_zero. reflexivity.
Qed.

Lemma f1_score_tolerance_witness :
  ∃ r : Q, f1_score [1; 0; 1]%Z [1; 0; 1]%Z 1 = Ok r ∧ (Qabs (r - 1) <= eps_dec)%Q.
Proof.
  destruct f1_score_tolerance as [H _].
  destruct (H [1; 0; 1]%Z) as (r & Hr & _ & Hb).
  - repeat (constructor; [lia |]). constructor.
  - apply Exists_cons_hd. reflexivity.
  - reflexivity.
  - exists r. split; [exact Hr |]. apply Hb. simpl. lia.
Defined.

Lemma f1_score_epsilon_counterexample :
  ¬ (∀ (y : list Z) (r : Q),
       Forall (fun v => v = 0 ∨ v = 1)%Z y → Exists (fun v => v = 1%Z) y →
       f1_score y y 1 = Ok r → (Qabs (r - 1) <= eps_dec)%Q).
Proof.
  intros H.
  specialize (H [1%Z] (9007197903661215 # 9007199254740992)%Q).
  assert (Hr : (Qabs ((9007197903661215 # 9007199254740992) - 1) <= eps_dec)%Q).
  { apply H.
    - constructor; [right; reflexivity | constructor].
    - apply Exists_cons_hd. reflexivity.
    - vm_compute. reflexivity. }
  vm_compute in Hr. apply Hr. reflexivity.
Qed.

(* ================================================================= *)
(** * Part III: further properties of the helpers and of the cells *)
(* ================================================================= *)

(** ** Pixel normalization *)

Lemma normalize_steps :
  forallb (fun i => Qltb (normalize (Z.of_nat i)) (normalize (Z.of_nat i + 1))) (seq 0 255) = true.
Proof. vm_compute. reflexivity. Qed.

Lemma normalize_step (a : Z) : (0 <= a < 255)%Z → (normalize a < normalize (a + 1))%Q.
Proof.
  intros Ha. pose proof normalize_steps as H.
  rewrite forallb_forall in H.
  specialize (H (Z.to_nat a)). rewrite Z2Nat.id in H by lia.
  apply Qltb_spec. apply H. apply in_seq. lia.
Qed.

Lemma normalize_lt (a b : Z) : (0 <= a < b)%Z → (b <= 255)%Z → (normalize a < normalize b)%Q.
Proof.
  intros Hab Hb.
  assert (H : ∀ d : nat, (a + Z.of_nat d < 255)%Z →
                         (normalize a < normalize (a + Z.of_nat d + 1))%Q).
  { induction d as [|d IH]; intros Hd.
    - rewrite Z.add_0_r. apply normalize_step. lia.
    - eapply Qlt_trans; [apply IH; lia |].
      replace (a + Z.of_nat (S d))%Z with (a + Z.of_nat d + 1)%Z by lia.
      apply normalize_step. lia. }
  specialize (H (Z.to_nat (b - a - 1))).
  rewrite Z2Nat.id in H by lia.
  replace (a + (b - a - 1) + 1)%Z with b in H by lia. apply H. lia.
Qed.

(** X1. Normalization of a pixel, [astype(np.float32) / 255]: 0 becomes
    0.0 and 255 becomes 1.0 exactly, and the map is strictly increasing on
    the gray levels, so every loaded value lies in [[0, 1]] and different
    gray levels stay different. *)
Theorem normalize_pixels :
  normalize 0 = 0%Q ∧ normalize 255 = 1%Q ∧
  ∀ a b : Z, (0 <= a < b)%Z → (b <= 255)%Z →
             (0 <= normalize a)%Q ∧ (normalize a < normalize b)%Q ∧ (normalize b <= 1)%Q.
Proof.
  split; [reflexivity |]. split; [reflexivity |].
  intros a b Hab Hb.
  assert (H0 : normalize 0 = 0%Q) by reflexivity.
  assert (H1 : normalize 255 = 1%Q) by reflexivity.
  split; [| split].
  - destruct (decide (a = 0%Z)) as [->|Hne]; [rewrite H0; apply Qle_refl |].
    apply Qlt_le_weak. rewrite <- H0. apply normalize_lt; lia.
  - now apply normalize_lt.
  - destruct (decide (b = 255%Z)) as [->|Hne]; [rewrite H1; apply Qle_refl |].
    apply Qlt_le_weak. rewrite <- H1. apply normalize_lt; lia.
Qed.

Lemma normalize_pixels_witness :
  (normalize 0 < normalize 255)%Q.
Proof.
  destruct normalize_pixels as (_ & _ & H).
  destruct (H 0%Z 255%Z) as (_ & Hlt & _); [lia | lia | exact Hlt].
Defined.

Lemma normalize_range (px : Z) : (0 <= px < 256)%Z → (0 <= normalize px <= 1)%Q.
Proof.
  intros Hpx.
  assert (H0 : normalize 0 = 0%Q) by reflexivity.
  assert (H1 : normalize 255 = 1%Q) by reflexivity.
  split.
  - destruct (decide (px = 0%Z)) as [->|Hne]; [rewrite H0; apply Qle_refl |].
    apply Qlt_le_weak. rewrite <- H0. apply normalize_lt; lia.
  - destruct (decide (px = 255%Z)) as [->|Hne]; [rewrite H1; apply Qle_refl |].
    apply Qlt_le_weak. rewrite <- H1. apply normalize_lt; lia.
Qed.

(** ** The frame tensor of [get_video] *)

Lemma asarray_ok (imgs : list (list Q * (nat * nat))) (h w : nat) :
  imgs ≠ [] → Forall (fun im => im.2 = (h, w)) imgs →
  asarray imgs = Ok (Tensor [length imgs; h; w] (concat (imgs.*1))).
Proof.
  intros Hne Hall. unfold asarray. destruct imgs as [|[d [h' w']] imgs]; [contradiction |].
  assert (E : (h', w') = (h, w)) by (now inversion Hall).
  injection E as -> ->.
  assert (Hb : forallb (fun im : list Q * (nat * nat) => bool_decide (im.2 = (h, w)))
                       ((d, (h, w)) :: imgs) = true).
  { apply forallb_forall. intros im Hin. apply bool_decide_eq_true.
    rewrite Forall_forall in Hall. apply Hall. now apply list_elem_of_In. }
  now rewrite Hb.
Qed.

Lemma take_drop_concat {A} (N : nat) (ls : list (list A)) :
  Forall (fun l => length l = N) ls →
  ∀ i l, ls !! i = Some l → take N (drop (i * N) (concat ls)) = l.
Proof.
  induction 1 as [|l0 ls Hl _ IH]; intros i l Hi; [now rewrite lookup_nil in Hi |].
  cbn [concat]. destruct i as [|i].
  - injection Hi as <-. rewrite Nat.mul_0_l, drop_0.
    rewrite take_app_le by lia. rewrite take_ge by lia. reflexivity.
  - simpl in Hi. replace (S i * N) with (length l0 + i * N) by (simpl; lia).
    rewrite drop_app_add. now apply IH.
Qed.

Lemma length_concat_uniform {A} (N : nat) (ls : list (list A)) :
  Forall (fun l => length l = N) ls → length (concat ls) = length ls * N.
Proof.
  induction 1 as [|l ls Hl _ IH]; [reflexivity |].
  cbn [concat]. rewrite length_app, IH, Hl. simpl. lia.
Qed.

Lemma size_hw (h w : nat) : size [h; w] = h * w.
Proof. unfold size. simpl. lia. Qed.

Lemma loaded_in (names : list string) name : name ∈ sorted names → name ∈ names.
Proof. intros Hn. destruct (sorted_sorted names) as [_ Hperm]. now rewrite <- Hperm. Qed.

Lemma loaded_length (names : list string) : length (sorted names) = length names.
Proof. destruct (sorted_sorted names) as [_ Hperm]. now rewrite Hperm. Qed.

Lemma loaded_nonempty (names : list string) : names ≠ [] → sorted names ≠ [].
Proof.
  intros Hne E. pose proof (loaded_length names) as Hl. rewrite E in Hl.
  destruct names; [now apply Hne | discriminate].
Qed.

Section Loaded.
Variables (fs : filesystem) (dir object : string) (names : list string) (H W : nat).
Hypothesis Himg : ∀ name, name ∈ names →
  ∃ im, images fs !! (dir +:+ object +:+ "/" +:+ name) = Some im ∧
        im_shape im = (H, W) ∧ wf_image im.

Abbreviation row := (fun name => pixels_of fs (file_path dir object name)).

Lemma loaded_load name :
  name ∈ sorted names → load fs (dir +:+ object +:+ "/" +:+ name) = Ok (row name, (H, W)).
Proof.
  intros Hn. destruct (Himg name (loaded_in names name Hn)) as (im & Him & Hsh & _).
  unfold load, imread, pixels_of, file_path. rewrite Him. simpl. now rewrite Hsh.
Qed.

Lemma loaded_rows : Forall (fun r => length r = H * W) (row <$> sorted names).
Proof.
  apply Forall_fmap. apply Forall_forall. intros name Hn. unfold compose.
  destruct (Himg name (loaded_in names name Hn)) as (im & Him & Hsh & [Hwf _]).
  unfold pixels_of, file_path. rewrite Him. simpl. rewrite length_fmap, Hwf, Hsh. reflexivity.
Qed.

Lemma loaded_row name im :
  images fs !! (dir +:+ object +:+ "/" +:+ name) = Some im →
  row name = normalize <$> im_px im.
Proof. intros Him. unfold pixels_of, file_path. now rewrite Him. Qed.

Lemma loaded_range : Forall (fun v => 0 <= v <= 1)%Q (concat (row <$> sorted names)).
Proof.
  apply Forall_concat. apply Forall_fmap. apply Forall_forall. intros name Hn. unfold compose.
  destruct (Himg name (loaded_in names name Hn)) as (im & Him & _ & [_ Hpx]).
  rewrite (loaded_row name im Him). apply Forall_fmap.
  eapply Forall_impl; [exact Hpx |]. intros px Hp. unfold compose. now apply normalize_range.
Qed.

Lemma loaded_data_length : length (concat (row <$> sorted names)) = length names * (H * W).
Proof.
  rewrite (length_concat_uniform (H * W)) by exact loaded_rows.
  now rewrite length_fmap, loaded_length.
Qed.

Lemma loaded_mapM :
  mapM (fun i => load fs (dir +:+ object +:+ "/" +:+ i)) (sorted names) =
  Ok ((fun name => (row name, (H, W))) <$> sorted names).
Proof. apply mapM_ok. exact loaded_load. Qed.

Lemma loaded_asarray :
  names ≠ [] →
  asarray ((fun name => (row name, (H, W))) <$> sorted names) =
  Ok (Tensor [length names; H; W] (concat (row <$> sorted names))).
Proof.
  intros Hne. rewrite (asarray_ok _ H W).
  - rewrite length_fmap, loaded_length. rewrite <- list_fmap_compose. reflexivity.
  - intros E. apply fmap_nil_inv in E. now apply (loaded_nonempty names).
  - apply Forall_fmap. apply Forall_forall. intros name _. reflexivity.
Qed.

Lemma loaded_frame i name :
  sorted names !! i = Some name →
  tensor_frame (Tensor [length names; H; W] (concat (row <$> sorted names))) i =
  Ok (Tensor [H; W] (row name)).
Proof.
  intros Hi. unfold tensor_frame. cbn [t_shape t_data].
  assert (HiN : i < length names).
  { rewrite <- loaded_length. eapply lookup_lt_Some; eassumption. }
  apply Nat.ltb_lt in HiN. rewrite HiN. rewrite size_hw.
  rewrite (take_drop_concat (H * W) _ loaded_rows i (row name)); [reflexivity |].
  now rewrite list_lookup_fmap, Hi.
Qed.

End Loaded.

Lemma get_video_loaded fs object names H W :
  dirs fs !! ("SegTrackv2/JPEGImages/" +:+ object) = Some names →
  names ≠ [] →
  (∀ name, name ∈ names →
     ∃ im, images fs !! ("SegTrackv2/JPEGImages/" +:+ object +:+ "/" +:+ name) = Some im ∧
           im_shape im = (H, W) ∧ wf_image im) →
  get_video fs object =
  Ok (Tensor [length names; H; W]
        (concat ((fun name => pixels_of fs (file_path "SegTrackv2/JPEGImages/" object name))
                 <$> sorted names))).
Proof.
  intros Hdir Hne Himg. unfold get_video, listdir. rewrite Hdir. simpl mbind. cbv zeta.
  rewrite (loaded_mapM fs _ object names H W Himg). cbn [mbind result_bind].
  now apply loaded_asarray.
Qed.

Lemma get_video_dmd_loaded fs object names H W noise_amt draws :
  dirs fs !! ("SegTrackv2/JPEGImages/" +:+ object) = Some names →
  names ≠ [] →
  (∀ name, name ∈ names →
     ∃ im, images fs !! ("SegTrackv2/JPEGImages/" +:+ object +:+ "/" +:+ name) = Some im ∧
           im_shape im = (H, W) ∧ wf_image im) →
  get_video_dmd fs object false noise_amt draws =
  Ok (transpose (Tensor [length names; H * W]
                   (concat ((fun name => pixels_of fs (file_path "SegTrackv2/JPEGImages/" object name))
                            <$> sorted names))),
      Some (H, W)).
Proof.
  intros Hdir Hne Himg.
  pose proof (loaded_rows fs _ object names H W Himg) as Hrows.
  pose proof (loaded_nonempty names Hne) as Hne'.
  unfold get_video_dmd, listdir. rewrite Hdir. simpl mbind. cbv zeta.
  rewrite (loaded_mapM fs _ object names H W Himg). cbn [mbind result_bind].
  rewrite <- !list_fmap_compose. unfold compose. cbn [fst snd].
  rewrite (vstack_ok _ (H * W)); [| | exact Hrows].
  - cbn [mbind result_bind mret result_ret]. rewrite length_fmap, loaded_length.
    rewrite last_fmap_const by exact Hne'. reflexivity.
  - intros E. apply fmap_nil_inv in E. contradiction.
Qed.

(** X2. For a directory of [N >= 1] readable images of size [H] x [W],
    [get_video] returns an array of shape [(N, H, W)] with values in
    [[0, 1]]; its frame [i] holds the pixels of the [i]-th file in
    lexicographic order of the names, each divided by 255 in float32. *)
Theorem get_video_frames (fs : filesystem) (object : string) (names : list string) (H W : nat) :
  dirs fs !! ("SegTrackv2/JPEGImages/" +:+ object) = Some names →
  names ≠ [] →
  (∀ name, name ∈ names →
     ∃ im, images fs !! ("SegTrackv2/JPEGImages/" +:+ object +:+ "/" +:+ name) = Some im ∧
           im_shape im = (H, W) ∧ wf_image im) →
  ∃ t : tensor,
    get_video fs object = Ok t ∧
    t_shape t = [length names; H; W] ∧
    length (t_data t) = length names * (H * W) ∧
    Forall (fun v => 0 <= v <= 1)%Q (t_data t) ∧
    ∀ (i : nat) (name : string) (im : image),
      sorted names !! i = Some name →
      images fs !! ("SegTrackv2/JPEGImages/" +:+ object +:+ "/" +:+ name) = Some im →
      tensor_frame t i = Ok (Tensor [H; W] (normalize <$> im_px im)).
Proof.
  intros Hdir Hne Himg. eexists. split; [apply (get_video_loaded _ _ _ H W Hdir Hne Himg) |].
  split; [reflexivity |]. cbn [t_data]. split; [| split].
  - exact (loaded_data_length fs _ object names H W Himg).
  - exact (loaded_range fs _ object names H W Himg).
  - intros i name im Hi Him. rewrite (loaded_frame fs _ object names H W Himg i name Hi).
    now rewrite (loaded_row fs _ object name im Him).
Qed.

Lemma example_fs_images name :
  name ∈ ["b.png"; "a.png"] →
  ∃ im, images example_fs !! ("SegTrackv2/JPEGImages/" +:+ "frog" +:+ "/" +:+ name) = Some im ∧
        im_shape im = (1, 2) ∧ wf_image im.
Proof.
  intros Hn.
  apply elem_of_cons in Hn as [->|Hn]; [| apply elem_of_cons in Hn as [->|Hn]].
  - exists (Image (1, 2) [51; 1]%Z). split; [reflexivity |]. split; [reflexivity |].
    split; [reflexivity |]. repeat (constructor; [lia |]). constructor.
  - exists (Image (1, 2) [0; 255]%Z). split; [reflexivity |]. split; [reflexivity |].
    split; [reflexivity |]. repeat (constructor; [lia |]). constructor.
  - inversion Hn.
Defined.

Lemma get_video_frames_witness :
  ∃ t : tensor, get_video example_fs "frog" = Ok t ∧ t_shape t = [2; 1; 2].
Proof.
  destruct (get_video_frames example_fs "frog" ["b.png"; "a.png"] 1 2)
    as (t & Ht & Hsh & _).
  - reflexivity.
  - discriminate.
  - exact example_fs_images.
  - exists t. split; [exact Ht | exact Hsh].
Defined.

(** ** From the matrix of [get_video_dmd] back to frames *)

Lemma transpose_data_length (n m : nat) (d : list Q) :
  length (t_data (transpose (Tensor [n; m] d))) = m * n.
Proof.
  unfold transpose. cbn [t_shape t_data].
  rewrite (length_concat_uniform n).
  - now rewrite length_fmap, length_seq.
  - apply Forall_fmap. apply Forall_forall. intros c _. unfold compose.
    now rewrite length_fmap, length_seq.
Qed.

Lemma transpose_data_lookup (n m : nat) (d : list Q) (r c : nat) :
  r < n → c < m →
  t_data (transpose (Tensor [n; m] d)) !! (c * n + r) = Some (nth (r * m + c) d 0%Q).
Proof.
  intros Hr Hc. unfold transpose. cbn [t_shape t_data].
  rewrite (lookup_concat_uniform n).
  - rewrite list_lookup_fmap, lookup_seq_lt by exact Hc. simpl.
    now rewrite list_lookup_fmap, lookup_seq_lt by exact Hr.
  - apply Forall_fmap. apply Forall_forall. intros c' _. unfold compose.
    now rewrite length_fmap, length_seq.
  - exact Hr.
Qed.

Lemma transpose_transpose (n m : nat) (d : list Q) :
  length d = n * m →
  transpose (transpose (Tensor [n; m] d)) = Tensor [n; m] d.
Proof.
  intros Hd.
  assert (Hsh : transpose (Tensor [n; m] d) =
                Tensor [m; n] (t_data (transpose (Tensor [n; m] d)))) by reflexivity.
  rewrite Hsh. set (d' := t_data (transpose (Tensor [n; m] d))).
  assert (Hsh' : transpose (Tensor [m; n] d') =
                 Tensor [n; m] (t_data (transpose (Tensor [m; n] d')))) by reflexivity.
  rewrite Hsh'. f_equal.
  apply list_eq. intros j.
  destruct (decide (j < n * m)) as [Hj|Hj].
  - assert (Hm : 0 < m) by (destruct m; [lia | lia]).
    assert (Hjr : j `div` m < n) by (apply Nat.Div0.div_lt_upper_bound; lia).
    assert (Hjc : j `mod` m < m) by (apply Nat.mod_upper_bound; lia).
    assert (Ej : j = (j `div` m) * m + j `mod` m).
    { rewrite Nat.mul_comm. apply Nat.div_mod_eq. }
    rewrite Ej at 1. rewrite transpose_data_lookup by assumption.
    rewrite nth_lookup. unfold d'. rewrite transpose_data_lookup by assumption.
    simpl. rewrite <- Ej. rewrite nth_lookup.
    destruct (lookup_lt_is_Some_2 d j ltac:(lia)) as [x Hx]. now rewrite Hx.
  - rewrite !lookup_ge_None_2; [reflexivity | lia |].
    rewrite transpose_data_length. lia.
Qed.

(** X3. The matrix of [get_video_dmd] and the tensor of [get_video] hold
    the same video: for a directory of [N >= 1] readable images of one
    size, transposing the matrix and reshaping it to
    [(video.shape[1], shape[0], shape[1])], as the notebook does with the
    reconstruction, gives exactly the array [get_video] returns. *)
Theorem frames_of_matrix_round_trip (fs : filesystem) (object : string) (noise_amt : Q)
    (draws : nat -> Q) (names : list string) (H W : nat) :
  dirs fs !! ("SegTrackv2/JPEGImages/" +:+ object) = Some names →
  names ≠ [] →
  (∀ name, name ∈ names →
     ∃ im, images fs !! ("SegTrackv2/JPEGImages/" +:+ object +:+ "/" +:+ name) = Some im ∧
           im_shape im = (H, W) ∧ wf_image im) →
  ∃ (video t : tensor) (shape : nat * nat),
    get_video_dmd fs object false noise_amt draws = Ok (video, Some shape) ∧
    get_video fs object = Ok t ∧
    frames_of_matrix video video shape = Ok t.
Proof.
  intros Hdir Hne Himg.
  pose proof (loaded_data_length fs _ object names H W Himg) as Hlen.
  eexists. eexists. exists (H, W).
  split; [apply (get_video_dmd_loaded _ _ _ H W _ _ Hdir Hne Himg) |].
  split; [apply (get_video_loaded _ _ _ H W Hdir Hne Himg) |].
  unfold frames_of_matrix.
  change (t_shape (transpose (Tensor [length names; H * W] ?d))) with [H * W; length names].
  rewrite transpose_transpose by exact Hlen.
  unfold reshape. cbn [t_data fst snd]. rewrite Hlen.
  assert (E : (size [length names; H; W] =? length names * (H * W)) = true).
  { apply Nat.eqb_eq. unfold size. simpl. lia. }
  now rewrite E.
Qed.

Lemma frames_of_matrix_round_trip_witness :
  ∃ (video t : tensor) (shape : nat * nat),
    get_video_dmd example_fs "frog" false 0 (fun _ => 0%Q) = Ok (video, Some shape) ∧
    get_video example_fs "frog" = Ok t ∧
    frames_of_matrix video video shape = Ok t.
Proof.
  apply (frames_of_matrix_round_trip example_fs "frog" 0 (fun _ => 0%Q)
           ["b.png"; "a.png"] 1 2).
  - reflexivity.
  - discriminate.
  - exact example_fs_images.
Defined.

(** ** Errors of the loaders *)

Lemma mapM_raise {A B} (f : A -> result B) (e : exn) (l : list A) :
  (∀ x, x ∈ l → f x = Raise e ∨ ∃ y, f x = Ok y) →
  (∃ x, x ∈ l ∧ f x = Raise e) →
  mapM f l = Raise e.
Proof.
  induction l as [|a l IH]; intros Hall [x [Hx Hfx]]; [inversion Hx |].
  cbn [mapM].
  destruct (Hall a (list_elem_of_here a l)) as [Ha|[y Ha]]; rewrite Ha; [reflexivity |].
  simpl. rewrite IH; [reflexivity | |].
  - intros z Hz. apply Hall. now apply list_elem_of_further.
  - apply elem_of_cons in Hx as [->|Hx]; [congruence |]. now exists x.
Qed.

Lemma load_cases fs path : load fs path = Raise AttributeError ∨ ∃ y, load fs path = Ok y.
Proof. unfold load. destruct (imread fs path); [right; eauto | now left]. Qed.

(** X4. Errors of the loaders, which check nothing themselves: for a
    video without a directory of raw frames every loader and every
    playback function raises [FileNotFoundError] (from [os.listdir]); when
    a listed frame cannot be decoded, [cv2.imread] returns [None] and
    [get_video] and [get_video_dmd] raise [AttributeError]. *)
Theorem loaders_errors (fs : filesystem) (object : string) (noise : bool) (noise_amt : Q)
    (draws : nat -> Q) (bg : tensor) (mask : bool) (thresh : Q) :
  (dirs fs !! ("SegTrackv2/JPEGImages/" +:+ object) = None →
   get_video_dmd fs object noise noise_amt draws = Raise FileNotFoundError ∧
   get_video fs object = Raise FileNotFoundError ∧
   get_gt_video fs object = Raise FileNotFoundError ∧
   play_video fs object = Raise FileNotFoundError ∧
   play_gt_video fs object = Raise FileNotFoundError ∧
   play_video_removed fs bg object mask thresh = Raise FileNotFoundError) ∧
  (∀ names name,
     dirs fs !! ("SegTrackv2/JPEGImages/" +:+ object) = Some names →
     name ∈ names →
     images fs !! ("SegTrackv2/JPEGImages/" +:+ object +:+ "/" +:+ name) = None →
     get_video_dmd fs object noise noise_amt draws = Raise AttributeError ∧
     get_video fs object = Raise AttributeError).
Proof.
  split.
  - intros Hdir.
    assert (Hv : get_video fs object = Raise FileNotFoundError).
    { unfold get_video, listdir. now rewrite Hdir. }
    assert (Hg : get_gt_video fs object = Raise FileNotFoundError).
    { unfold get_gt_video, listdir. rewrite Hdir.
      now destruct (dirs fs !! ("SegTrackv2/GroundTruth/" +:+ object)). }
    split; [unfold get_video_dmd, listdir; now rewrite Hdir |].
    split; [exact Hv |]. split; [exact Hg |].
    split; [unfold play_video; now rewrite Hv |].
    split; [unfold play_gt_video; now rewrite Hg |].
    unfold play_video_removed. now rewrite Hv.
  - intros names name Hdir Hin Him.
    assert (Hm : mapM (fun i => load fs ("SegTrackv2/JPEGImages/" +:+ object +:+ "/" +:+ i))
                      (sorted names) = Raise AttributeError).
    { apply mapM_raise.
      - intros x _. apply load_cases.
      - exists name. split.
        + destruct (sorted_sorted names) as [_ Hperm]. now rewrite Hperm.
        + unfold load, imread. now rewrite Him. }
    split.
    + unfold get_video_dmd, listdir. rewrite Hdir. simpl mbind.
      cbv zeta. rewrite Hm. reflexivity.
    + unfold get_video, listdir. rewrite Hdir. simpl mbind.
      cbv zeta. rewrite Hm. reflexivity.
Qed.

Lemma loaders_errors_witness :
  (get_video example_fs_masks "monkey" = Raise FileNotFoundError ∧
   get_gt_video example_fs_masks "monkey" = Raise FileNotFoundError) ∧
  get_video example_fs_masks "soldier" = Raise AttributeError.
Proof.
  split.
  - destruct (loaders_errors example_fs_masks "monkey" false 0 (fun _ => 0%Q)
                (Tensor [] []) false 0) as [H _].
    destruct H as (_ & Hv & Hg & _); [reflexivity |].
    split; [exact Hv | exact Hg].
  - destruct (loaders_errors example_fs_masks "soldier" false 0 (fun _ => 0%Q)
                (Tensor [] []) false 0) as [_ H].
    destruct (H ["a.png"] "a.png") as [_ Hv];
      [reflexivity | apply list_elem_of_here | reflexivity | exact Hv].
Defined.

(** X5. An empty directory of raw frames: [get_video] returns the empty
    one-dimensional array that [np.asarray([])] is, [get_video_dmd] raises
    [ValueError] (from [np.vstack]), and the playback functions raise
    [IndexError] when they take frame 0 of the empty array. *)
Theorem loaders_empty_directory (fs : filesystem) (object : string) (noise : bool)
    (noise_amt : Q) (draws : nat -> Q) (bg : tensor) (mask : bool) (thresh : Q) :
  dirs fs !! ("SegTrackv2/JPEGImages/" +:+ object) = Some [] →
  get_video fs object = Ok (Tensor [0] []) ∧
  get_video_dmd fs object noise noise_amt draws = Raise ValueError ∧
  play_video fs object = Raise IndexError ∧
  play_video_removed fs bg object mask thresh = Raise IndexError.
Proof.
  intros Hdir.
  assert (Hv : get_video fs object = Ok (Tensor [0] [])).
  { unfold get_video, listdir. now rewrite Hdir. }
  split; [exact Hv |].
  split; [unfold get_video_dmd, listdir; now rewrite Hdir |].
  split; [unfold play_video; now rewrite Hv |].
  unfold play_video_removed. now rewrite Hv.
Qed.

Lemma loaders_empty_directory_witness :
  get_video example_fs_masks "worm" = Ok (Tensor [0] []) ∧
  play_video example_fs_masks "worm" = Raise IndexError.
Proof.
  destruct (loaders_empty_directory example_fs_masks "worm" false 0 (fun _ => 0%Q)
              (Tensor [] []) false 0) as (Hv & _ & Hp & _); [reflexivity |].
  split; [exact Hv | exact Hp].
Defined.

(** ** The order of the frames *)

Lemma ascii_compare_refl (a : Ascii.ascii) : Ascii.compare a a = Eq.
Proof. unfold Ascii.compare. apply N.compare_refl. Qed.

Lemma ascii_compare_lt_trans (a b c : Ascii.ascii) :
  Ascii.compare a b = Lt → Ascii.compare b c = Lt → Ascii.compare a c = Lt.
Proof.
  unfold Ascii.compare. rewrite !N.compare_lt_iff. apply N.lt_trans.
Qed.

Lemma string_compare_lt_trans (s1 : string) :
  ∀ s2 s3, String.compare s1 s2 = Lt → String.compare s2 s3 = Lt → String.compare s1 s3 = Lt.
Proof.
  induction s1 as [|c1 s1 IH]; intros [|c2 s2] [|c3 s3] H12 H23;
    simpl in *; try discriminate; try reflexivity.
  destruct (Ascii.compare c1 c2) eqn:E12; try discriminate;
    destruct (Ascii.compare c2 c3) eqn:E23; try discriminate.
  - apply Ascii.compare_eq_iff in E12, E23. subst. rewrite ascii_compare_refl. eauto.
  - apply Ascii.compare_eq_iff in E12. subst. now rewrite E23.
  - apply Ascii.compare_eq_iff in E23. subst. now rewrite E12.
  - now rewrite (ascii_compare_lt_trans _ _ _ E12 E23).
Qed.

#[local] Instance str_le_trans : Transitive str_le.
Proof.
  intros a b c. unfold str_le, String.leb. intros Hab Hbc.
  destruct (String.compare a b) eqn:Eab; [| | now destruct Hab].
  - apply String.compare_eq_iff in Eab. now subst.
  - destruct (String.compare b c) eqn:Ebc; [| | now destruct Hbc].
    + apply String.compare_eq_iff in Ebc. subst. now rewrite Eab.
    + now rewrite (string_compare_lt_trans _ _ _ Eab Ebc).
Qed.

#[local] Instance str_le_antisym : AntiSymm (=) str_le.
Proof.
  intros a b Hab Hba. unfold str_le in *.
  apply String.leb_antisym; now apply Is_true_true.
Qed.

Lemma sorted_perm (l k : list string) : l ≡ₚ k → sorted l = sorted k.
Proof.
  intros Hp. apply (Sorted_unique str_le).
  - apply sorted_sorted.
  - apply sorted_sorted.
  - destruct (sorted_sorted l) as [_ Hl]. destruct (sorted_sorted k) as [_ Hk].
    now rewrite Hl, Hk.
Qed.

Lemma valid_names_sorted (jpeg_list gt_list : list string) :
  NoDup gt_list → (∀ name, name ∈ gt_list → name ∈ jpeg_list) →
  sorted (elements ((list_to_set (sorted jpeg_list) : gset string)
                    ∩ list_to_set (sorted gt_list))) = sorted gt_list.
Proof.
  intros Hnd Hsub. apply sorted_perm.
  apply NoDup_Permutation; [apply NoDup_elements | exact Hnd |].
  intros x. rewrite elem_of_elements, elem_of_intersection, !elem_of_list_to_set.
  destruct (sorted_sorted jpeg_list) as [_ Hj]. destruct (sorted_sorted gt_list) as [_ Hg].
  rewrite Hj, Hg. split; [now intros [_ ?] | intros Hx; split; [now apply Hsub | exact Hx]].
Qed.

Lemma get_gt_video_sorted (fs : filesystem) (object : string)
    (jpeg_list gt_list : list string) :
  dirs fs !! ("SegTrackv2/GroundTruth/" +:+ object) = Some jpeg_list →
  dirs fs !! ("SegTrackv2/JPEGImages/" +:+ object) = Some gt_list →
  NoDup gt_list →
  (∀ name, name ∈ gt_list → name ∈ jpeg_list) →
  get_gt_video fs object =
    (imgs ← mapM (fun i => load fs ("SegTrackv2/GroundTruth/" +:+ object +:+ "/" +:+ i))
                 (sorted gt_list);
     asarray imgs).
Proof.
  intros Hgt Hraw Hnd Hsub.
  unfold get_gt_video, listdir. rewrite Hgt, Hraw. cbn [fmap result_fmap mbind result_bind].
  cbv zeta. now rewrite (valid_names_sorted jpeg_list gt_list Hnd Hsub).
Qed.

(** X6. Alignment of ground truth and video.  [get_gt_video] loads the
    masks of the names that both directories list, in lexicographic
    order.  When every raw frame of the video has a mask of the same name,
    these are the names [get_video] loads, in the same order: frame [i] of
    the ground truth is the mask named like frame [i] of the video, and
    masks without a raw frame are not read. *)
Theorem get_gt_video_aligned (fs : filesystem) (object : string)
    (jpeg_list gt_list : list string) :
  dirs fs !! ("SegTrackv2/GroundTruth/" +:+ object) = Some jpeg_list →
  dirs fs !! ("SegTrackv2/JPEGImages/" +:+ object) = Some gt_list →
  NoDup gt_list →
  (∀ name, name ∈ gt_list → name ∈ jpeg_list) →
  get_gt_video fs object =
    (imgs ← mapM (fun i => load fs ("SegTrackv2/GroundTruth/" +:+ object +:+ "/" +:+ i))
                 (sorted gt_list);
     asarray imgs) ∧
  get_video fs object =
    (imgs ← mapM (fun i => load fs ("SegTrackv2/JPEGImages/" +:+ object +:+ "/" +:+ i))
                 (sorted gt_list);
     asarray imgs).
Proof.
  intros Hgt Hraw Hnd Hsub. split.
  - now apply (get_gt_video_sorted fs object jpeg_list gt_list).
  - unfold get_video, listdir. now rewrite Hraw.
Qed.

Lemma get_gt_video_aligned_witness :
  get_gt_video example_fs_masks "frog" =
    (imgs ← mapM (fun i => load example_fs_masks
                              ("SegTrackv2/GroundTruth/" +:+ "frog" +:+ "/" +:+ i))
                 (sorted ["b.png"; "a.png"]);
     asarray imgs).
Proof.
  destruct (get_gt_video_aligned example_fs_masks "frog" ["c.png"; "a.png"; "b.png"]
              ["b.png"; "a.png"]) as [H _].
  - reflexivity.
  - reflexivity.
  - apply NoDup_cons. split; [| apply NoDup_singleton].
    intros Hin. apply list_elem_of_singleton in Hin. discriminate Hin.
  - intros name Hn.
    apply elem_of_cons in Hn as [->|Hn]; [| apply elem_of_cons in Hn as [->|Hn]].
    + do 2 apply list_elem_of_further. apply list_elem_of_here.
    + apply list_elem_of_further. apply list_elem_of_here.
    + inversion Hn.
  - exact H.
Defined.

(** ** Playback *)

Lemma loaded_play (fs : filesystem) (dir object : string) (names : list string) (H W : nat) :
  names ≠ [] →
  (∀ name, name ∈ names →
     ∃ im, images fs !! (dir +:+ object +:+ "/" +:+ name) = Some im ∧
           im_shape im = (H, W) ∧ wf_image im) →
  let video := Tensor [length names; H; W]
                 (concat ((fun name => pixels_of fs (file_path dir object name))
                          <$> sorted names)) in
  (_ ← tensor_frame video 0;
   mapM (tensor_frame video) (seq 0 (default 0%nat (head (t_shape video))))) =
  Ok ((fun name => Tensor [H; W] (pixels_of fs (file_path dir object name))) <$> sorted names).
Proof.
  intros Hne Himg video.
  pose proof (loaded_length names) as Hlen.
  assert (Hpos : 0 < length (sorted names)).
  { destruct (sorted names) eqn:Es; [| simpl; lia].
    exfalso. now apply (loaded_nonempty names Hne). }
  destruct (lookup_lt_is_Some_2 (sorted names) 0 Hpos) as [n0 Hn0].
  pose proof (loaded_frame fs dir object names H W Himg 0 n0 Hn0) as H0.
  fold video in H0. rewrite H0.
  cbn [mbind result_bind t_shape video head default].
  assert (Hm : mapM (tensor_frame video) (seq 0 (length names)) =
               Ok ((fun i => Tensor [H; W]
                               (pixels_of fs (file_path dir object (nth i (sorted names) ""))))
                   <$> seq 0 (length names))).
  { apply mapM_ok. intros i Hi. apply list_elem_of_In, in_seq in Hi.
    apply (loaded_frame fs dir object names H W Himg).
    destruct (nth_lookup_or_length (sorted names) i "") as [Hl|Hl]; [exact Hl | lia]. }
  unfold id. rewrite Hm. f_equal. rewrite <- Hlen.
  set (f := fun name => Tensor [H; W] (pixels_of fs (file_path dir object name))).
  change (f ∘ (fun i => nth i (sorted names) "") <$> seq 0 (length (sorted names)) =
          f <$> sorted names).
  now rewrite list_fmap_compose, fmap_nth_seq.
Qed.

(** X7. [play_video] shows every raw frame once, in the lexicographic
    order of the file names: for a directory of [N >= 1] readable images of
    size [H] x [W] the animation has [N] frames, the [i]-th holding the
    normalized pixels of the [i]-th file. *)
Theorem play_video_frames (fs : filesystem) (object : string) (names : list string) (H W : nat) :
  dirs fs !! ("SegTrackv2/JPEGImages/" +:+ object) = Some names →
  names ≠ [] →
  (∀ name, name ∈ names →
     ∃ im, images fs !! ("SegTrackv2/JPEGImages/" +:+ object +:+ "/" +:+ name) = Some im ∧
           im_shape im = (H, W) ∧ wf_image im) →
  ∃ frames : list tensor,
    play_video fs object = Ok frames ∧
    length frames = length names ∧
    ∀ (i : nat) (name : string) (im : image),
      sorted names !! i = Some name →
      images fs !! ("SegTrackv2/JPEGImages/" +:+ object +:+ "/" +:+ name) = Some im →
      frames !! i = Some (Tensor [H; W] (normalize <$> im_px im)).
Proof.
  intros Hdir Hne Himg. eexists. split; [| split].
  - unfold play_video. rewrite (get_video_loaded fs object names H W Hdir Hne Himg).
    cbn [mbind result_bind].
    exact (loaded_play fs "SegTrackv2/JPEGImages/" object names H W Hne Himg).
  - now rewrite length_fmap, loaded_length.
  - intros i name im Hi Him. rewrite list_lookup_fmap, Hi. simpl.
    now rewrite (loaded_row fs _ object name im Him).
Qed.

Lemma play_video_frames_witness :
  ∃ frames : list tensor,
    play_video example_fs "frog" = Ok frames ∧ length frames = 2.
Proof.
  destruct (play_video_frames example_fs "frog" ["b.png"; "a.png"] 1 2)
    as (frames & Hp & Hl & _).
  - reflexivity.
  - discriminate.
  - exact example_fs_images.
  - exists frames. split; [exact Hp | exact Hl].
Defined.

(** X8. [play_gt_video] shows the masks in step with [play_video]: when
    every raw frame of the video has a readable mask of the same name and
    of size [H] x [W], the animation has as many frames as the video, the
    [i]-th holding the mask named like the [i]-th raw frame. *)
Theorem play_gt_video_frames (fs : filesystem) (object : string)
    (jpeg_list gt_list : list string) (H W : nat) :
  dirs fs !! ("SegTrackv2/GroundTruth/" +:+ object) = Some jpeg_list →
  dirs fs !! ("SegTrackv2/JPEGImages/" +:+ object) = Some gt_list →
  gt_list ≠ [] → NoDup gt_list →
  (∀ name, name ∈ gt_list →
     name ∈ jpeg_list ∧
     ∃ im, images fs !! ("SegTrackv2/GroundTruth/" +:+ object +:+ "/" +:+ name) = Some im ∧
           im_shape im = (H, W) ∧ wf_image im) →
  ∃ frames : list tensor,
    play_gt_video fs object = Ok frames ∧
    length frames = length gt_list ∧
    ∀ (i : nat) (name : string) (im : image),
      sorted gt_list !! i = Some name →
      images fs !! ("SegTrackv2/GroundTruth/" +:+ object +:+ "/" +:+ name) = Some im →
      frames !! i = Some (Tensor [H; W] (normalize <$> im_px im)).
Proof.
  intros Hgt Hraw Hne Hnd Hall.
  assert (Hsub : ∀ name, name ∈ gt_list → name ∈ jpeg_list) by (intros n Hn; apply Hall, Hn).
  assert (Himg : ∀ name, name ∈ gt_list →
            ∃ im, images fs !! ("SegTrackv2/GroundTruth/" +:+ object +:+ "/" +:+ name) = Some im ∧
                  im_shape im = (H, W) ∧ wf_image im) by (intros n Hn; apply Hall, Hn).
  eexists. split; [| split].
  - unfold play_gt_video.
    rewrite (get_gt_video_sorted fs object jpeg_list gt_list Hgt Hraw Hnd Hsub).
    rewrite (loaded_mapM fs _ object gt_list H W Himg). cbn [mbind result_bind].
    rewrite (loaded_asarray fs _ object gt_list H W Hne). cbn [mbind result_bind].
    exact (loaded_play fs "SegTrackv2/GroundTruth/" object gt_list H W Hne Himg).
  - now rewrite length_fmap, loaded_length.
  - intros i name im Hi Him. rewrite list_lookup_fmap, Hi. simpl.
    now rewrite (loaded_row fs _ object name im Him).
Qed.

Lemma play_gt_video_frames_witness :
  ∃ frames : list tensor,
    play_gt_video example_fs_masks "frog" = Ok frames ∧ length frames = 2.
Proof.
  destruct (play_gt_video_frames example_fs_masks "frog" ["c.png"; "a.png"; "b.png"]
              ["b.png"; "a.png"] 1 2) as (frames & Hp & Hl & _).
  - reflexivity.
  - reflexivity.
  - discriminate.
  - apply NoDup_cons. split; [| apply NoDup_singleton].
    intros Hin. apply list_elem_of_singleton in Hin. discriminate Hin.
  - intros name Hn.
    apply elem_of_cons in Hn as [->|Hn]; [| apply elem_of_cons in Hn as [->|Hn]].
    + split; [do 2 apply list_elem_of_further; apply list_elem_of_here |].
      exists (Image (1, 2) [0; 255]%Z). split; [reflexivity |]. split; [reflexivity |].
      split; [reflexivity |]. repeat (constructor; [lia |]). constructor.
    + split; [apply list_elem_of_further; apply list_elem_of_here |].
      exists (Image (1, 2) [255; 0]%Z). split; [reflexivity |]. split; [reflexivity |].
      split; [reflexivity |]. repeat (constructor; [lia |]). constructor.
    + inversion Hn.
  - exists frames. split; [exact Hp | exact Hl].
Defined.

(** ** The foreground playback *)





(** ** The metrics on a caller's arrays *)

Lemma calc_miou_value (dt : dtype) (s : store) (pred truth : ndarray) (thresh : scalar)
    (n : nat) (sh : list nat) :
  shape pred = n :: sh → shape truth = n :: sh → 2 ≤ length sh → 1 ≤ n →
  wf pred → allocated s truth →
  snd (calc_miou dt pred truth thresh s) =
  Ok (miou_value (compared dt thresh) n sh (read s pred) (read s truth)).
Proof.
  intros Hsp Hst Hl Hn Hwf Hat. unfold calc_miou.
  destruct (decide (shape pred = shape truth)) as [_|Hne]; [| congruence].
  pose proof (shape_copy pred s) as Hsc. pose proof (cells_copy pred s) as Hcc.
  pose proof (read_copy pred s) as Hrc.
  pose proof (fun c => mem_copy pred s c) as Hmc.
  destruct (copy pred s) as [s1 pred1]. simpl in Hsc, Hcc, Hrc, Hmc.
  rewrite Hsc, Hsp.
  unfold wf in Hwf. rewrite Hsp, size_cons in Hwf. rewrite Hwf in Hcc.
  assert (Hsp1 : shape pred1 = n :: sh) by congruence.
  pose proof (miou_loop_spec dt s s1 pred1 truth thresh n sh (read s pred)
                Hsp1 Hst Hl Hcc Hat Hrc Hmc n 0 0%Q s1 eq_refl Hmc
                (fun c _ => eq_refl)) as Hloop.
  destruct (miou_loop dt pred1 truth thresh (seq 0 n) 0%Q s1) as [s2 r].
  simpl in Hloop. subst r. simpl.
  destruct n as [|n]; [lia |]. simpl Nat.eqb. cbv iota.
  unfold miou_value, arithmetic_mean. now rewrite length_fmap, length_seq.
Qed.

Lemma mem_calc_f1 dt pred truth thresh s c :
  c < next s → mem (fst (calc_f1 dt pred truth thresh s)) c = mem s c.
Proof.
  intros Hc. unfold calc_f1.
  destruct (decide (shape pred = shape truth)); [| reflexivity].
  pose proof (mem_copy pred s c Hc) as Hm1. pose proof (cells_copy pred s) as Hc1.
  pose proof (next_copy pred s) as Hn1.
  destruct (copy pred s) as [s1 pred1]. simpl in Hm1, Hc1, Hn1.
  pose proof (mem_copy truth s1 c ltac:(lia)) as Hm2.
  destruct (copy truth s1) as [s2 truth1]. simpl in Hm2. cbn [fst].
  rewrite mem_binarize. rewrite bool_decide_eq_false_2; [congruence |].
  rewrite Hc1, elem_of_seq. lia.
Qed.

Lemma calc_f1_value (dt : dtype) (s : store) (pred truth : ndarray) (thresh : scalar) :
  shape pred = shape truth → allocated s truth →
  snd (calc_f1 dt pred truth thresh s) =
  f1_value (compared dt thresh) (read s pred) (read s truth).
Proof.
  intros Hsh Hat. unfold calc_f1.
  destruct (decide (shape pred = shape truth)) as [_|Hne]; [| contradiction].
  pose proof (cells_copy pred s) as Hc1. pose proof (read_copy pred s) as Hr1.
  pose proof (next_copy pred s) as Hn1.
  pose proof (fun c => mem_copy pred s c) as Hm1.
  destruct (copy pred s) as [s1 pred1]. simpl in Hc1, Hr1, Hn1, Hm1.
  pose proof (cells_copy truth s1) as Hc2. pose proof (read_copy truth s1) as Hr2.
  pose proof (fun c => mem_copy truth s1 c) as Hm2.
  destruct (copy truth s1) as [s2 truth1]. simpl in Hc2, Hr2, Hm2. cbn [snd].
  unfold f1_value. f_equal.
  - f_equal. rewrite (read_ext s2 (binarize dt pred1 thresh s2) truth1).
    + rewrite Hr2. apply read_ext. intros c Hc. apply Hm1.
      unfold allocated in Hat. rewrite Forall_forall in Hat. now apply Hat.
    + intros c Hc. rewrite mem_binarize. rewrite bool_decide_eq_false_2; [reflexivity |].
      rewrite Hc2, elem_of_seq in Hc. rewrite Hc1, elem_of_seq. lia.
  - f_equal. rewrite read_binarize. f_equal. rewrite <- Hr1.
    apply read_ext. intros c Hc. apply Hm2. rewrite Hc1, elem_of_seq in Hc. lia.
Qed.



(** ** The threshold sweep *)

Lemma next_miou_loop dt pred truth thresh idx :
  ∀ miou s, next (fst (miou_loop dt pred truth thresh idx miou s)) = next s.
Proof.
  induction idx as [|i idx IH]; intros miou s; [reflexivity |].
  rewrite miou_loop_cons.
  destruct (frame pred i) as [p|e]; [| reflexivity].
  destruct (frame truth i) as [t|e]; [| reflexivity].
  pose proof (fst_calc_iou dt p t thresh s) as Hf.
  destruct (calc_iou dt p t thresh s) as [s' r]. simpl in Hf. subst s'.
  destruct r as [iou|e]; [| apply next_binarize].
  rewrite IH. apply next_binarize.
Qed.

Lemma next_calc_miou dt pred truth thresh s :
  next s ≤ next (fst (calc_miou dt pred truth thresh s)).
Proof.
  unfold calc_miou. destruct (decide (shape pred = shape truth)); [| reflexivity].
  pose proof (next_copy pred s) as Hn.
  destruct (copy pred s) as [s1 pred1]. simpl in Hn.
  destruct (shape pred1) as [|n sh]; [simpl; lia |].
  pose proof (next_miou_loop dt pred1 truth thresh (seq 0 n) 0%Q s1) as Hl.
  destruct (miou_loop dt pred1 truth thresh (seq 0 n) 0%Q s1) as [s2 r]. simpl in *. lia.
Qed.

Lemma next_calc_f1 dt pred truth thresh s :
  next s ≤ next (fst (calc_f1 dt pred truth thresh s)).
Proof.
  unfold calc_f1. destruct (decide (shape pred = shape truth)); [| reflexivity].
  pose proof (next_copy pred s) as Hn1.
  destruct (copy pred s) as [s1 pred1]. simpl in Hn1.
  pose proof (next_copy truth s1) as Hn2.
  destruct (copy truth s1) as [s2 truth1]. simpl in Hn2. cbn [fst].
  rewrite next_binarize. lia.
Qed.

Lemma f1_score_ok (y_true y_pred : list Z) (beta : Z) :
  length y_true = length y_pred → ∃ r, f1_score y_true y_pred beta = Ok r.
Proof.
  intros Hl. unfold f1_score, zip_same. cbv zeta.
  rewrite !decide_True by (now rewrite Hl).
  cbn [mbind result_bind mret result_ret]. eexists. reflexivity.
Qed.

Lemma allocated_mono (s s' : store) (a : ndarray) :
  next s ≤ next s' → allocated s a → allocated s' a.
Proof.
  intros Hn Ha. unfold allocated in *. eapply Forall_impl; [exact Ha |].
  simpl. intros c Hc. lia.
Qed.

Lemma read_allocated (s s' : store) (a : ndarray) :
  allocated s a → (∀ c, c < next s → mem s' c = mem s c) → read s' a = read s a.
Proof.
  intros Ha Hm. apply read_ext. intros c Hc. apply Hm.
  unfold allocated in Ha. rewrite Forall_forall in Ha. now apply Ha.
Qed.

Section Sweep.
Variables (dt : dtype) (s : store) (pred truth : ndarray) (n : nat) (sh : list nat).
Hypothesis Hsp : shape pred = n :: sh.
Hypothesis Hst : shape truth = n :: sh.
Hypothesis Hl : 2 ≤ length sh.
Hypothesis Hn : 1 ≤ n.
Hypothesis Hwp : wf pred.
Hypothesis Hwt : wf truth.
Hypothesis Hap : allocated s pred.
Hypothesis Hat : allocated s truth.

Lemma sweep_calls (sk : store) (thresh : scalar) :
  next s ≤ next sk → (∀ c, c < next s → mem sk c = mem s c) →
  snd (calc_miou dt pred truth thresh sk) = snd (calc_miou dt pred truth thresh s) ∧
  snd (calc_f1 dt pred truth thresh sk) = snd (calc_f1 dt pred truth thresh s) ∧
  ∃ miou f1, snd (calc_miou dt pred truth thresh s) = Ok miou ∧
             snd (calc_f1 dt pred truth thresh s) = Ok f1.
Proof.
  intros Hnk Hmk.
  assert (Hatk : allocated sk truth) by (now apply (allocated_mono s)).
  assert (Hrp : read sk pred = read s pred) by (now apply read_allocated).
  assert (Hrt : read sk truth = read s truth) by (now apply read_allocated).
  rewrite (calc_miou_value dt sk pred truth thresh n sh Hsp Hst Hl Hn Hwp Hatk).
  rewrite (calc_miou_value dt s pred truth thresh n sh Hsp Hst Hl Hn Hwp Hat).
  rewrite (calc_f1_value dt sk pred truth thresh) by (congruence || assumption).
  rewrite (calc_f1_value dt s pred truth thresh) by (congruence || assumption).
  rewrite Hrp, Hrt. split; [reflexivity |]. split; [reflexivity |].
  destruct (f1_score_ok (to_uint8 <$> read s truth)
              (to_uint8 <$> (binarized (compared dt thresh) <$> read s pred)) 1) as [f1 Hf1].
  { unfold read. rewrite !length_fmap. unfold wf in Hwp, Hwt. congruence. }
  eexists _, f1. split; [reflexivity | exact Hf1].
Qed.

Lemma sweep_spec (thresholds : list scalar) :
  ∀ (mious f1s : list Q) (sk : store),
    next s ≤ next sk → (∀ c, c < next s → mem sk c = mem s c) →
    ∃ ms fs,
      snd (sweep dt pred truth thresholds mious f1s sk) = Ok (mious ++ ms, f1s ++ fs) ∧
      Forall2 (fun t m => snd (calc_miou dt pred truth t s) = Ok m) thresholds ms ∧
      Forall2 (fun t f => snd (calc_f1 dt pred truth t s) = Ok f) thresholds fs ∧
      (∀ c, c < next s → mem (fst (sweep dt pred truth thresholds mious f1s sk)) c = mem s c).
Proof.
  induction thresholds as [|t ts IH]; intros mious f1s sk Hnk Hmk.
  - exists [], []. rewrite !app_nil_r. repeat split; try constructor. exact Hmk.
  - destruct (sweep_calls sk t Hnk Hmk) as (Em & Ef & miou & f1 & Hm & Hf).
    cbn [sweep].
    pose proof (next_calc_miou dt pred truth t sk) as Hn1.
    pose proof (fun c => mem_calc_miou dt pred truth t sk c) as Hm1.
    assert (Hat1 : allocated (fst (calc_miou dt pred truth t sk)) truth).
    { apply (allocated_mono s); [lia | exact Hat]. }
    destruct (calc_miou dt pred truth t sk) as [s1 r1]. simpl in Em, Hn1, Hm1, Hat1.
    rewrite Em, Hm.
    assert (Hk1 : ∀ c, c < next s → mem s1 c = mem s c).
    { intros c Hc. rewrite Hm1 by lia. now apply Hmk. }
    destruct (sweep_calls s1 t ltac:(lia) Hk1) as (_ & Ef1 & _).
    pose proof (next_calc_f1 dt pred truth t s1) as Hn2.
    pose proof (fun c => mem_calc_f1 dt pred truth t s1 c) as Hm2.
    destruct (calc_f1 dt pred truth t s1) as [s2 r2]. simpl in Ef1, Hn2, Hm2.
    rewrite Ef1, Hf.
    assert (Hk2 : ∀ c, c < next s → mem s2 c = mem s c).
    { intros c Hc. rewrite Hm2 by lia. now apply Hk1. }
    destruct (IH (mious ++ [miou]) (f1s ++ [f1]) s2 ltac:(lia) Hk2)
      as (ms & fs & Hs & Hms & Hfs & Hfr).
    exists (miou :: ms), (f1 :: fs).
    rewrite Hs, <- !app_assoc. split; [reflexivity |].
    split; [now constructor |]. split; [now constructor | exact Hfr].
Qed.

End Sweep.

(** X11. The threshold sweep.  [calc_miou] and [calc_f1] work on copies,
    so the iterations do not influence each other: for a video of [n >= 1]
    frames and a ground truth of the same shape, entry [k] of [mious] and
    of [f1s] is what the call with threshold [k] returns on the arrays as
    they were before the loop, and after the loop the arrays of the caller
    are unchanged. *)
Theorem sweep_independent (dt : dtype) (s : store) (video_removed gt : ndarray) (n : nat)
    (sh : list nat)
    (thresholds : list scalar) :
  shape video_removed = n :: sh → shape gt = n :: sh → 2 ≤ length sh → 1 ≤ n →
  wf video_removed → wf gt → allocated s video_removed → allocated s gt →
  ∃ mious f1s : list Q,
    snd (sweep dt video_removed gt thresholds [] [] s) = Ok (mious, f1s) ∧
    Forall2 (fun thresh miou => snd (calc_miou dt video_removed gt thresh s) = Ok miou)
            thresholds mious ∧
    Forall2 (fun thresh f1 => snd (calc_f1 dt video_removed gt thresh s) = Ok f1)
            thresholds f1s ∧
    (∀ c, c < next s → mem (fst (sweep dt video_removed gt thresholds [] [] s)) c = mem s c).
Proof.
  intros Hsp Hst Hl Hn Hwp Hwt Hap Hat.
  destruct (sweep_spec dt s video_removed gt n sh Hsp Hst Hl Hn Hwp Hwt Hap Hat thresholds [] [] s)
    as (ms & fs & Hs & Hms & Hfs & Hfr); [lia | reflexivity |].
  exists ms, fs. split; [exact Hs |]. split; [exact Hms |]. split; [exact Hfs | exact Hfr].
Qed.

Lemma sweep_independent_witness :
  ∃ mious f1s : list Q,
    snd (sweep float32 (NdArray [2; 1; 1] [0; 1]) (NdArray [2; 1; 1] [2; 3])
           [NpFloat64 0; NpFloat64 (1 # 2); NpFloat64 1] [] []
           (store_of [1 # 2; 0; 1; 0]%Q)) = Ok (mious, f1s) ∧
    length mious = 3 ∧ length f1s = 3.
Proof.
  destruct (sweep_independent float32 (store_of [1 # 2; 0; 1; 0]%Q) (NdArray [2; 1; 1] [0; 1])
              (NdArray [2; 1; 1] [2; 3]) 2 [1; 1]
              [NpFloat64 0; NpFloat64 (1 # 2); NpFloat64 1])
    as (mious & f1s & Hs & Hm & Hf & _).
  - reflexivity.
  - reflexivity.
  - simpl. lia.
  - lia.
  - reflexivity.
  - reflexivity.
  - unfold allocated. simpl. repeat (constructor; [lia |]). constructor.
  - unfold allocated. simpl. repeat (constructor; [lia |]). constructor.
  - exists mious, f1s. split; [exact Hs |].
    apply Forall2_length in Hm, Hf. simpl in Hm, Hf. split; congruence.
Defined.

(** ** Further properties of the F1 score *)

Lemma f1_score_unfold (y_true y_pred : list Z) (beta : Z) :
  length y_true = length y_pred →
  f1_score y_true y_pred beta =
  let not8 := fun y => u8 (1 - y) in
  let mul8 := fun a b => u8 (a * b) in
  let tp := sum_u8 (zip_with mul8 y_true y_pred) in
  let fp := sum_u8 (zip_with mul8 (not8 <$> y_true) y_pred) in
  let fn := sum_u8 (zip_with mul8 y_true (not8 <$> y_pred)) in
  let precision := fdiv64 (of_int64 tp) (fadd64 (of_int64 (u64 (tp + fp))) epsilon) in
  let recall := fdiv64 (of_int64 tp) (fadd64 (of_int64 (u64 (tp + fn))) epsilon) in
  let f1 := fmul64 (of_int64 (1 + beta ^ 2)) (fmul64 precision recall) in
  Ok (fdiv64 f1 (fadd64 (fadd64 (fmul64 (of_int64 (beta ^ 2)) precision) recall) epsilon)).
Proof.
  intros Hl. unfold f1_score, zip_same. cbv zeta.
  rewrite !decide_True by (now rewrite Hl). reflexivity.
Qed.

Lemma zip_mul8_comm (a b : list Z) :
  zip_with (fun x y => u8 (x * y)) a b = zip_with (fun x y => u8 (x * y)) b a.
Proof.
  revert b. induction a as [|x a IH]; intros [|y b]; try reflexivity.
  simpl. rewrite IH. now rewrite Z.mul_comm.
Qed.

Lemma fl64_idem (x : Q) : fl64 (fl64 x) = fl64 x.
Proof. apply round_float_idem. lia. Qed.

Lemma fmul64_one (x : Q) : fmul64 (of_int64 1) (fl64 x) = fl64 x.
Proof.
  assert (E1 : of_int64 1 = 1%Q) by (vm_compute; reflexivity).
  rewrite E1. unfold fmul64. rewrite (fl64_proper (1 * fl64 x) (fl64 x)) by ring.
  apply fl64_idem.
Qed.

Lemma f1_formula_symmetric (p r : Q) :
  fl64 p = p → fl64 r = r →
  fdiv64 (fmul64 (of_int64 2) (fmul64 p r))
         (fadd64 (fadd64 (fmul64 (of_int64 1) p) r) epsilon) =
  fdiv64 (fmul64 (of_int64 2) (fmul64 r p))
         (fadd64 (fadd64 (fmul64 (of_int64 1) r) p) epsilon).
Proof.
  intros Hp Hr. rewrite <- Hp, <- Hr. rewrite !fmul64_one. rewrite !Hp, !Hr.
  assert (Em : fmul64 p r = fmul64 r p).
  { unfold fmul64. apply fl64_proper. ring. }
  assert (Ea : fadd64 p r = fadd64 r p).
  { unfold fadd64. apply fl64_proper. ring. }
  now rewrite Em, Ea.
Qed.

(** X12. With [beta = 1], as [calc_f1] calls it, [f1_score] is symmetric:
    exchanging ground truth and prediction exchanges precision and
    recall and gives the same float64 result, bit for bit. *)
Theorem f1_score_symmetric (y_true y_pred : list Z) :
  length y_true = length y_pred →
  f1_score y_true y_pred 1 = f1_score y_pred y_true 1.
Proof.
  intros Hl.
  rewrite (f1_score_unfold y_true y_pred 1 Hl).
  rewrite (f1_score_unfold y_pred y_true 1 (eq_sym Hl)). cbv zeta.
  rewrite (zip_mul8_comm y_pred y_true).
  rewrite (zip_mul8_comm ((fun y => u8 (1 - y)) <$> y_pred) y_true).
  rewrite (zip_mul8_comm y_pred ((fun y => u8 (1 - y)) <$> y_true)).
  change (1 + 1 ^ 2)%Z with 2%Z. change (1 ^ 2)%Z with 1%Z.
  apply (f_equal Ok). apply f1_formula_symmetric; unfold fdiv64; apply fl64_idem.
Qed.

Lemma f1_score_symmetric_witness :
  f1_score [1; 0; 1]%Z [1; 1; 0]%Z 1 = f1_score [1; 1; 0]%Z [1; 0; 1]%Z 1.
Proof. apply (f1_score_symmetric [1; 0; 1]%Z [1; 1; 0]%Z). reflexivity. Defined.

(** ** Range of the F1 score *)

Section F1Range.
#[local] Open Scope Q_scope.

Lemma epsilon_pos : 0 < epsilon.
Proof. apply closed_lt. vm_compute. reflexivity. Qed.

Lemma fl64_pos x : 0 < x -> 0 < fl64 x.
Proof. apply round_float_pos. lia. Qed.

Lemma fl64_nonneg x : 0 <= x -> 0 <= fl64 x.
Proof. apply round_float_nonneg. lia. Qed.

Lemma fl64_unit (a d : Q) : 0 <= a -> a <= d -> 0 < d -> 0 <= fl64 (a / d) <= 1.
Proof.
  intros Ha Had Hd.
  assert (H0 : 0 <= a / d) by (apply Qle_shift_div_l; [exact Hd | lra]).
  assert (H1 : a / d <= 1) by (apply Qle_shift_div_r; [exact Hd | lra]).
  split.
  - rewrite <- fl64_0. apply fl64_mono. exact H0.
  - rewrite <- fl64_1. apply fl64_mono. exact H1.
Qed.

Lemma of_int64_nonneg z : (0 <= z)%Z -> 0 <= of_int64 z.
Proof.
  intros Hz. unfold of_int64. apply fl64_nonneg.
  change 0 with (inject_Z 0). rewrite <- Zle_Qle. exact Hz.
Qed.

Lemma of_int64_idem z : fl64 (of_int64 z) = of_int64 z.
Proof. unfold of_int64. apply fl64_idem. Qed.

(** Precision and recall lie in [[0, 1]]. *)
Lemma f1_ratio_range (tp other : Z) :
  (0 <= tp)%Z -> (0 <= other)%Z ->
  0 <= fdiv64 (of_int64 tp) (fadd64 (of_int64 (tp + other)) epsilon) <= 1.
Proof.
  intros Ht Ho. unfold fdiv64, fadd64.
  pose proof epsilon_pos as He.
  pose proof (of_int64_nonneg tp Ht) as H0.
  pose proof (of_int64_mono tp (tp + other) ltac:(lia)) as Hm.
  apply fl64_unit; [exact H0 | | apply fl64_pos; lra].
  apply Qle_trans with (of_int64 (tp + other)); [exact Hm |].
  rewrite <- (of_int64_idem (tp + other)) at 1. apply fl64_mono. lra.
Qed.

Lemma f1_formula_range (p r : Q) :
  fl64 p = p -> fl64 r = r -> 0 <= p <= 1 -> 0 <= r <= 1 ->
  0 <= fdiv64 (fmul64 (of_int64 2) (fmul64 p r))
              (fadd64 (fadd64 (fmul64 (of_int64 1) p) r) epsilon) <= 1.
Proof.
  intros Ep Er Hp Hr. pose proof epsilon_pos as He.
  assert (E1 : fmul64 (of_int64 1) p = p) by (rewrite <- Ep; apply fmul64_one).
  assert (E2 : of_int64 2 = 2) by (vm_compute; reflexivity).
  rewrite E1, E2. unfold fdiv64, fmul64, fadd64.
  assert (Hpr0 : 0 <= p * r) by (apply Qmult_le_0_compat; lra).
  assert (Hprp : p * r <= p).
  { assert (H : 0 <= p * (1 - r)) by (apply Qmult_le_0_compat; lra). lra. }
  assert (Hprr : p * r <= r).
  { assert (H : 0 <= (1 - p) * r) by (apply Qmult_le_0_compat; lra). lra. }
  assert (Hq0 : 0 <= fl64 (p * r)) by (apply fl64_nonneg; exact Hpr0).
  assert (Hqp : fl64 (p * r) <= p) by (rewrite <- Ep at 2; apply fl64_mono; exact Hprp).
  assert (Hqr : fl64 (p * r) <= r) by (rewrite <- Er at 2; apply fl64_mono; exact Hprr).
  assert (Hs0 : 0 <= fl64 (p + r)) by (apply fl64_nonneg; lra).
  apply fl64_unit.
  - apply fl64_nonneg. lra.
  - apply Qle_trans with (fl64 (p + r)); [apply fl64_mono; lra |].
    rewrite <- (fl64_idem (p + r)) at 1. apply fl64_mono. lra.
  - apply fl64_pos. lra.
Qed.

End F1Range.

Lemma sum_products_bounds (a : list Z) :
  ∀ b : list Z,
    (0 <= foldr Z.add 0 (zip_with (fun x y => u8 (x * y)) a b) <=
     255 * Z.of_nat (length a))%Z.
Proof.
  induction a as [|x a IH]; intros b; [simpl; lia |].
  destruct b as [|y b]; [simpl zip_with; simpl foldr; lia |].
  specialize (IH b). cbn [zip_with foldr length].
  assert (Hu : (0 <= u8 (x * y) < 256)%Z) by (unfold u8; apply Z.mod_pos_bound; lia).
  lia.
Qed.

Lemma sum_u8_small (a b : list Z) :
  (Z.of_nat (length a) < 2 ^ 55)%Z →
  sum_u8 (zip_with (fun x y => u8 (x * y)) a b) =
    foldr Z.add 0%Z (zip_with (fun x y => u8 (x * y)) a b) ∧
  (0 <= foldr Z.add 0 (zip_with (fun x y => u8 (x * y)) a b) < 2 ^ 63)%Z.
Proof.
  intros Hl. pose proof (sum_products_bounds a b) as Hb.
  assert (H63 : (0 <= foldr Z.add 0 (zip_with (fun x y => u8 (x * y)) a b) < 2 ^ 63)%Z).
  { change (2 ^ 55)%Z with 36028797018963968%Z in Hl.
    change (2 ^ 63)%Z with 9223372036854775808%Z. lia. }
  split; [| exact H63]. unfold sum_u8, u64. apply Z.mod_small.
  change (2 ^ 63)%Z with 9223372036854775808%Z in H63.
  change (2 ^ 64)%Z with 18446744073709551616%Z. lia.
Qed.

(** X13. With [beta = 1] the value of [f1_score] on uint8 arrays of one
    length is a float64 in [[0, 1]], every rounding included: precision
    and recall are at most 1 and the last division is by a number that is
    at least the numerator. *)
Theorem f1_score_range (y_true y_pred : list Z) :
  length y_true = length y_pred →
  (Z.of_nat (length y_true) < 2 ^ 55)%Z →
  ∃ r : Q, f1_score y_true y_pred 1 = Ok r ∧ (0 <= r <= 1)%Q.
Proof.
  intros Hl Hn. rewrite (f1_score_unfold y_true y_pred 1 Hl). cbv zeta.
  eexists. split; [reflexivity |].
  assert (Hn' : (Z.of_nat (length ((fun y => u8 (1 - y)) <$> y_true)) < 2 ^ 55)%Z)
    by (now rewrite length_fmap).
  destruct (sum_u8_small y_true y_pred Hn) as [Etp Htp].
  destruct (sum_u8_small ((fun y => u8 (1 - y)) <$> y_true) y_pred Hn') as [Efp Hfp].
  destruct (sum_u8_small y_true ((fun y => u8 (1 - y)) <$> y_pred) Hn) as [Efn Hfn].
  rewrite Etp, Efp, Efn.
  set (tp := foldr Z.add 0%Z (zip_with (fun x y => u8 (x * y)) y_true y_pred)) in *.
  set (fp := foldr Z.add 0%Z
               (zip_with (fun x y => u8 (x * y)) ((fun y => u8 (1 - y)) <$> y_true) y_pred)) in *.
  set (fn := foldr Z.add 0%Z
               (zip_with (fun x y => u8 (x * y)) y_true ((fun y => u8 (1 - y)) <$> y_pred))) in *.
  assert (Eu1 : u64 (tp + fp) = (tp + fp)%Z).
  { unfold u64. apply Z.mod_small.
    change (2 ^ 63)%Z with 9223372036854775808%Z in Htp, Hfp.
    change (2 ^ 64)%Z with 18446744073709551616%Z. lia. }
  assert (Eu2 : u64 (tp + fn) = (tp + fn)%Z).
  { unfold u64. apply Z.mod_small.
    change (2 ^ 63)%Z with 9223372036854775808%Z in Htp, Hfn.
    change (2 ^ 64)%Z with 18446744073709551616%Z. lia. }
  rewrite Eu1, Eu2.
  change (1 + 1 ^ 2)%Z with 2%Z. change (1 ^ 2)%Z with 1%Z.
  apply f1_formula_range.
  - unfold fdiv64. apply fl64_idem.
  - unfold fdiv64. apply fl64_idem.
  - apply f1_ratio_range; lia.
  - apply f1_ratio_range; lia.
Qed.

Lemma f1_score_range_witness :
  ∃ r : Q, f1_score [1; 0; 1]%Z [1; 1; 0]%Z 1 = Ok r ∧ (0 <= r <= 1)%Q.
Proof.
  apply (f1_score_range [1; 0; 1]%Z [1; 1; 0]%Z); [reflexivity |].
  change (2 ^ 55)%Z with 36028797018963968%Z. simpl. lia.
Defined.

(** ** Edge cases of [calc_miou] *)

(** X14. [calc_miou] on arrays of one shape that hold no video: with a
    first dimension 0 the loop does not run and [miou / pred.shape[0]] is
    the division of the integer 0 by 0, a [ZeroDivisionError]; with fewer
    than three dimensions [pred[i, :, :]] raises [IndexError], as does
    [pred.shape[0]] for a zero-dimensional array. *)
Theorem calc_miou_errors (dt : dtype) (s : store) (pred truth : ndarray) (thresh : scalar) :
  shape pred = shape truth →
  (∀ sh, shape pred = 0 :: sh →
         snd (calc_miou dt pred truth thresh s) = Raise ZeroDivisionError) ∧
  (shape pred = [] → snd (calc_miou dt pred truth thresh s) = Raise IndexError) ∧
  (∀ n sh, shape pred = n :: sh → 1 ≤ n → length sh < 2 →
           snd (calc_miou dt pred truth thresh s) = Raise IndexError).
Proof.
  intros Hs. unfold calc_miou.
  destruct (decide (shape pred = shape truth)) as [_|Hne]; [| contradiction].
  pose proof (shape_copy pred s) as Hsc.
  destruct (copy pred s) as [s1 pred1]. simpl in Hsc.
  split; [| split].
  - intros sh Hsh. rewrite Hsc, Hsh. reflexivity.
  - intros Hsh. rewrite Hsc, Hsh. reflexivity.
  - intros n sh Hsh Hn Hl. rewrite Hsc, Hsh.
    destruct n as [|n]; [lia |]. cbn [seq]. rewrite miou_loop_cons.
    assert (Hf : frame pred1 0 = Raise IndexError).
    { unfold frame. rewrite Hsc, Hsh.
      destruct sh as [|d1 [|d2 sh]]; simpl in Hl; try reflexivity. lia. }
    rewrite Hf. reflexivity.
Qed.

Lemma calc_miou_errors_witness :
  snd (calc_miou float32 (NdArray [0; 1; 2] []) (NdArray [0; 1; 2] []) default_thresh
         (store_of [])) = Raise ZeroDivisionError ∧
  snd (calc_miou float32 (NdArray [1; 2] [0; 1]) (NdArray [1; 2] [2; 3]) default_thresh
         (store_of [1; 0; 1; 0]%Q)) = Raise IndexError.
Proof.
  split.
  - destruct (calc_miou_errors float32 (store_of []) (NdArray [0; 1; 2] [])
                (NdArray [0; 1; 2] []) default_thresh eq_refl) as (H & _).
    apply (H [1; 2]). reflexivity.
  - destruct (calc_miou_errors float32 (store_of [1; 0; 1; 0]%Q) (NdArray [1; 2] [0; 1])
                (NdArray [1; 2] [2; 3]) default_thresh eq_refl) as (_ & _ & H).
    apply (H 1 [2]); [reflexivity | lia | simpl; lia].
Defined.

(** ** Calling [calc_iou] again *)




(** ** The background model *)

Lemma panel_index_step (k : nat) :
  (k mod 4 = 0 → k = 4 * ((k + 3) / 4) ∧ (S k + 3) / 4 = (k + 3) / 4 + 1) ∧
  (k mod 4 ≠ 0 → (S k + 3) / 4 = (k + 3) / 4).
Proof.
  pose proof (Nat.div_mod_eq k 4) as Hk.
  pose proof (Nat.mod_upper_bound k 4 ltac:(lia)) as Hr.
  set (q := k / 4) in *. set (r := k mod 4) in *.
  split; intros H.
  - assert (E : (k + 3) / 4 = q) by (symmetry; apply (Nat.div_unique (k + 3) 4 q 3); lia).
    assert (E' : (S k + 3) / 4 = q + 1)
      by (symmetry; apply (Nat.div_unique (S k + 3) 4 (q + 1) 0); lia).
    rewrite E, E'. lia.
  - assert (E : (k + 3) / 4 = q + 1)
      by (symmetry; apply (Nat.div_unique (k + 3) 4 (q + 1) (r - 1)); lia).
    assert (E' : (S k + 3) / 4 = q + 1)
      by (symmetry; apply (Nat.div_unique (S k + 3) 4 (q + 1) r); lia).
    rewrite E, E'. lia.
Qed.

Lemma zip_with_fmap_seq {A B C} (f : A → B → C) (g : nat → A) (h : nat → B) (l : list nat) :
  zip_with f (g <$> l) (h <$> l) = (fun j => f (g j) (h j)) <$> l.
Proof.
  induction l as [|x l IH]; [reflexivity |].
  rewrite !fmap_cons. cbn [zip_with]. now rewrite IH.
Qed.

Lemma frame_pixels (t : tensor) (sz k : nat) :
  (k + 1) * sz ≤ length (t_data t) →
  take sz (drop (k * sz) (t_data t)) = (fun j => pixel t sz k j) <$> seq 0 sz.
Proof.
  intros Hl. apply list_eq. intros j. rewrite list_lookup_fmap.
  destruct (decide (j < sz)) as [Hj|Hj].
  - rewrite lookup_take_lt by exact Hj. rewrite lookup_drop, lookup_seq_lt by exact Hj.
    simpl. unfold pixel. rewrite nth_lookup.
    destruct (lookup_lt_is_Some_2 (t_data t) (k * sz + j) ltac:(lia)) as [x Hx].
    now rewrite Hx.
  - rewrite lookup_take_ge by lia. now rewrite lookup_seq_ge by lia.
Qed.

Lemma running_sum_S (t : tensor) (sz k j : nat) :
  running_sum t sz (S k) j = fadd64 (running_sum t sz k j) (pixel t sz k j).
Proof.
  unfold running_sum. rewrite seq_S, fmap_app, foldl_app. reflexivity.
Qed.

Section Background.
Variables (modes : tensor) (n : nat) (sh : list nat).
Hypothesis Hsh : t_shape modes = n :: sh.
Hypothesis Hl : 2 ≤ length sh.
Hypothesis Hdata : length (t_data modes) = n * size sh.

Lemma modes_frame k :
  k < n →
  tensor_frame modes k = Ok (Tensor sh ((fun j => pixel modes (size sh) k j) <$> seq 0 (size sh))).
Proof.
  intros Hk. unfold tensor_frame. rewrite Hsh.
  destruct sh as [|d1 [|d2 sh']] eqn:Esh; simpl in Hl; try lia.
  rewrite (proj2 (Nat.ltb_lt k n) Hk). rewrite <- Esh. f_equal. f_equal.
  apply frame_pixels. rewrite Hdata. rewrite <- Esh. nia.
Qed.

Lemma background_loop_spec (K : nat) :
  K ≤ n → K ≤ 100 →
  ∀ m k, k + m = K →
    background_loop modes 25 (seq k m)
      (Tensor sh ((fun j => running_sum modes (size sh) k j) <$> seq 0 (size sh)))
      ((k + 3) / 4) (mean_panel modes (size sh) <$> seq 0 ((k + 3) / 4)) =
    Ok (Tensor sh ((fun j => running_sum modes (size sh) K j) <$> seq 0 (size sh)),
        (K + 3) / 4, mean_panel modes (size sh) <$> seq 0 ((K + 3) / 4)).
Proof.
  intros HKn HK100. induction m as [|m IH]; intros k Hk.
  - simpl. replace k with K by lia. reflexivity.
  - cbn [seq background_loop]. rewrite (modes_frame k) by lia.
    cbn [mbind result_bind t_shape t_data]. unfold zip_same.
    rewrite decide_True by reflexivity. cbn [mbind result_bind].
    rewrite zip_with_fmap_seq.
    assert (Ebg : (fun j => fadd64 (running_sum modes (size sh) k j) (pixel modes (size sh) k j))
                  <$> seq 0 (size sh) =
                  (fun j => running_sum modes (size sh) (S k) j) <$> seq 0 (size sh)).
    { apply list_fmap_ext. intros _ j _. now rewrite running_sum_S. }
    rewrite Ebg. destruct (panel_index_step k) as [H0 H1].
    destruct (k mod 4 =? 0) eqn:Emod.
    + apply Nat.eqb_eq in Emod. destruct (H0 Emod) as [E4 Estep].
      assert (Hguard : (25 <=? (k + 3) / 4) = false) by (apply Nat.leb_gt; lia).
      rewrite Hguard.
      assert (Epanel : (mean_panel modes (size sh) <$> seq 0 ((k + 3) / 4)) ++
                       [Panel ((k + 3) / 4) k
                          ((fun x => fdiv64 x (of_int64 (Z.of_nat k + 1))) <$>
                           ((fun j => running_sum modes (size sh) (S k) j) <$> seq 0 (size sh)))] =
                       mean_panel modes (size sh) <$> seq 0 ((S k + 3) / 4)).
      { rewrite Estep, seq_app, fmap_app. f_equal. rewrite Nat.add_0_l.
        cbn [seq fmap list_fmap]. unfold mean_panel.
        rewrite <- list_fmap_compose. unfold compose.
        rewrite <- E4. replace (k + 1) with (S k) by lia. reflexivity. }
      rewrite Epanel. rewrite <- Estep. apply IH. lia.
    + apply Nat.eqb_neq in Emod. rewrite <- (H1 Emod). apply IH. lia.
Qed.

End Background.

(** X16. The background model.  For [modes] of [n >= 1] frames the
    background is, pixel by pixel, the float64 sum of the first
    [K = min(100, n)] modes, added in order, divided by [K]: later modes
    do not enter.  The figure gets one panel for every fourth [k] below
    [K], panel [i] showing the mean of the first [4 i + 1] modes under the
    title [K = 4 i]; these are at most 25 panels, so the test
    [idx >= len(axes)] never skips one. *)
Theorem background_model_mean (modes : tensor) (n : nat) (sh : list nat) :
  t_shape modes = n :: sh → 2 ≤ length sh → 1 ≤ n →
  length (t_data modes) = n * size sh →
  background_model modes =
    Ok (Tensor sh
          ((fun j => fdiv64 (running_sum modes (size sh) (100 `min` n) j)
                            (of_int64 (Z.of_nat (100 `min` n))))
           <$> seq 0 (size sh)),
        mean_panel modes (size sh) <$> seq 0 ((100 `min` n + 3) / 4)) ∧
  (100 `min` n + 3) / 4 ≤ 25.
Proof.
  intros Hsh Hl Hn Hdata. split.
  - unfold background_model. rewrite Hsh. cbn [head default].
    rewrite (modes_frame modes n sh Hsh Hl Hdata 0) by lia.
    cbn [mbind result_bind t_shape t_data].
    rewrite <- list_fmap_compose.
    change ((fun _ : Q => 0%Q) ∘ (fun j => pixel modes (size sh) 0 j) <$> seq 0 (size sh))
      with ((fun j => running_sum modes (size sh) 0 j) <$> seq 0 (size sh)).
    pose proof (background_loop_spec modes n sh Hsh Hl Hdata (100 `min` n)
                  ltac:(lia) ltac:(lia) (100 `min` n) 0 eq_refl) as Hloop.
    change ((0 + 3) / 4) with 0 in Hloop. cbn [seq fmap list_fmap] in Hloop.
    unfold id. rewrite Hloop. cbn [mbind result_bind mret result_ret fst snd t_shape t_data].
    rewrite <- list_fmap_compose. reflexivity.
  - transitivity (103 / 4); [apply Nat.Div0.div_le_mono; lia | reflexivity].
Qed.

Lemma background_model_mean_witness :
  ∃ bg panels,
    background_model (Tensor [2; 1; 2] [1; 0; 0; 1]%Q) = Ok (bg, panels) ∧
    t_data bg = [1 # 2; 1 # 2]%Q ∧ length panels = 1.
Proof.
  destruct (background_model_mean (Tensor [2; 1; 2] [1; 0; 0; 1]%Q) 2 [1; 2])
    as [H _]; [reflexivity | simpl; lia | lia | reflexivity |].
  eexists _, _. split; [exact H |]. split; vm_compute; reflexivity.
Defined.

(** ** The data set table *)

Lemma dict_set_elem {V} (i : string) (n : V) (d : list (string * V)) (k : string) (v : V) :
  (k, v) ∈ dict_set i n d → (k, v) ∈ d ∨ (k = i ∧ v = n).
Proof.
  induction d as [|[k' v'] d IH]; simpl; intros H.
  - apply list_elem_of_singleton in H. injection H as -> ->. now right.
  - destruct (String.eqb k' i) eqn:E.
    + apply String.eqb_eq in E. subst k'.
      apply elem_of_cons in H as [H|H].
      * injection H as -> ->. now right.
      * left. now apply list_elem_of_further.
    + apply elem_of_cons in H as [H|H].
      * left. rewrite H. apply list_elem_of_here.
      * destruct (IH H) as [H'|H']; [left; now apply list_elem_of_further | now right].
Qed.

Lemma metadata_loop_rows (fs : filesystem) (videos : list string) :
  ∀ d d', metadata_loop fs videos d = Ok d' →
    ∀ k v, (k, v) ∈ d' →
      (k, v) ∈ d ∨
      (k ∈ videos ∧
       ∃ names, dirs fs !! ("SegTrackv2/JPEGImages/" +:+ k) = Some names ∧ v = length names).
Proof.
  induction videos as [|i videos IH]; intros d d' H k v Hk.
  - injection H as <-. now left.
  - cbn [metadata_loop] in H. unfold listdir in H.
    destruct (dirs fs !! ("SegTrackv2/JPEGImages/" +:+ i)) as [names|] eqn:Ed; [| discriminate H].
    cbn [mbind result_bind] in H.
    destruct (IH _ _ H k v Hk) as [Hd|[Hin Hn]].
    + apply dict_set_elem in Hd as [Hd|[-> ->]]; [now left |].
      right. split; [apply list_elem_of_here |]. now exists names.
    + right. split; [now apply list_elem_of_further | exact Hn].
Qed.

(** X17. The table of the data set and the check of [OBJ].  Every row
    names a video of [valid] whose directory of raw frames exists, with
    the number of entries of that directory as its number of frames.  So
    when the assertion on [OBJ] passes, the loaders find the directory of
    [OBJ].  The entry that comes first in the sorted listing of
    [SegTrackv2/JPEGImages] is cut off by [[1:]] and never has a row, be
    it a video of [valid] or not. *)
Theorem dataset_table_rows (fs : filesystem) (df : list (string * nat)) :
  dataset_table fs = Ok df →
  (∀ name cnt, (name, cnt) ∈ df →
     name ∈ valid ∧
     ∃ names, dirs fs !! ("SegTrackv2/JPEGImages/" +:+ name) = Some names ∧
              cnt = length names) ∧
  (∀ OBJ, check_object df OBJ = Ok tt →
     ∃ names, listdir fs ("SegTrackv2/JPEGImages/" +:+ OBJ) = Ok names ∧
              (OBJ, length names) ∈ df) ∧
  (∀ top first, dirs fs !! "SegTrackv2/JPEGImages" = Some top → NoDup top →
     head (sorted top) = Some first → first ∉ df.*1).
Proof.
  unfold dataset_table, listdir. intros H.
  destruct (dirs fs !! "SegTrackv2/JPEGImages") as [top|] eqn:Etop; [| discriminate H].
  cbn [mbind result_bind] in H. cbv zeta in H.
  destruct (metadata_loop fs (drop 1 (sorted top)) []) as [md|e] eqn:Emd; [| discriminate H].
  cbn [mbind result_bind mret result_ret] in H. injection H as <-.
  assert (Hrow : ∀ name cnt, (name, cnt) ∈ filter (fun row => row.1 ∈ valid) md →
            name ∈ valid ∧ name ∈ drop 1 (sorted top) ∧
            ∃ names, dirs fs !! ("SegTrackv2/JPEGImages/" +:+ name) = Some names ∧
                     cnt = length names).
  { intros name cnt Hin. apply list_elem_of_filter in Hin as [Hv Hin]. simpl in Hv.
    split; [exact Hv |].
    destruct (metadata_loop_rows fs _ _ _ Emd name cnt Hin) as [Hnil|[Hd Hn]];
      [inversion Hnil | split; assumption]. }
  split; [| split].
  - intros name cnt Hin. destruct (Hrow name cnt Hin) as (Hv & _ & Hn). now split.
  - intros OBJ Hc. unfold check_object in Hc.
    destruct (bool_decide (OBJ ∈ (filter (fun row => row.1 ∈ valid) md).*1)) eqn:E;
      [| discriminate Hc].
    apply bool_decide_eq_true in E. apply list_elem_of_fmap in E as ([k cnt] & Ek & Hin).
    simpl in Ek. subst k.
    destruct (Hrow OBJ cnt Hin) as (_ & _ & names & Hd & ->).
    exists names. rewrite Hd. split; [reflexivity | exact Hin].
  - intros top' first Etop' Hnd Hhd Hin. injection Etop' as <-.
    apply list_elem_of_fmap in Hin as ([k cnt] & Ek & Hin). simpl in Ek. subst k.
    destruct (Hrow first cnt Hin) as (_ & Hd & _).
    assert (Hnd' : NoDup (sorted top)).
    { destruct (sorted_sorted top) as [_ Hp]. now rewrite Hp. }
    destruct (sorted top) as [|x rest]; [discriminate Hhd |].
    injection Hhd as ->. simpl in Hd. apply NoDup_cons in Hnd' as [Hx _]. contradiction.
Qed.

Lemma dataset_table_rows_witness :
  dataset_table example_fs_dataset = Ok [("frog", 2); ("worm", 1)] ∧
  "birdfall" ∉ ["frog"; "worm"].
Proof.
  assert (H : dataset_table example_fs_dataset = Ok [("frog", 2); ("worm", 1)])
    by (vm_compute; reflexivity).
  split; [exact H |].
  destruct (dataset_table_rows example_fs_dataset [("frog", 2); ("worm", 1)] H) as (_ & _ & Hf).
  apply (Hf ["worm"; "frog"; "birdfall"] "birdfall").
  - reflexivity.
  - repeat (apply NoDup_cons; split;
            [intros Hin; repeat (apply elem_of_cons in Hin as [Hin|Hin]; [discriminate Hin |]);
             inversion Hin |]).
    apply NoDup_nil. exact I.
  - vm_compute. reflexivity.
Defined.

